(** * lib9p hashtable.c: a fixed-bucket chained hash table and its iterator

    The table maps a 32-bit hash to an opaque [void *].  Every bucket is a
    [TAILQ] of heap-allocated [struct ht_item] nodes.  The development models
    the nodes at pointer level: a node lives at an address, carries its own
    [tqe_next]/[tqe_prev] links, and can be freed while pointers to it
    survive.  That is what the iterator functions need: they keep a raw
    pointer to a node across calls.

    The reader/writer lock is taken and released inside every function, on
    every path; one thread running the calls one after the other never
    observes it, so the lock is left out of the state. *)

From stdpp Require Import base option list gmap fin_maps.

(** ** Data *)

(** Address of a [struct ht_item]. *)
Definition loc := positive.

(** The stored [void *]; the table never looks inside.  [0] is [NULL]. *)
Definition ptr := N.
Definition NULL : ptr := 0%N.

(** A [struct ht_item **]: the address of a cell that holds a pointer to a
    node.  Such a cell is either the [tqh_first] field of bucket [slot], or
    the [tqe_next] field of the node at [p].  [LNull] is the null pointer
    that [calloc] leaves in a blank node. *)
Inductive linkp :=
| LNull
| LHead (slot : nat)
| LNext (p : loc).

(** [struct ht_item], with the two fields of its [TAILQ_ENTRY] inlined.
    [hti_hash] is a [uint32_t]; the file only compares hashes and reduces
    them modulo [ht_nentries], so no operation on them can wrap around. *)
Record ht_item := mk_item {
  hti_hash : N;
  hti_data : ptr;
  tqe_next : option loc;
  tqe_prev : linkp
}.

(** [struct ht_entry]: one bucket, that is one [TAILQ_HEAD]. *)
Record ht_entry := mk_entry {
  tqh_first : option loc;
  tqh_last : linkp
}.

(** A block handed out by the allocator is live until it is freed.  Using a
    pointer to a freed block is undefined in C whatever the allocator does
    with the address afterwards.  The runs of [step] below never get an
    address twice, so that on them such a use shows as a fault.  The
    functions themselves take any address: given one that was freed, [ht_add]
    makes the block live again, and a stale pointer to it goes unnoticed. *)
Inductive block :=
| Live (it : ht_item)
| Freed.

(** [struct ht] together with the node blocks its pointers range over:
    [ht_entries] is the bucket array, [ht_nentries] its recorded length and
    [ht_items] the blocks obtained from [l9p_calloc] so far. *)
Record ht := mk_ht {
  ht_entries : list ht_entry;
  ht_nentries : nat;
  ht_items : gmap loc block
}.

(** Where the [struct ht] that [h] points to lives.  [ht_init] only clears
    and fills [*h]; the storage is the caller's: a block from [malloc], or
    something else (a member of a larger object, a local variable). *)
Inductive storage :=
| Malloced
| Embedded.

(** [struct ht_iter] (the function [ht_iter] has the plain name).
    [htit_parent] is the one table of the state. *)
Record struct_ht_iter := mk_iter {
  htit_slot : nat;
  htit_cursor : option loc
}.

#[global] Instance linkp_eq_dec : EqDecision linkp.
Proof. solve_decision. Defined.
#[global] Instance ht_item_eq_dec : EqDecision ht_item.
Proof. solve_decision. Defined.
#[global] Instance block_eq_dec : EqDecision block.
Proof. solve_decision. Defined.

(** ** Outcomes *)

(** What goes wrong in C without a return value. *)
Inductive fault :=
| UseAfterFree (p : loc)      (* access to a freed node *)
| WildPointer (p : loc)       (* access to an address never allocated *)
| NullDeref                   (* write through a null [tqe_prev] *)
| OutOfBounds (i : nat)       (* bucket index past the array *)
| DivByZero                   (* [hash % 0] *)
| Spin                        (* a loop that does not come back *)
| BadFree.                    (* [free] of a pointer [malloc] did not return *)

Inductive outcome (A : Type) :=
| Done (a : A)
| Abort (f : fault).
Arguments Done {A} a.
Arguments Abort {A} f.

#[global] Instance outcome_ret : MRet outcome := @Done.
#[global] Instance outcome_bind : MBind outcome :=
  λ A B f x, match x with Done a => f a | Abort e => Abort e end.

(** The [errno] values the file sets. *)
Inductive errno := EEXIST | ENOENT | EINVAL.

(** Result of the [int] functions: [return (0)], or [errno = e; return (-1)]. *)
Inductive rc :=
| Ret0
| RetErr (e : errno).

#[global] Instance errno_eq_dec : EqDecision errno.
Proof. solve_decision. Defined.
#[global] Instance rc_eq_dec : EqDecision rc.
Proof. solve_decision. Defined.

(** ** Memory accesses *)

Definition load (m : ht) (p : loc) : outcome ht_item :=
  match ht_items m !! p with
  | Some (Live it) => Done it
  | Some Freed => Abort (UseAfterFree p)
  | None => Abort (WildPointer p)
  end.

Definition store (m : ht) (p : loc) (it : ht_item) : ht :=
  mk_ht (ht_entries m) (ht_nentries m) (<[p := Live it]> (ht_items m)).

(** [free(p)] *)
Definition free (m : ht) (p : loc) : outcome ht :=
  _ ← load m p;
  Done (mk_ht (ht_entries m) (ht_nentries m) (<[p := Freed]> (ht_items m))).

(** [h->ht_entries[i]] *)
Definition bucket (m : ht) (i : nat) : outcome ht_entry :=
  match ht_entries m !! i with
  | Some e => Done e
  | None => Abort (OutOfBounds i)
  end.

Definition set_bucket (m : ht) (i : nat) (e : ht_entry) : ht :=
  mk_ht (<[i := e]> (ht_entries m)) (ht_nentries m) (ht_items m).

(** [*lp = v] *)
Definition store_link (m : ht) (lp : linkp) (v : option loc) : outcome ht :=
  match lp with
  | LNull => Abort NullDeref
  | LHead i =>
      e ← bucket m i;
      Done (set_bucket m i (mk_entry v (tqh_last e)))
  | LNext p =>
      it ← load m p;
      Done (store m p (mk_item (hti_hash it) (hti_data it) v (tqe_prev it)))
  end.

(** ** The <sys/queue.h> macros the file uses *)

(** [TAILQ_INIT(&h->ht_entries[i].hte_items)] leaves this bucket. *)
Definition TAILQ_INIT (i : nat) : ht_entry := mk_entry None (LHead i).

(** [TAILQ_INSERT_TAIL(&h->ht_entries[i].hte_items, elm, hti_link)]:
    [elm->next = NULL; elm->prev = head->last; *head->last = elm;
     head->last = &elm->next]. *)
Definition TAILQ_INSERT_TAIL (m : ht) (i : nat) (elm : loc) : outcome ht :=
  it ← load m elm;
  e ← bucket m i;
  let m1 := store m elm (mk_item (hti_hash it) (hti_data it) None (tqh_last e)) in
  m2 ← store_link m1 (tqh_last e) (Some elm);
  e2 ← bucket m2 i;
  Done (set_bucket m2 i (mk_entry (tqh_first e2) (LNext elm))).

(** [TAILQ_REMOVE(&h->ht_entries[i].hte_items, elm, hti_link)]:
    [if (elm->next != NULL) elm->next->prev = elm->prev;
     else head->last = elm->prev;
     *elm->prev = elm->next].  The fields of [elm] itself stay as they
    were. *)
Definition TAILQ_REMOVE (m : ht) (i : nat) (elm : loc) : outcome ht :=
  it ← load m elm;
  m1 ← match tqe_next it with
       | Some n =>
           nx ← load m n;
           Done (store m n (mk_item (hti_hash nx) (hti_data nx) (tqe_next nx) (tqe_prev it)))
       | None =>
           e ← bucket m i;
           Done (set_bucket m i (mk_entry (tqh_first e) (tqe_prev it)))
       end;
  store_link m1 (tqe_prev it) (tqe_next it).

(** ** The functions of hashtable.c *)

(** [ht_init(h, size)]: [size] empty buckets; no node allocated yet. *)
Definition ht_init (size : nat) : ht :=
  mk_ht (TAILQ_INIT <$> seq 0 size) size ∅.

(** [hash % h->ht_nentries] *)
Definition slot_of (m : ht) (hash : N) : outcome nat :=
  if decide (ht_nentries m = 0) then Abort DivByZero
  else Done (N.to_nat (hash mod N.of_nat (ht_nentries m))).

(** Every chain walk gets as many steps as there are blocks, and one more.
    A walk that needs more has met some block twice: it goes round a cycle,
    and the C loop does not end. *)
Definition fuel (m : ht) : nat := S (size (ht_items m)).

(** The loop shared by [ht_find], [ht_add] and [ht_remove]:
    [TAILQ_FOREACH(item, ...) if (item->hti_hash == hash) <leave>].
    It stops at the first node with the hash, or at the end of the chain.
    ([TAILQ_FOREACH_SAFE] in [ht_remove] only reads the successor before the
    test instead of after it.) *)
Fixpoint scan (n : nat) (m : ht) (item : option loc) (hash : N)
  : outcome (option (loc * ht_item)) :=
  match item with
  | None => Done None
  | Some p =>
      match n with
      | 0 => Abort Spin
      | S n' =>
          it ← load m p;
          if decide (hti_hash it = hash) then Done (Some (p, it))
          else scan n' m (tqe_next it) hash
      end
  end.

Definition ht_find (m : ht) (hash : N) : outcome ptr :=
  slot ← slot_of m hash;
  entry ← bucket m slot;
  r ← scan (fuel m) m (tqh_first entry) hash;
  match r with
  | Some (_, item) => Done (hti_data item)
  | None => Done NULL
  end.

Arguments ht_find m hash%_N.

(** [l9p_calloc(1, sizeof(struct ht_item))] returning [p]: a zeroed node. *)
Definition calloc_item (m : ht) (p : loc) : ht :=
  store m p (mk_item 0 NULL None LNull).

(** [ht_add(h, hash, value)]; [p] is the address [l9p_calloc] returns if the
    function gets that far. *)
Definition ht_add (m : ht) (hash : N) (value : ptr) (p : loc) : outcome (ht * rc) :=
  slot ← slot_of m hash;
  entry ← bucket m slot;
  r ← scan (fuel m) m (tqh_first entry) hash;
  match r with
  | Some _ => Done (m, RetErr EEXIST)
  | None =>
      let m1 := calloc_item m p in
      let m2 := store m1 p (mk_item hash value None LNull) in
      m3 ← TAILQ_INSERT_TAIL m2 slot p;
      Done (m3, Ret0)
  end.

Arguments ht_add m (hash value)%_N p%_positive.

Definition ht_remove (m : ht) (hash : N) : outcome (ht * rc) :=
  slot ← slot_of m hash;
  entry ← bucket m slot;
  r ← scan (fuel m) m (tqh_first entry) hash;
  match r with
  | Some (item, _) =>
      m1 ← TAILQ_REMOVE m slot item;
      m2 ← free m1 item;
      Done (m2, Ret0)
  | None => Done (m, RetErr ENOENT)
  end.

Arguments ht_remove m hash%_N.

(** [ht_remove_at_iter(iter)].  The function never writes to [*iter]; the
    iterator is returned all the same, to say so in theorems. *)
Definition ht_remove_at_iter (m : ht) (iter : struct_ht_iter) : outcome (ht * struct_ht_iter * rc) :=
  match htit_cursor iter with
  | None => Done (m, iter, RetErr EINVAL)
  | Some c =>
      m1 ← TAILQ_REMOVE m (htit_slot iter) c;
      m2 ← free m1 c;
      Done (m2, iter, Ret0)
  end.

(** [ht_iter(h, iter)] *)
Definition ht_iter (m : ht) : outcome struct_ht_iter :=
  e ← bucket m 0;
  Done (mk_iter 0 (tqh_first e)).

(** The [retry:] loop of [ht_next].  Every pass that does not return adds
    one to [htit_slot]; [n] bounds the passes. *)
Fixpoint ht_next_retry (n : nat) (m : ht) (iter : struct_ht_iter) : outcome (struct_ht_iter * ptr) :=
  if decide (htit_slot iter = ht_nentries m) then Done (iter, NULL)
  else
    match n with
    | 0 => Abort Spin
    | S n' =>
        match htit_cursor iter with
        | None => ht_next_retry n' m (mk_iter (S (htit_slot iter)) None)
        | Some c =>
            item ← load m c;
            match tqe_next item with
            | None => ht_next_retry n' m (mk_iter (S (htit_slot iter)) None)
            | Some nx => Done (mk_iter (htit_slot iter) (Some nx), hti_data item)
            end
        end
    end.

(** [ht_next(iter)].  From a slot [<= ht_nentries] the loop needs at most
    [ht_nentries - htit_slot] passes.  (From a slot past [ht_nentries], which
    no call produces, the C loop would count up to the wrap-around of
    [size_t]; here that is [Spin].) *)
Definition ht_next (m : ht) (iter : struct_ht_iter) : outcome (struct_ht_iter * ptr) :=
  ht_next_retry (ht_nentries m - htit_slot iter) m iter.

(** The inner loop of [ht_destroy]:
    [while ((hi = TAILQ_NEXT(hi, hti_link)) != NULL) TAILQ_REMOVE(..., hi, ...)]. *)
Fixpoint destroy_chain (n : nat) (m : ht) (i : nat) (hi : loc) : outcome ht :=
  match n with
  | 0 => Abort Spin
  | S n' =>
      it ← load m hi;
      match tqe_next it with
      | None => Done m
      | Some nx =>
          m1 ← TAILQ_REMOVE m i nx;
          destroy_chain n' m1 i nx
      end
  end.

(** One pass of the [for] loop of [ht_destroy]. *)
Definition destroy_slot (acc : outcome ht) (i : nat) : outcome ht :=
  m ← acc;
  he ← bucket m i;
  match tqh_first he with
  | None => Done m
  | Some hi => destroy_chain (fuel m) m i hi
  end.

(** [ht_destroy(h)]; [h] says where [*h] lives.  After the loop come
    [free(h->ht_entries)], which releases the array [ht_init] got from
    [l9p_calloc], and [free(h)], which is a valid call only if [h] itself
    came from [malloc].  The table is gone then; what is left of the state is
    the node blocks. *)
Definition ht_destroy (h : storage) (m : ht) : outcome (gmap loc block) :=
  m' ← foldl destroy_slot (Done m) (seq 0 (ht_nentries m));
  match h with
  | Malloced => Done (ht_items m')
  | Embedded => Abort BadFree
  end.

(** ** A caller's loops, for the statements *)

(** [while ((v = ht_next(&iter)) != NULL) <collect v>], at most [n] times. *)
Fixpoint drain (n : nat) (m : ht) (iter : struct_ht_iter) : outcome (list ptr) :=
  match n with
  | 0 => Abort Spin
  | S n' =>
      '(iter', v) ← ht_next m iter;
      if decide (v = NULL) then Done []
      else vs ← drain n' m iter'; Done (v :: vs)
  end.

(** A whole iteration: [ht_iter], then [ht_next] until it returns [NULL]. *)
Definition full_iteration (m : ht) : outcome (list ptr) :=
  iter ← ht_iter m;
  drain (fuel m) m iter.

(** ** The list a chain stands for *)

(** [is_chain σ prev first l]: following [tqe_next] from the pointer [first]
    visits exactly the nodes [l], all live, and ends with [NULL]; each node's
    [tqe_prev] is the address of the cell that points to it, [prev] for the
    first one. *)
Fixpoint is_chain (σ : gmap loc block) (prev : linkp) (first : option loc)
    (l : list loc) : Prop :=
  match l with
  | [] => first = None
  | p :: l' =>
      first = Some p ∧
      ∃ it, σ !! p = Some (Live it) ∧ tqe_prev it = prev ∧
            is_chain σ (LNext p) (tqe_next it) l'
  end.

(** The address of the cell that ends the chain: what [tqh_last] holds. *)
Definition last_link (prev : linkp) (l : list loc) : linkp :=
  match last l with
  | Some q => LNext q
  | None => prev
  end.

Definition hash_at (σ : gmap loc block) (p : loc) : option N :=
  match σ !! p with
  | Some (Live it) => Some (hti_hash it)
  | _ => None
  end.

(** The first node of [l] that carries hash [h]. *)
Fixpoint chain_find (σ : gmap loc block) (l : list loc) (h : N)
  : option (loc * ht_item) :=
  match l with
  | [] => None
  | p :: l' =>
      match σ !! p with
      | Some (Live it) =>
          if decide (hti_hash it = h) then Some (p, it) else chain_find σ l' h
      | _ => None
      end
  end.

(** [p] is met when following [tqe_next] from the pointer [first]. *)
Inductive linked (σ : gmap loc block) : option loc → loc → Prop :=
| linked_here p : linked σ (Some p) p
| linked_next q it p :
    σ !! q = Some (Live it) → linked σ (tqe_next it) p → linked σ (Some q) p.

(** Node [p] is in the chain of bucket [i]. *)
Definition resides (m : ht) (i : nat) (p : loc) : Prop :=
  ∃ e, ht_entries m !! i = Some e ∧ linked (ht_items m) (tqh_first e) p.

(** What one bucket must satisfy: it is a well-linked chain [l], its tail
    pointer is right, every node hashes to this bucket, no hash occurs
    twice. *)
Definition bucket_ok (σ : gmap loc block) (n i : nat) (e : ht_entry)
    (l : list loc) : Prop :=
  is_chain σ (LHead i) (tqh_first e) l ∧
  tqh_last e = last_link (LHead i) l ∧
  (∀ p h, p ∈ l → hash_at σ p = Some h → N.to_nat (h mod N.of_nat n) = i) ∧
  NoDup (hash_at σ <$> l).

(** [rep m ls]: the table [m] holds the chains [ls], bucket by bucket. *)
Definition rep (m : ht) (ls : list (list loc)) : Prop :=
  length (ht_entries m) = ht_nentries m ∧
  length ls = ht_nentries m ∧
  ∀ i e l, ht_entries m !! i = Some e → ls !! i = Some l →
           bucket_ok (ht_items m) (ht_nentries m) i e l.

(** Link fields aside, a block: its state and, if live, hash and value. *)
Definition erase (b : block) : block :=
  match b with
  | Live it => Live (mk_item (hti_hash it) (hti_data it) None LNull)
  | Freed => Freed
  end.

(** Two heaps that differ in link fields only. *)
Definition same_payload (σ σ' : gmap loc block) : Prop :=
  ∀ q, erase <$> σ' !! q = erase <$> σ !! q.

(** What an iterator must satisfy: it is not past the last bucket, at the
    end it has no cursor, and a cursor is a node that was freed or a node of
    the chain of its slot. *)
Definition iter_ok (m : ht) (ls : list (list loc)) (it : struct_ht_iter) : Prop :=
  htit_slot it ≤ ht_nentries m ∧
  (htit_slot it = ht_nentries m → htit_cursor it = None) ∧
  ∀ c, htit_cursor it = Some c →
       ht_items m !! c = Some Freed ∨
       ∃ l, ls !! htit_slot it = Some l ∧ c ∈ l.

(** ** Runs of the interface *)

(** A table and the iterators begun on it. *)
Definition config : Type := ht * list struct_ht_iter.

(** One call.  [ht_add] gets the address the allocator picks, one it has not
    handed out before.  [ht_iter] adds an iterator to the pool, [ht_next] and
    [ht_remove_at_iter] work on the [k]-th one. *)
Inductive step : config → config → Prop :=
| step_add m its hash value p m' r :
    ht_items m !! p = None →
    ht_add m hash value p = Done (m', r) →
    step (m, its) (m', its)
| step_remove m its hash m' r :
    ht_remove m hash = Done (m', r) →
    step (m, its) (m', its)
| step_iter m its it :
    ht_iter m = Done it →
    step (m, its) (m, its ++ [it])
| step_next m its k it it' v :
    its !! k = Some it →
    ht_next m it = Done (it', v) →
    step (m, its) (m, <[k := it']> its)
| step_remove_at_iter m its k it m' it' r :
    its !! k = Some it →
    ht_remove_at_iter m it = Done (m', it', r) →
    step (m, its) (m', <[k := it']> its).

(** The configurations a program gets to from [ht_init(h, n)]. *)
Definition reachable (n : nat) (c : config) : Prop :=
  rtc step (ht_init n, []) c.

(** The invariant of the runs. *)
Definition inv (c : config) : Prop :=
  ∃ ls, rep c.1 ls ∧ Forall (iter_ok c.1 ls) c.2.

(** The same calls as a program: [exec] runs one call on a configuration,
    [run] a list of them.  [None] is a run that stops in a fault, or an
    address the allocator could not have picked. *)
Inductive op :=
| OpAdd (hash : N) (value : ptr) (p : loc)
| OpRemove (hash : N)
| OpIter
| OpNext (k : nat)
| OpRemoveAtIter (k : nat).

Arguments OpAdd (hash value)%_N p%_positive.
Arguments OpRemove hash%_N.

Definition exec (c : config) (o : op) : option config :=
  match o with
  | OpAdd hash value p =>
      match ht_items c.1 !! p, ht_add c.1 hash value p with
      | None, Done (m', _) => Some (m', c.2)
      | _, _ => None
      end
  | OpRemove hash =>
      match ht_remove c.1 hash with
      | Done (m', _) => Some (m', c.2)
      | Abort _ => None
      end
  | OpIter =>
      match ht_iter c.1 with
      | Done it => Some (c.1, c.2 ++ [it])
      | Abort _ => None
      end
  | OpNext k =>
      match c.2 !! k with
      | Some it =>
          match ht_next c.1 it with
          | Done (it', _) => Some (c.1, <[k := it']> c.2)
          | Abort _ => None
          end
      | None => None
      end
  | OpRemoveAtIter k =>
      match c.2 !! k with
      | Some it =>
          match ht_remove_at_iter c.1 it with
          | Done (m', it', _) => Some (m', <[k := it']> c.2)
          | Abort _ => None
          end
      | None => None
      end
  end.

Fixpoint run (c : config) (ops : list op) : option config :=
  match ops with
  | [] => Some c
  | o :: ops' =>
      match exec c o with
      | Some c' => run c' ops'
      | None => None
      end
  end.

(** The table [ht_init(h, n)] followed by the calls [ops] leaves; if the
    run fails, the empty table. *)
Definition table_after (n : nat) (ops : list op) : ht :=
  match run (ht_init n, []) ops with
  | Some c => c.1
  | None => ht_init n
  end.

(** ** Entries *)

(** Hash [h] is in the table with value [v]: a live node of some chain
    carries them. *)
Definition stored (m : ht) (h : N) (v : ptr) : Prop :=
  ∃ i p it, resides m i p ∧ ht_items m !! p = Some (Live it) ∧
            hti_hash it = h ∧ hti_data it = v.

Definition absent (m : ht) (h : N) : Prop := ∀ v, ¬ stored m h v.

(** The number of node blocks that are still allocated. *)
Definition live_count (σ : gmap loc block) : nat :=
  length (filter (λ kv, kv.2 ≠ Freed) (map_to_list σ)).

(** Every live node is in some chain. *)
Definition all_linked (m : ht) : Prop :=
  ∀ p it, ht_items m !! p = Some (Live it) → ∃ i, resides m i p.

(** ** Values along a chain *)

(** The value the node at [p] carries ([NULL] if there is no live node). *)
Definition data_at (σ : gmap loc block) (p : loc) : ptr :=
  match σ !! p with
  | Some (Live it) => hti_data it
  | _ => NULL
  end.

(** The values before the first [NULL]: what a caller's
    [while ((v = ht_next(&iter)) != NULL)] loop gets to see of them. *)
Fixpoint until_null (vs : list ptr) : list ptr :=
  match vs with
  | [] => []
  | v :: vs' => if decide (v = NULL) then [] else v :: until_null vs'
  end.

(** ** Sample runs *)

(** Sample runs for the statements below: a table of four buckets with the
    hashes 1, 5, 9 (bucket 1) and 2 (bucket 2), and one iterator on it. *)
Definition sample_ops : list op :=
  [OpAdd 1 11 1; OpAdd 5 15 2; OpAdd 9 19 3; OpAdd 2 12 4; OpIter].

Definition sample : config :=
  match run (ht_init 4, []) sample_ops with
  | Some c => c
  | None => (ht_init 4, [])
  end.

(** A second sample: hashes 0, 4, 8 share bucket 0, hash 1 is in bucket 1;
    the iterator has been stepped once, so its cursor is the node of 4. *)
Definition sample2_ops : list op :=
  [OpAdd 0 10 1; OpAdd 4 14 2; OpAdd 8 18 3; OpAdd 1 11 4; OpIter; OpNext 0].

Definition sample2 : config :=
  match run (ht_init 4, []) sample2_ops with
  | Some c => c
  | None => (ht_init 4, [])
  end.

(** A third sample: hashes 0 and 4 in bucket 0 and an iterator that has just
    been begun. *)
Definition sample3_ops : list op := [OpAdd 0 10 1; OpAdd 4 14 2; OpIter].

Definition sample3 : config :=
  match run (ht_init 4, []) sample3_ops with
  | Some c => c
  | None => (ht_init 4, [])
  end.

(** A fourth sample: hashes 0 and 4 in bucket 0, an iterator stepped once,
    and [ht_remove_at_iter] on it.  The node of hash 4, at address 2, has
    been freed, and the iterator still has it as its cursor. *)
Definition stale_ops : list op :=
  [OpAdd 0 10 1; OpAdd 4 14 2; OpIter; OpNext 0; OpRemoveAtIter 0].

Definition stale : config :=
  match run (ht_init 4, []) stale_ops with
  | Some c => c
  | None => (ht_init 4, [])
  end.

(** * Proofs *)

(** ** Chains *)

Lemma bind_Done {A B} (x : outcome A) (f : A → outcome B) a :
  x = Done a → x ≫= f = f a.
Proof. by intros ->. Qed.

Lemma bind_Done_inv {A B} (x : outcome A) (f : A → outcome B) b :
  x ≫= f = Done b → ∃ a, x = Done a ∧ f a = Done b.
Proof. destruct x as [a|]; [by exists a | done]. Qed.

Lemma load_Done m p it : load m p = Done it ↔ ht_items m !! p = Some (Live it).
Proof.
  unfold load. destruct (ht_items m !! p) as [[it'|]|] eqn:E; split; intros H;
    try done; congruence.
Qed.

Lemma bucket_Done m i e : bucket m i = Done e ↔ ht_entries m !! i = Some e.
Proof.
  unfold bucket. destruct (ht_entries m !! i) eqn:E; split; intros H;
    try done; congruence.
Qed.

Lemma is_chain_frame σ σ' prev first l :
  (∀ q, q ∈ l → σ' !! q = σ !! q) →
  is_chain σ prev first l → is_chain σ' prev first l.
Proof.
  revert prev first. induction l as [|p l IH]; intros prev first Hq; [done|].
  simpl. intros [-> (it & Hp & Hprev & Hl)]. split; [done|].
  exists it. rewrite Hq by left. split_and!; [done..|].
  apply IH; [|done]. intros q Hin. apply Hq. by right.
Qed.

Lemma is_chain_live σ prev first l p :
  is_chain σ prev first l → p ∈ l → ∃ it, σ !! p = Some (Live it).
Proof.
  revert prev first. induction l as [|a l IH]; intros prev first.
  - intros _ H. by apply elem_of_nil in H.
  - simpl. intros [-> (it & Ha & _ & Hl)] [->|Hin]%elem_of_cons; eauto.
Qed.

Lemma is_chain_first σ prev first l :
  is_chain σ prev first l → first = head l.
Proof. destruct l; simpl; [done | by intros [-> _]]. Qed.

Lemma linked_in_chain σ prev first l p :
  is_chain σ prev first l → linked σ first p → p ∈ l.
Proof.
  intros Hc Hl. revert prev l Hc.
  induction Hl as [p|q it p Hq Hl IH]; intros prev l Hc.
  - destruct l as [|a l]; simpl in Hc; [done|].
    destruct Hc as [[= ->] _]. by left.
  - destruct l as [|a l]; simpl in Hc; [done|].
    destruct Hc as [[= ->] (it' & Ha & _ & Hc)].
    assert (it' = it) as -> by congruence.
    right. by eapply IH.
Qed.

Lemma in_chain_linked σ prev first l p :
  is_chain σ prev first l → p ∈ l → linked σ first p.
Proof.
  revert prev first. induction l as [|a l IH]; intros prev first.
  - intros _ H. by apply elem_of_nil in H.
  - simpl. intros [-> (it & Ha & _ & Hl)] [->|Hin]%elem_of_cons.
    + constructor.
    + eapply linked_next; [done|]. by eapply IH.
Qed.

Lemma hash_at_NoDup σ l : NoDup (hash_at σ <$> l) → NoDup l.
Proof. apply NoDup_fmap_1. Qed.

(** A chain without repetition is no longer than the heap is large. *)
Lemma chain_length σ prev first l :
  is_chain σ prev first l → NoDup l → length l ≤ size σ.
Proof.
  intros Hc Hnd. rewrite <- (size_dom (D := gset loc)).
  apply submseteq_length, NoDup_submseteq; [done|].
  intros p Hp. apply elem_of_elements, elem_of_dom.
  destruct (is_chain_live _ _ _ _ _ Hc Hp) as [it ->]. eauto.
Qed.

Lemma scan_chain n m prev first l h :
  is_chain (ht_items m) prev first l → length l < n →
  scan n m first h = Done (chain_find (ht_items m) l h).
Proof.
  revert prev first l. induction n as [|n IH]; intros prev first l Hc Hlen; [lia|].
  destruct l as [|p l]; simpl in Hc.
  - by subst.
  - destruct Hc as [-> (it & Hp & _ & Hc)]. simpl.
    unfold load. rewrite Hp. simpl.
    destruct (decide (hti_hash it = h)); [done|].
    eapply IH; [done|]. simpl in Hlen. lia.
Qed.

Lemma chain_find_Some σ l h p it :
  chain_find σ l h = Some (p, it) →
  p ∈ l ∧ σ !! p = Some (Live it) ∧ hti_hash it = h.
Proof.
  induction l as [|a l IH]; simpl; [done|].
  destruct (σ !! a) as [[ita|]|] eqn:Ha; [|done..].
  destruct (decide (hti_hash ita = h)).
  - intros [= -> ->]. split; [by left|done].
  - intros (?&?&?)%IH. split; [by right|done].
Qed.

Lemma chain_find_None σ l h p it :
  chain_find σ l h = None → (∀ q, q ∈ l → is_Some (hash_at σ q)) →
  p ∈ l → σ !! p = Some (Live it) → hti_hash it ≠ h.
Proof.
  induction l as [|a l IH]; simpl.
  - intros _ _ H. by apply elem_of_nil in H.
  - intros Hf Hlive Hin Hp.
    assert (is_Some (hash_at σ a)) as [ha Hha] by (apply Hlive; by left).
    unfold hash_at in Hha.
    destruct (σ !! a) as [[ita|]|] eqn:Ha; [|done..].
    destruct (decide (hti_hash ita = h)); [done|].
    apply elem_of_cons in Hin as [->|Hin].
    + congruence.
    + apply IH; [done| |done..]. intros q Hq. apply Hlive. by right.
Qed.

Lemma is_chain_hash_at σ prev first l q :
  is_chain σ prev first l → q ∈ l → is_Some (hash_at σ q).
Proof.
  intros Hc Hq. destruct (is_chain_live _ _ _ _ _ Hc Hq) as [it Hit].
  unfold hash_at. rewrite Hit. eauto.
Qed.

(** In a chain without repeated hashes the node found for the hash of [p]
    is [p]. *)
Lemma chain_find_self σ l p it :
  (∀ q, q ∈ l → is_Some (hash_at σ q)) →
  NoDup (hash_at σ <$> l) → p ∈ l → σ !! p = Some (Live it) →
  chain_find σ l (hti_hash it) = Some (p, it).
Proof.
  induction l as [|a l IH]; simpl.
  - intros _ _ H. by apply elem_of_nil in H.
  - intros Hlive [Hna Hnd]%NoDup_cons [->|Hin]%elem_of_cons Hp.
    + rewrite Hp. by rewrite decide_True.
    + assert (is_Some (hash_at σ a)) as [ha Hha] by (apply Hlive; by left).
      unfold hash_at in Hha.
      destruct (σ !! a) as [[ita|]|] eqn:Ha; [|done..].
      destruct (decide (hti_hash ita = hti_hash it)) as [Heq|].
      * exfalso. apply Hna. apply list_elem_of_fmap. exists p. split; [|done].
        unfold hash_at. rewrite Ha, Hp. by rewrite Heq.
      * apply IH; [|done..]. intros q Hq. apply Hlive. by right.
Qed.

(** ** The table predicate *)

Lemma rep_slot_lt m h :
  ht_nentries m ≠ 0 → N.to_nat (h mod N.of_nat (ht_nentries m)) < ht_nentries m.
Proof.
  intros Hn. pose proof (N.mod_upper_bound h (N.of_nat (ht_nentries m))). lia.
Qed.

Lemma rep_lookup m ls i :
  rep m ls → i < ht_nentries m →
  ∃ e l, ht_entries m !! i = Some e ∧ ls !! i = Some l ∧
         bucket_ok (ht_items m) (ht_nentries m) i e l.
Proof.
  intros (He & Hl & Hb) Hi.
  destruct (lookup_lt_is_Some_2 (ht_entries m) i) as [e Hei]; [lia|].
  destruct (lookup_lt_is_Some_2 ls i) as [l Hli]; [lia|].
  exists e, l. eauto.
Qed.

Lemma rep_bucket_len m ls i e l :
  rep m ls → ht_entries m !! i = Some e → ls !! i = Some l →
  length l < fuel m.
Proof.
  intros (_ & _ & Hb) He Hl. destruct (Hb _ _ _ He Hl) as (Hc & _ & _ & Hnd).
  unfold fuel. apply hash_at_NoDup in Hnd.
  pose proof (chain_length _ _ _ _ Hc Hnd). lia.
Qed.

(** A node belongs to one chain only: its hash names the bucket. *)
Lemma rep_disjoint m ls i j li lj p :
  rep m ls → ls !! i = Some li → ls !! j = Some lj →
  p ∈ li → p ∈ lj → i = j.
Proof.
  intros Hrep Hi Hj Hpi Hpj.
  destruct Hrep as (He & Hl & Hb).
  destruct (lookup_lt_is_Some_2 (ht_entries m) i) as [ei Hei].
  { apply lookup_lt_Some in Hi. lia. }
  destruct (lookup_lt_is_Some_2 (ht_entries m) j) as [ej Hej].
  { apply lookup_lt_Some in Hj. lia. }
  destruct (Hb _ _ _ Hei Hi) as (Hci & _ & Hsi & _).
  destruct (Hb _ _ _ Hej Hj) as (Hcj & _ & Hsj & _).
  destruct (is_chain_hash_at _ _ _ _ _ Hci Hpi) as [h Hh].
  rewrite <- (Hsi _ _ Hpi Hh). by apply (Hsj _ _ Hpj Hh).
Qed.

(** What the three scanning functions see in a table that holds [ls]. *)
Lemma rep_scan m ls h :
  rep m ls → ht_nentries m ≠ 0 →
  ∃ i e l, slot_of m h = Done i ∧ bucket m i = Done e ∧
           i = N.to_nat (h mod N.of_nat (ht_nentries m)) ∧
           ht_entries m !! i = Some e ∧ ls !! i = Some l ∧
           bucket_ok (ht_items m) (ht_nentries m) i e l ∧
           scan (fuel m) m (tqh_first e) h = Done (chain_find (ht_items m) l h).
Proof.
  intros Hrep Hn.
  destruct (rep_lookup m ls _ Hrep (rep_slot_lt m h Hn)) as (e & l & He & Hl & Hb).
  eexists _, e, l. split_and!; try done.
  - unfold slot_of. by rewrite decide_False.
  - by apply bucket_Done.
  - destruct Hb as (Hc & _). eapply scan_chain; [done|].
    by eapply rep_bucket_len.
Qed.

Lemma hash_at_Live σ p it : σ !! p = Some (Live it) → hash_at σ p = Some (hti_hash it).
Proof. unfold hash_at. by intros ->. Qed.

Lemma same_payload_hash_at σ σ' q :
  erase <$> σ' !! q = erase <$> σ !! q → hash_at σ' q = hash_at σ q.
Proof.
  unfold hash_at. destruct (σ' !! q) as [[a|]|], (σ !! q) as [[b|]|]; simpl;
    intros [=]; congruence.
Qed.

Lemma same_payload_refl σ : same_payload σ σ.
Proof. by intros q. Qed.

Lemma same_payload_trans σ1 σ2 σ3 :
  same_payload σ1 σ2 → same_payload σ2 σ3 → same_payload σ1 σ3.
Proof. intros H1 H2 q. by rewrite H2, H1. Qed.

Lemma same_payload_Freed σ σ' q :
  same_payload σ σ' → σ !! q = Some Freed → σ' !! q = Some Freed.
Proof.
  intros H Hq. specialize (H q). rewrite Hq in H.
  destruct (σ' !! q) as [[a|]|]; simpl in H; congruence.
Qed.

Lemma same_payload_Live σ σ' q it :
  same_payload σ σ' → σ !! q = Some (Live it) →
  ∃ it', σ' !! q = Some (Live it') ∧ hti_hash it' = hti_hash it ∧
         hti_data it' = hti_data it.
Proof.
  intros H Hq. specialize (H q). rewrite Hq in H.
  destruct (σ' !! q) as [[a|]|]; simpl in H; [|done..].
  exists a. split; [done|]. by injection H.
Qed.

Lemma same_payload_None σ σ' q :
  same_payload σ σ' → σ !! q = None → σ' !! q = None.
Proof.
  intros H Hq. specialize (H q). rewrite Hq in H.
  by destruct (σ' !! q) as [[a|]|].
Qed.

(** The part of [bucket_ok] about hashes reads the heap through [hash_at]
    only. *)
Lemma bucket_ok_frame σ σ' n i e l :
  (∀ q, q ∈ l → σ' !! q = σ !! q) →
  bucket_ok σ n i e l → bucket_ok σ' n i e l.
Proof.
  intros Hq (Hc & Hlast & Hslot & Hnd).
  assert (∀ q, q ∈ l → hash_at σ' q = hash_at σ q) as Hh.
  { intros q Hin. unfold hash_at. by rewrite Hq. }
  split_and!; [by eapply is_chain_frame|done| |].
  - intros p h Hin. rewrite Hh by done. by apply Hslot.
  - erewrite list_fmap_ext; [exact Hnd|]. intros k q Hk. apply Hh.
    by eapply list_elem_of_lookup_2.
Qed.

Lemma is_chain_snoc σ σ' prev first l q itq p itp :
  is_chain σ prev first l → NoDup l → p ∉ l →
  last l = Some q → σ !! q = Some (Live itq) →
  σ' !! q = Some (Live (mk_item (hti_hash itq) (hti_data itq) (Some p) (tqe_prev itq))) →
  σ' !! p = Some (Live itp) → tqe_next itp = None → tqe_prev itp = LNext q →
  (∀ r, r ≠ p → r ≠ q → σ' !! r = σ !! r) →
  is_chain σ' prev first (l ++ [p]).
Proof.
  intros Hc Hnd Hp Hlast Hq Hq' Hp' Hnext Hprev Hframe.
  revert prev first Hc Hnd Hp Hlast.
  induction l as [|a l IH]; intros prev first Hc Hnd Hp Hlast; [done|].
  simpl in Hc. destruct Hc as [-> (ita & Ha & Hpa & Hc)].
  apply NoDup_cons in Hnd as [Hal Hnd].
  apply not_elem_of_cons in Hp as [Hpa' Hpl].
  destruct l as [|b l].
  - injection Hlast as ->. assert (ita = itq) as -> by congruence.
    simpl. split; [done|]. eexists. split; [exact Hq'|]. simpl. split; [done|].
    split; [done|]. exists itp. by rewrite Hnext.
  - rewrite last_cons_cons in Hlast.
    assert (a ≠ q).
    { intros ->. apply Hal. by apply last_Some_elem_of. }
    change ((a :: b :: l) ++ [p]) with (a :: ((b :: l) ++ [p])).
    split; [done|]. exists ita. rewrite Hframe by done.
    split_and!; [done..|]. by apply IH.
Qed.

Lemma bucket_store m p it i : bucket (store m p it) i = bucket m i.
Proof. done. Qed.
Lemma load_set_bucket m i e p : load (set_bucket m i e) p = load m p.
Proof. done. Qed.
Lemma bucket_set_bucket m i e :
  i < length (ht_entries m) → bucket (set_bucket m i e) i = Done e.
Proof. intros. unfold bucket, set_bucket; simpl. by rewrite list_lookup_insert_eq. Qed.
Lemma load_store m p it : load (store m p it) p = Done it.
Proof. unfold load, store; simpl. by rewrite lookup_insert_eq. Qed.
Lemma load_store_ne m p q it : p ≠ q → load (store m p it) q = load m q.
Proof. intros. unfold load, store; simpl. by rewrite lookup_insert_ne. Qed.

Lemma insert_tail_rep m ls i e l p itp :
  rep m ls → ht_entries m !! i = Some e → ls !! i = Some l →
  ht_items m !! p = Some (Live itp) →
  (∀ j lj, ls !! j = Some lj → p ∉ lj) →
  N.to_nat (hti_hash itp mod N.of_nat (ht_nentries m)) = i →
  Some (hti_hash itp) ∉ hash_at (ht_items m) <$> l →
  ∃ m', TAILQ_INSERT_TAIL m i p = Done m' ∧ rep m' (<[i := l ++ [p]]> ls) ∧
        same_payload (ht_items m) (ht_items m') ∧ ht_nentries m' = ht_nentries m.
Proof.
  intros Hrep He Hl Hp Hfresh Hslot Hnew.
  pose proof Hrep as (Hlen & Hlen' & Hb).
  destruct (Hb _ _ _ He Hl) as (Hc & Hlast & Hsl & Hnd).
  assert (p ∉ l) as Hpl by eauto.
  assert (i < length (ht_entries m)) as Hi by (by eapply lookup_lt_Some).
  assert (bucket m i = Done e) as Hbk by (by apply bucket_Done).
  unfold TAILQ_INSERT_TAIL.
  rewrite (bind_Done _ _ itp) by (by apply load_Done).
  rewrite (bind_Done _ _ e) by done.
  cbv zeta. rewrite Hlast. unfold last_link.
  destruct (last l) as [q|] eqn:Hq.
  - assert (q ∈ l) as Hql by (by apply last_Some_elem_of).
    destruct (is_chain_live _ _ _ _ _ Hc Hql) as [itq Hitq].
    assert (q ≠ p) as Hqp by (intros ->; done).
    unfold store_link.
    rewrite load_store_ne by done.
    rewrite (bind_Done _ _ itq) by (by apply load_Done).
    simpl. rewrite !bucket_store, Hbk. simpl.
    eexists. split; [done|]. unfold set_bucket, store; simpl.
    split_and!; [| |done].
    + split_and!; simpl.
      * by rewrite length_insert.
      * by rewrite length_insert.
      * intros j ej lj. destruct (decide (j = i)) as [->|Hne].
        -- rewrite !list_lookup_insert_eq by (done || lia).
           intros [= <-] [= <-].
           assert (∀ r, r ∈ l → hash_at (<[q:=Live
                {| hti_hash := hti_hash itq; hti_data := hti_data itq;
                   tqe_next := Some p; tqe_prev := tqe_prev itq |}]>
                (<[p:=Live {| hti_hash := hti_hash itp; hti_data := hti_data itp;
                    tqe_next := None; tqe_prev := LNext q |}]> (ht_items m))) r
                     = hash_at (ht_items m) r) as Hh.
           { intros r Hr. unfold hash_at. destruct (decide (r = q)) as [->|].
             - by rewrite lookup_insert_eq, Hitq.
             - rewrite lookup_insert_ne by done.
               rewrite lookup_insert_ne; [done|]. intros ->. done. }
           split_and!; simpl.
           ++ eapply (is_chain_snoc _ _ _ _ _ q itq p); try done.
              ** by apply hash_at_NoDup in Hnd.
              ** by rewrite lookup_insert_eq.
              ** rewrite lookup_insert_ne by done. by rewrite lookup_insert_eq.
              ** done.
              ** done.
              ** intros r ? ?. by rewrite !lookup_insert_ne.
           ++ unfold last_link. by rewrite last_snoc.
           ++ intros r h [Hr|Hr]%elem_of_app; [|apply list_elem_of_singleton in Hr as ->].
              ** rewrite Hh by done. by apply Hsl.
              ** unfold hash_at. rewrite lookup_insert_ne by done.
                 rewrite lookup_insert_eq. simpl. by intros [= <-].
           ++ rewrite fmap_app. apply NoDup_app. split_and!.
              ** erewrite list_fmap_ext; [exact Hnd|]. intros k r Hk. apply Hh.
                 by eapply list_elem_of_lookup_2.
              ** intros x Hx. simpl. intros Hx'. apply list_elem_of_singleton in Hx' as ->.
                 apply Hnew. apply list_elem_of_fmap in Hx as (r & Hr1 & Hr2).
                 apply list_elem_of_fmap. exists r. split; [|done].
                 rewrite <- Hh by done. rewrite <- Hr1.
                 unfold hash_at. rewrite lookup_insert_ne by done.
                 by rewrite lookup_insert_eq.
              ** apply NoDup_singleton.
        -- rewrite !list_lookup_insert_ne by done. intros Hej Hlj.
           eapply bucket_ok_frame; [|by eapply Hb].
           intros r Hr. rewrite !lookup_insert_ne; [done| |].
           ++ intros ->. by eapply Hfresh.
           ++ intros ->. apply Hne. by eapply (rep_disjoint m ls j i lj l r).
    + intros r. destruct (decide (r = q)) as [->|].
      * by rewrite lookup_insert_eq, Hitq.
      * rewrite lookup_insert_ne by done. destruct (decide (r = p)) as [->|].
        -- by rewrite lookup_insert_eq, Hp.
        -- by rewrite lookup_insert_ne.
  - apply last_None in Hq. subst l. unfold store_link.
    rewrite bucket_store, Hbk. simpl.
    rewrite bucket_set_bucket by done. simpl.
    eexists. split; [done|]. unfold set_bucket, store; simpl.
    rewrite list_insert_insert_eq.
    split_and!; [| |done].
    + split_and!; simpl.
      * by rewrite length_insert.
      * by rewrite length_insert.
      * intros j ej lj. destruct (decide (j = i)) as [->|Hne].
        -- rewrite !list_lookup_insert_eq by (done || lia).
           intros [= <-] [= <-]. split_and!; simpl.
           ++ split; [done|]. eexists. rewrite lookup_insert_eq. done.
           ++ done.
           ++ intros p' h [->|[]%elem_of_nil]%elem_of_cons.
              unfold hash_at. rewrite lookup_insert_eq. simpl. by intros [= <-].
           ++ apply NoDup_singleton.
        -- rewrite !list_lookup_insert_ne by done. intros Hej Hlj.
           eapply bucket_ok_frame; [|by eapply Hb].
           intros r Hr. rewrite lookup_insert_ne; [done|].
           intros ->. by eapply Hfresh.
    + intros r. destruct (decide (r = p)) as [->|].
      * rewrite lookup_insert_eq, Hp. done.
      * by rewrite lookup_insert_ne.
Qed.

Lemma is_chain_mid σ prev first l1 p l2 itp :
  is_chain σ prev first (l1 ++ p :: l2) → σ !! p = Some (Live itp) →
  tqe_prev itp = last_link prev l1 ∧ tqe_next itp = head l2.
Proof.
  revert prev first. induction l1 as [|a l1 IH]; intros prev first; simpl.
  - intros [-> (it & Hp & Hprev & Hc)] Hp'. assert (it = itp) as -> by congruence.
    split; [done|]. by eapply is_chain_first.
  - intros [-> (ita & Ha & Hprev & Hc)] Hp'.
    destruct (IH _ _ Hc Hp') as [-> ?]. split; [|done].
    unfold last_link. destruct l1 as [|b l1]; [done|]. rewrite last_cons_cons.
    destruct (last (b :: l1)) eqn:E; [done|]. by apply last_None in E.
Qed.

Lemma is_chain_remove σ σ' prev first l1 p l2 itp :
  is_chain σ prev first (l1 ++ p :: l2) → NoDup (l1 ++ p :: l2) →
  σ !! p = Some (Live itp) →
  (∀ r itr, head l2 = Some r → σ !! r = Some (Live itr) →
     σ' !! r = Some (Live (mk_item (hti_hash itr) (hti_data itr) (tqe_next itr) (tqe_prev itp)))) →
  (∀ a ita, last l1 = Some a → σ !! a = Some (Live ita) →
     σ' !! a = Some (Live (mk_item (hti_hash ita) (hti_data ita) (tqe_next itp) (tqe_prev ita)))) →
  (∀ q, q ∈ l1 ++ l2 → head l2 ≠ Some q → last l1 ≠ Some q → σ' !! q = σ !! q) →
  is_chain σ' prev (if l1 is [] then tqe_next itp else first) (l1 ++ l2).
Proof.
  intros Hc Hnd Hp HA HB HC. revert prev first Hc Hnd HB HC.
  induction l1 as [|a l1 IH]; intros prev first Hc Hnd HB HC.
  - simpl in *. destruct Hc as [-> (it & Hp' & Hprev & Hc)].
    assert (it = itp) as -> by congruence.
    apply NoDup_cons in Hnd as [Hpl Hnd].
    destruct l2 as [|r l2]; simpl in *; [done|].
    destruct Hc as [Hnext (itr & Hr & Hrp & Hc)].
    split; [done|]. eexists. split; [by apply HA|]. simpl.
    split; [done|]. eapply is_chain_frame; [|done].
    intros q Hq. apply HC; [by right| |done].
    intros [= ->]. by apply NoDup_cons in Hnd as [? _].
  - simpl in Hc. destruct Hc as [-> (ita & Ha & Hprev & Hc)].
    change ((a :: l1) ++ p :: l2) with (a :: (l1 ++ p :: l2)) in Hnd.
    apply NoDup_cons in Hnd as [Hal Hnd].
    change ((a :: l1) ++ l2) with (a :: (l1 ++ l2)).
    assert ((a ∉ l1) ∧ (a ∉ l2)) as [Hal1 Hal2].
    { split; intros ?; apply Hal; apply elem_of_app; [by left|right; by right]. }
    specialize (IH (LNext a) (tqe_next ita) Hc Hnd).
    split; [done|]. destruct l1 as [|b l1].
    + eexists. split; [by apply HB|]. simpl. split; [done|].
      apply IH; [done|]. intros q Hq Hh _. apply HC; [by right|done|].
      simpl. intros [= ->]. done.
    + exists ita. rewrite HC.
      * split_and!; [done..|]. apply IH.
        -- intros a' ita'. rewrite last_cons_cons in HB. apply HB.
        -- intros q Hq Hh Hl. apply HC; [by right|done|].
           by rewrite last_cons_cons.
      * by left.
      * intros Hh. apply Hal2. by apply head_Some_elem_of.
      * rewrite last_cons_cons. intros Hl. apply Hal1. by apply last_Some_elem_of.
Qed.

Lemma last_link_app_cons prev l1 x l2 :
  last_link prev (l1 ++ x :: l2) = last_link (LNext x) l2.
Proof.
  unfold last_link. rewrite last_app. simpl.
  destruct l2 as [|y l2]; [done|]. rewrite last_cons_cons.
  destruct (last (y :: l2)) eqn:E; [done|]. by apply last_None in E.
Qed.

Lemma rep_remove_pointwise m m' ls i e l1 p l2 itp :
  rep m ls → ht_entries m !! i = Some e → ls !! i = Some (l1 ++ p :: l2) →
  ht_items m !! p = Some (Live itp) →
  ht_nentries m' = ht_nentries m →
  ht_entries m' =
    <[i := mk_entry (if l1 is [] then tqe_next itp else tqh_first e)
                    (if l2 is [] then tqe_prev itp else tqh_last e)]> (ht_entries m) →
  (∀ r itr, head l2 = Some r → ht_items m !! r = Some (Live itr) →
     ht_items m' !! r =
       Some (Live (mk_item (hti_hash itr) (hti_data itr) (tqe_next itr) (tqe_prev itp)))) →
  (∀ a ita, last l1 = Some a → ht_items m !! a = Some (Live ita) →
     ht_items m' !! a =
       Some (Live (mk_item (hti_hash ita) (hti_data ita) (tqe_next itp) (tqe_prev ita)))) →
  (∀ q, head l2 ≠ Some q → last l1 ≠ Some q → ht_items m' !! q = ht_items m !! q) →
  rep m' (<[i := l1 ++ l2]> ls) ∧ same_payload (ht_items m) (ht_items m').
Proof.
  intros Hrep He Hl Hp Hn Hent HA HB HC.
  pose proof Hrep as (Hlen & Hlen' & Hb).
  destruct (Hb _ _ _ He Hl) as (Hc & Hlast & Hsl & Hnd).
  assert (i < length (ht_entries m)) as Hi by (by eapply lookup_lt_Some).
  pose proof (hash_at_NoDup _ _ Hnd) as Hnd'.
  destruct (is_chain_mid _ _ _ _ _ _ _ Hc Hp) as [Hprev Hnext].
  assert (same_payload (ht_items m) (ht_items m')) as Hsame.
  { intros q. destruct (decide (head l2 = Some q)) as [Hq|Hq1].
    - assert (q ∈ l1 ++ p :: l2) as Hin.
      { apply elem_of_app. right. right. by apply head_Some_elem_of. }
      destruct (is_chain_live _ _ _ _ _ Hc Hin) as [itq Hitq].
      by rewrite (HA _ _ Hq Hitq), Hitq.
    - destruct (decide (last l1 = Some q)) as [Hq|Hq2].
      + assert (q ∈ l1 ++ p :: l2) as Hin.
        { apply elem_of_app. left. by apply last_Some_elem_of. }
        destruct (is_chain_live _ _ _ _ _ Hc Hin) as [itq Hitq].
        by rewrite (HB _ _ Hq Hitq), Hitq.
      + by rewrite HC. }
  split; [|done]. split_and!.
  - by rewrite Hent, length_insert, Hn.
  - by rewrite length_insert, Hn.
  - rewrite Hent, Hn. intros j ej lj. destruct (decide (j = i)) as [->|Hne].
    + rewrite !list_lookup_insert_eq by (done || lia).
      intros [= <-] [= <-]. split_and!; simpl.
      * eapply is_chain_remove; try done.
        intros q _. apply HC.
      * destruct l2 as [|r l2].
        -- by rewrite app_nil_r.
        -- rewrite Hlast. rewrite !last_link_app_cons. apply (last_link_app_cons _ [] r).
      * intros q h Hq. rewrite (same_payload_hash_at (ht_items m)) by apply Hsame.
        apply Hsl. apply elem_of_app in Hq as [?|?]; apply elem_of_app;
          [by left|right; by right].
      * assert (hash_at (ht_items m') <$> l1 ++ l2 =
                hash_at (ht_items m) <$> l1 ++ l2) as ->.
        { apply list_fmap_ext. intros k q _. apply same_payload_hash_at, Hsame. }
        eapply sublist_NoDup; [exact Hnd|]. apply fmap_sublist.
        apply sublist_app; [done|]. by apply sublist_cons.
    + rewrite !list_lookup_insert_ne by done. intros Hej Hlj.
      eapply bucket_ok_frame; [|by eapply Hb].
      intros q Hq. apply HC.
      * intros Hh. apply Hne. eapply (rep_disjoint m ls j i lj _ q); try done.
        apply elem_of_app. right. right. by apply head_Some_elem_of.
      * intros Hh. apply Hne. eapply (rep_disjoint m ls j i lj _ q); try done.
        apply elem_of_app. left. by apply last_Some_elem_of.
Qed.

Lemma remove_rep m ls i e l1 p l2 :
  rep m ls → ht_entries m !! i = Some e → ls !! i = Some (l1 ++ p :: l2) →
  ∃ m', TAILQ_REMOVE m i p = Done m' ∧ rep m' (<[i := l1 ++ l2]> ls) ∧
        same_payload (ht_items m) (ht_items m') ∧
        ht_items m' !! p = ht_items m !! p ∧
        ht_nentries m' = ht_nentries m.
Proof.
  intros Hrep He Hl.
  pose proof Hrep as (Hlen & Hlen' & Hb).
  destruct (Hb _ _ _ He Hl) as (Hc & Hlast & Hsl & Hnd).
  assert (i < length (ht_entries m)) as Hi by (by eapply lookup_lt_Some).
  assert (bucket m i = Done e) as Hbk by (by apply bucket_Done).
  pose proof (hash_at_NoDup _ _ Hnd) as Hnd'.
  assert (p ∈ l1 ++ p :: l2) as Hpin by (apply elem_of_app; right; by left).
  destruct (is_chain_live _ _ _ _ _ Hc Hpin) as [itp Hp].
  destruct (is_chain_mid _ _ _ _ _ _ _ Hc Hp) as [Hprev Hnext].
  apply NoDup_app in Hnd' as (Hnd1 & Hnd12 & [Hpl2 Hnd2]%NoDup_cons).
  assert (p ∉ l1) as Hpl1.
  { intros Hin. apply (Hnd12 _ Hin). by left. }
  assert (head l2 ≠ Some p) as Hhp.
  { intros Hh. by apply Hpl2, head_Some_elem_of. }
  assert (last l1 ≠ Some p) as Hlp.
  { intros Hh. by apply Hpl1, last_Some_elem_of. }
  enough (∃ m', TAILQ_REMOVE m i p = Done m' ∧
     ht_nentries m' = ht_nentries m ∧
     ht_entries m' =
       <[i := mk_entry (if l1 is [] then tqe_next itp else tqh_first e)
                       (if l2 is [] then tqe_prev itp else tqh_last e)]> (ht_entries m) ∧
     (∀ r itr, head l2 = Some r → ht_items m !! r = Some (Live itr) →
        ht_items m' !! r =
          Some (Live (mk_item (hti_hash itr) (hti_data itr) (tqe_next itr) (tqe_prev itp)))) ∧
     (∀ a ita, last l1 = Some a → ht_items m !! a = Some (Live ita) →
        ht_items m' !! a =
          Some (Live (mk_item (hti_hash ita) (hti_data ita) (tqe_next itp) (tqe_prev ita)))) ∧
     (∀ q, head l2 ≠ Some q → last l1 ≠ Some q → ht_items m' !! q = ht_items m !! q))
    as (m' & Hrm & Hn & Hent & HA & HB & HC).
  { exists m'. split; [done|].
    destruct (rep_remove_pointwise m m' ls i e l1 p l2 itp) as [? ?]; try done.
    split_and!; try done. by apply HC. }
  unfold TAILQ_REMOVE. rewrite (bind_Done _ _ itp) by (by apply load_Done).
  rewrite Hprev, Hnext.
  destruct l2 as [|r l2]; cbn [head].
  - rewrite Hbk. simpl. destruct l1 as [|a0 l1].
    + change (last_link (LHead i) []) with (LHead i).
      unfold store_link. rewrite bucket_set_bucket by done. simpl.
      eexists. split; [done|]. unfold set_bucket; simpl.
      rewrite list_insert_insert_eq.
      split_and!; try done.
    + destruct (last (a0 :: l1)) as [a|] eqn:Hla; [|by apply last_None in Hla].
      assert (last_link (LHead i) (a0 :: l1) = LNext a) as ->.
      { unfold last_link. by rewrite Hla. }
      assert (a ∈ (a0 :: l1) ++ [p]) as Hain.
      { apply elem_of_app. left. by apply last_Some_elem_of. }
      destruct (is_chain_live _ _ _ _ _ Hc Hain) as [ita Hita].
      unfold store_link. rewrite load_set_bucket.
      rewrite (bind_Done _ _ ita) by (by apply load_Done).
      eexists. split; [done|]. unfold set_bucket, store; simpl.
      split_and!; try done.
      * intros a' ita' [= <-] Hita'. rewrite lookup_insert_eq.
        by replace ita' with ita by congruence.
      * intros q _ Hq. rewrite lookup_insert_ne; [done|]. congruence.
  - assert (r ∈ l1 ++ p :: r :: l2) as Hrin.
    { apply elem_of_app. right. right. by left. }
    destruct (is_chain_live _ _ _ _ _ Hc Hrin) as [itr Hitr].
    rewrite (bind_Done _ _ itr) by (by apply load_Done). simpl.
    destruct l1 as [|a0 l1].
    + change (last_link (LHead i) []) with (LHead i).
      unfold store_link. rewrite bucket_store, Hbk. simpl.
      eexists. split; [done|]. unfold set_bucket, store; simpl.
      split_and!; try done.
      * intros r' itr' [= <-] Hitr'. rewrite lookup_insert_eq.
        by replace itr' with itr by congruence.
      * intros q Hq _. rewrite lookup_insert_ne; [done|]. congruence.
    + destruct (last (a0 :: l1)) as [a|] eqn:Hla; [|by apply last_None in Hla].
      assert (last_link (LHead i) (a0 :: l1) = LNext a) as ->.
      { unfold last_link. by rewrite Hla. }
      assert (a ∈ (a0 :: l1)) as Hain' by (by apply last_Some_elem_of).
      assert (a ∈ (a0 :: l1) ++ p :: r :: l2) as Hain.
      { apply elem_of_app. by left. }
      destruct (is_chain_live _ _ _ _ _ Hc Hain) as [ita Hita].
      assert (r ≠ a) as Hra.
      { intros ->. apply (Hnd12 _ Hain'). right. by left. }
      unfold store_link. rewrite load_store_ne by done.
      rewrite (bind_Done _ _ ita) by (by apply load_Done).
      eexists. split; [done|]. unfold set_bucket, store; simpl.
      split_and!; try done.
      * symmetry. apply list_insert_id. by destruct e.
      * intros r' itr' [= <-] Hitr'. rewrite lookup_insert_ne by done.
        rewrite lookup_insert_eq. by replace itr' with itr by congruence.
      * intros a' ita' [= <-] Hita'. rewrite lookup_insert_eq.
        by replace ita' with ita by congruence.
      * intros q Hq1 Hq2. rewrite !lookup_insert_ne; [done|congruence|congruence].
Qed.

Lemma rep_frame m m' ls :
  rep m ls → ht_entries m' = ht_entries m → ht_nentries m' = ht_nentries m →
  (∀ j lj q, ls !! j = Some lj → q ∈ lj → ht_items m' !! q = ht_items m !! q) →
  rep m' ls.
Proof.
  intros (Hlen & Hlen' & Hb) He Hn Hq. unfold rep. rewrite He, Hn.
  split_and!; [done..|]. intros i e l Hei Hli.
  eapply bucket_ok_frame; [|by eapply Hb]. intros q Hin. by eapply Hq.
Qed.

Lemma rep_live m ls j lj q :
  rep m ls → ls !! j = Some lj → q ∈ lj → ∃ it, ht_items m !! q = Some (Live it).
Proof.
  intros Hrep Hj Hq.
  destruct (rep_lookup m ls j Hrep) as (e & l & He & Hl & Hc & _).
  { destruct Hrep as (_ & <- & _). by eapply lookup_lt_Some. }
  assert (l = lj) as -> by congruence. by eapply is_chain_live.
Qed.

Lemma chain_find_not_in σ l h :
  Some h ∉ hash_at σ <$> l → chain_find σ l h = None.
Proof.
  induction l as [|a l IH]; simpl; [done|].
  intros [Ha Hl]%not_elem_of_cons. unfold hash_at in Ha.
  destruct (σ !! a) as [[ita|]|]; [|done..].
  destruct (decide (hti_hash ita = h)) as [<-|]; [done|]. by apply IH.
Qed.

Lemma chain_find_None_not_in σ prev first l h :
  is_chain σ prev first l → chain_find σ l h = None → Some h ∉ hash_at σ <$> l.
Proof.
  intros Hc Hf (q & Hq1 & Hq2)%list_elem_of_fmap.
  destruct (is_chain_live _ _ _ _ _ Hc Hq2) as [it Hit].
  unfold hash_at in Hq1. rewrite Hit in Hq1. injection Hq1 as ->.
  eapply chain_find_None; try done.
  intros r Hr. by eapply is_chain_hash_at.
Qed.

(** [ht_add] on a table that holds [ls]. *)
Lemma ht_add_rep m ls h v p :
  rep m ls → ht_nentries m ≠ 0 → ht_items m !! p = None →
  ∃ l, ls !! N.to_nat (h mod N.of_nat (ht_nentries m)) = Some l ∧
    match chain_find (ht_items m) l h with
    | Some _ => ht_add m h v p = Done (m, RetErr EEXIST)
    | None =>
        ∃ m' it, ht_add m h v p = Done (m', Ret0) ∧
          rep m' (<[N.to_nat (h mod N.of_nat (ht_nentries m)) := l ++ [p]]> ls) ∧
          ht_nentries m' = ht_nentries m ∧
          ht_items m' !! p = Some (Live it) ∧ hti_hash it = h ∧ hti_data it = v ∧
          (∀ q, q ≠ p → erase <$> ht_items m' !! q = erase <$> ht_items m !! q)
    end.
Proof.
  intros Hrep Hn Hp.
  destruct (rep_scan m ls h Hrep Hn) as (i & e & l & Hslot & Hbk & -> & He & Hl & Hok & Hscan).
  exists l. split; [done|]. unfold ht_add.
  rewrite (bind_Done _ _ _ Hslot), (bind_Done _ _ _ Hbk), (bind_Done _ _ _ Hscan).
  destruct (chain_find (ht_items m) l h) as [[q itq]|] eqn:Hfind; [done|].
  set (m2 := store (calloc_item m p) p (mk_item h v None LNull)).
  assert (∀ j lj q, ls !! j = Some lj → q ∈ lj → q ≠ p) as Hfresh.
  { intros j lj q Hj Hq ->. destruct (rep_live _ _ _ _ _ Hrep Hj Hq). congruence. }
  assert (rep m2 ls) as Hrep2.
  { eapply rep_frame; [done..|]. intros j lj q Hj Hq. simpl.
    rewrite !lookup_insert_ne; [done|..]; intros ->; by eapply Hfresh. }
  destruct (insert_tail_rep m2 ls (N.to_nat (h mod N.of_nat (ht_nentries m))) e l p
              (mk_item h v None LNull))
    as (m' & Hins & Hrep' & Hsame & Hn'); try done.
  - simpl. by rewrite lookup_insert_eq.
  - intros j lj Hj Hq. by eapply Hfresh.
  - destruct Hok as (Hc & _).
    assert (hash_at (ht_items m2) <$> l = hash_at (ht_items m) <$> l) as ->.
    { apply list_fmap_ext. intros k q Hk. unfold hash_at. simpl.
      rewrite !lookup_insert_ne; [done|..]; intros ->;
        eapply Hfresh; try done; by eapply list_elem_of_lookup_2. }
    by eapply chain_find_None_not_in.
  - fold m2. rewrite (bind_Done _ _ _ Hins).
    destruct (same_payload_Live _ _ p (mk_item h v None LNull) Hsame)
      as (it' & Hit' & Hh & Hd).
    { simpl. by rewrite lookup_insert_eq. }
    exists m', it'. split_and!; try done.
    intros q Hq. rewrite Hsame. simpl. by rewrite !lookup_insert_ne.
Qed.

Lemma remove_free_rep m ls i l p :
  rep m ls → ls !! i = Some l → p ∈ l →
  ∃ m1 m2 l1 l2, l = l1 ++ p :: l2 ∧
    TAILQ_REMOVE m i p = Done m1 ∧ free m1 p = Done m2 ∧
    rep m2 (<[i := l1 ++ l2]> ls) ∧
    ht_nentries m2 = ht_nentries m ∧
    ht_items m2 !! p = Some Freed ∧
    (∀ q, q ≠ p → erase <$> ht_items m2 !! q = erase <$> ht_items m !! q).
Proof.
  intros Hrep Hl Hp.
  destruct (list_elem_of_split _ _ Hp) as (l1 & l2 & ->).
  destruct (rep_lookup m ls i Hrep) as (e & l & He & Hl' & Hok).
  { destruct Hrep as (_ & <- & _). by eapply lookup_lt_Some. }
  assert (l = l1 ++ p :: l2) as -> by congruence.
  destruct (remove_rep m ls i e l1 p l2 Hrep He Hl)
    as (m1 & Hrm & Hrep1 & Hsame & Hp1 & Hn1).
  destruct (rep_live _ _ _ _ _ Hrep Hl Hp) as [itp Hitp].
  pose proof Hok as (_ & _ & _ & Hnd%hash_at_NoDup).
  apply NoDup_app in Hnd as (_ & Hnd12 & [Hpl2 _]%NoDup_cons).
  exists m1, (mk_ht (ht_entries m1) (ht_nentries m1) (<[p:=Freed]> (ht_items m1))), l1, l2.
  split_and!; try done.
  - unfold free. rewrite (bind_Done _ _ itp); [reflexivity|].
    apply load_Done. by rewrite Hp1.
  - eapply rep_frame; [done..|]. simpl. intros j lj q Hj Hq.
    rewrite lookup_insert_ne; [done|]. intros Heq. subst q.
    destruct (decide (j = i)) as [->|Hne].
    + rewrite list_lookup_insert_eq in Hj by (by eapply lookup_lt_Some).
      injection Hj as <-. apply elem_of_app in Hq as [Hq|Hq]; [|done].
      by apply (Hnd12 _ Hq); left.
    + rewrite list_lookup_insert_ne in Hj by done.
      by apply Hne, (rep_disjoint m ls j i lj _ p Hrep Hj Hl).
  - simpl. by rewrite lookup_insert_eq.
  - intros q Hq. simpl. rewrite lookup_insert_ne by done. apply Hsame.
Qed.

(** [ht_remove] on a table that holds [ls]. *)
Lemma ht_remove_rep m ls h :
  rep m ls → ht_nentries m ≠ 0 →
  ∃ l, ls !! N.to_nat (h mod N.of_nat (ht_nentries m)) = Some l ∧
    match chain_find (ht_items m) l h with
    | None => ht_remove m h = Done (m, RetErr ENOENT)
    | Some (p, _) =>
        ∃ m' l1 l2, l = l1 ++ p :: l2 ∧ ht_remove m h = Done (m', Ret0) ∧
          rep m' (<[N.to_nat (h mod N.of_nat (ht_nentries m)) := l1 ++ l2]> ls) ∧
          ht_nentries m' = ht_nentries m ∧
          ht_items m' !! p = Some Freed ∧
          (∀ q, q ≠ p → erase <$> ht_items m' !! q = erase <$> ht_items m !! q)
    end.
Proof.
  intros Hrep Hn.
  destruct (rep_scan m ls h Hrep Hn) as (i & e & l & Hslot & Hbk & -> & He & Hl & Hok & Hscan).
  exists l. split; [done|]. unfold ht_remove.
  rewrite (bind_Done _ _ _ Hslot), (bind_Done _ _ _ Hbk), (bind_Done _ _ _ Hscan).
  destruct (chain_find (ht_items m) l h) as [[p itp]|] eqn:Hfind; [|done].
  apply chain_find_Some in Hfind as (Hp & Hitp & Hh).
  destruct (remove_free_rep m ls _ l p Hrep Hl Hp)
    as (m1 & m2 & l1 & l2 & -> & Hrm & Hfree & Hrep2 & Hn2 & Hp2 & Hq2).
  rewrite Hrm. simpl. rewrite Hfree. simpl.
  exists m2, l1, l2. done.
Qed.

(** [ht_find] on a table that holds [ls]. *)
Lemma ht_find_rep m ls h :
  rep m ls → ht_nentries m ≠ 0 →
  ∃ l, ls !! N.to_nat (h mod N.of_nat (ht_nentries m)) = Some l ∧
    ht_find m h = Done match chain_find (ht_items m) l h with
                       | Some (_, it) => hti_data it
                       | None => NULL
                       end.
Proof.
  intros Hrep Hn.
  destruct (rep_scan m ls h Hrep Hn) as (i & e & l & Hslot & Hbk & -> & He & Hl & Hok & Hscan).
  exists l. split; [done|]. unfold ht_find.
  rewrite (bind_Done _ _ _ Hslot), (bind_Done _ _ _ Hbk), (bind_Done _ _ _ Hscan).
  by destruct (chain_find (ht_items m) l h) as [[p itp]|].
Qed.

(** ** The iterator *)

(** Once the cursor is [NULL] the [retry:] loop only counts the slot up to
    the end. *)
Lemma ht_next_spin k m s :
  s + k = ht_nentries m →
  ht_next_retry k m (mk_iter s None) = Done (mk_iter (ht_nentries m) None, NULL).
Proof.
  revert s. induction k as [|k IH]; intros s Hs; simpl.
  - rewrite decide_True by lia. f_equal. f_equal. f_equal. lia.
  - rewrite decide_False by lia. apply IH. lia.
Qed.

(** [ht_next] without its loop. *)
Lemma ht_next_unfold m it :
  htit_slot it ≤ ht_nentries m →
  ht_next m it =
    if decide (htit_slot it = ht_nentries m) then Done (it, NULL)
    else match htit_cursor it with
         | None => Done (mk_iter (ht_nentries m) None, NULL)
         | Some c =>
             item ← load m c;
             match tqe_next item with
             | None => Done (mk_iter (ht_nentries m) None, NULL)
             | Some nx => Done (mk_iter (htit_slot it) (Some nx), hti_data item)
             end
         end.
Proof.
  intros Hle. unfold ht_next.
  destruct (ht_nentries m - htit_slot it) as [|k] eqn:Hk; simpl.
  - rewrite !decide_True by lia. done.
  - rewrite !decide_False by lia.
    destruct (htit_cursor it) as [c|]; [|apply ht_next_spin; lia].
    destruct (load m c) as [item|]; simpl; [|done].
    destruct (tqe_next item); [done|]. apply ht_next_spin. lia.
Qed.

Lemma is_chain_next σ prev first l c it nx :
  is_chain σ prev first l → c ∈ l → σ !! c = Some (Live it) →
  tqe_next it = Some nx → nx ∈ l.
Proof.
  intros Hc Hin Hit Hnx.
  destruct (list_elem_of_split _ _ Hin) as (l1 & l2 & ->).
  destruct (is_chain_mid _ _ _ _ _ _ _ Hc Hit) as [_ Hn].
  rewrite Hnx in Hn. symmetry in Hn. apply head_Some_elem_of in Hn.
  apply elem_of_app. right. by right.
Qed.

Lemma ht_next_ok m ls it it' v :
  rep m ls → iter_ok m ls it → ht_next m it = Done (it', v) → iter_ok m ls it'.
Proof.
  intros Hrep (Hle & Hend & Hcur) Hnext.
  assert (iter_ok m ls (mk_iter (ht_nentries m) None)) as Hfin.
  { split_and!; simpl; [lia|done|done]. }
  rewrite ht_next_unfold in Hnext by done.
  destruct (decide (htit_slot it = ht_nentries m)).
  { injection Hnext as <- <-. done. }
  destruct (htit_cursor it) as [c|] eqn:Hc; [|by injection Hnext as <- <-].
  apply bind_Done_inv in Hnext as (item & Hitem%load_Done & Hnext).
  destruct (tqe_next item) as [nx|] eqn:Hnx; [|by injection Hnext as <- <-].
  injection Hnext as <- <-.
  destruct (Hcur c eq_refl) as [Hfreed|(l & Hl & Hin)]; [congruence|].
  split_and!; simpl; [done|done|]. intros c' [= <-]. right.
  exists l. split; [done|].
  destruct (rep_lookup m ls (htit_slot it) Hrep) as (e & l' & He & Hl' & Hch & _); [lia|].
  assert (l' = l) as -> by congruence.
  by eapply is_chain_next.
Qed.

Lemma ht_iter_ok m ls it :
  rep m ls → ht_iter m = Done it → iter_ok m ls it.
Proof.
  intros Hrep Hit. unfold ht_iter in Hit.
  apply bind_Done_inv in Hit as (e & He%bucket_Done & [= <-]).
  assert (0 < ht_nentries m) as Hn.
  { destruct Hrep as (<- & _). by eapply lookup_lt_Some. }
  destruct (rep_lookup m ls 0 Hrep Hn) as (e' & l & He' & Hl & Hc & _).
  assert (e' = e) as -> by congruence.
  split_and!; simpl; [lia|lia|]. intros c Hc'. right. exists l. split; [done|].
  apply is_chain_first in Hc. rewrite Hc' in Hc. symmetry in Hc.
  by apply head_Some_elem_of.
Qed.

Lemma iter_ok_mono m m' ls ls' it :
  ht_nentries m' = ht_nentries m →
  (∀ c, ht_items m !! c = Some Freed → ht_items m' !! c = Some Freed) →
  (∀ s l c, ls !! s = Some l → c ∈ l →
     ht_items m' !! c = Some Freed ∨ ∃ l', ls' !! s = Some l' ∧ c ∈ l') →
  iter_ok m ls it → iter_ok m' ls' it.
Proof.
  intros Hn Hfreed Hch (Hle & Hend & Hcur). unfold iter_ok. rewrite Hn.
  split_and!; [done..|]. intros c Hc.
  destruct (Hcur c Hc) as [?|(l & Hl & Hin)]; [left; auto|]. by eapply Hch.
Qed.

Lemma erase_Freed (x : option block) : erase <$> x = Some Freed → x = Some Freed.
Proof. by destruct x as [[it|]|]. Qed.

Lemma slot_of_Done m h i : slot_of m h = Done i → ht_nentries m ≠ 0.
Proof. unfold slot_of. by case_decide. Qed.

Lemma ht_add_Done m h v p r : ht_add m h v p = Done r → ht_nentries m ≠ 0.
Proof.
  unfold ht_add. intros (i & Hi & _)%bind_Done_inv. by eapply slot_of_Done.
Qed.

Lemma ht_remove_Done m h r : ht_remove m h = Done r → ht_nentries m ≠ 0.
Proof.
  unfold ht_remove. intros (i & Hi & _)%bind_Done_inv. by eapply slot_of_Done.
Qed.

Lemma ht_find_Done m h r : ht_find m h = Done r → ht_nentries m ≠ 0.
Proof.
  unfold ht_find. intros (i & Hi & _)%bind_Done_inv. by eapply slot_of_Done.
Qed.

(** [ht_remove_at_iter] on a table that holds [ls], for an iterator with a
    cursor: the cursor node leaves the chain of the iterator's slot and is
    freed; a cursor that was freed before is a use after free. *)
Lemma ht_remove_at_iter_rep m ls it c :
  rep m ls → iter_ok m ls it → htit_cursor it = Some c →
  (ht_items m !! c = Some Freed ∧
   ht_remove_at_iter m it = Abort (UseAfterFree c)) ∨
  (∃ l1 l2 m',
     ls !! htit_slot it = Some (l1 ++ c :: l2) ∧
     ht_remove_at_iter m it = Done (m', it, Ret0) ∧
     rep m' (<[htit_slot it := l1 ++ l2]> ls) ∧
     ht_nentries m' = ht_nentries m ∧
     ht_items m' !! c = Some Freed ∧
     (∀ q, q ≠ c → erase <$> ht_items m' !! q = erase <$> ht_items m !! q)).
Proof.
  intros Hrep (Hle & Hend & Hcur) Hc. unfold ht_remove_at_iter. rewrite Hc.
  destruct (Hcur c Hc) as [Hfreed|(l & Hl & Hin)].
  - left. split; [done|]. unfold TAILQ_REMOVE, load. by rewrite Hfreed.
  - right.
    destruct (remove_free_rep m ls _ l c Hrep Hl Hin)
      as (m1 & m2 & l1 & l2 & -> & Hrm & Hfree & Hrep2 & Hn2 & Hp2 & Hq2).
    exists l1, l2, m2.
    rewrite (bind_Done _ _ _ Hrm), (bind_Done _ _ _ Hfree). done.
Qed.

(** ** The invariant holds along every run *)

(** The [k]-th iterator of a pool in which all iterators are fine. *)
Ltac pool_iter Hits Hk Hit :=
  match type of Hk with
  | ?its !! _ = Some ?it =>
      match type of Hits with
      | Forall (iter_ok ?m ?ls) _ =>
          assert (iter_ok m ls it) as Hit
            by (by eapply (proj1 (Forall_lookup _ _) Hits))
      end
  end.

Lemma rep_init n : rep (ht_init n) (replicate n []).
Proof.
  split_and!; simpl.
  - by rewrite length_fmap, length_seq.
  - by rewrite length_replicate.
  - intros i e l. rewrite list_lookup_fmap.
    intros (j & [-> Hj]%lookup_seq & ->)%fmap_Some [-> _]%lookup_replicate.
    split_and!; simpl; try done. constructor.
Qed.

Lemma inv_add m its h v p m' r :
  inv (m, its) → ht_items m !! p = None → ht_add m h v p = Done (m', r) →
  inv (m', its).
Proof.
  intros (ls & Hrep & Hits) Hp Hadd. simpl in *.
  pose proof (ht_add_Done _ _ _ _ _ Hadd) as Hn.
  destruct (ht_add_rep m ls h v p Hrep Hn Hp) as (l & Hl & Hcase).
  destruct (chain_find (ht_items m) l h).
  { rewrite Hcase in Hadd. injection Hadd as <- <-. by exists ls. }
  destruct Hcase as (m2 & it & Hadd' & Hrep' & Hn' & Hit & _ & _ & Hq).
  rewrite Hadd' in Hadd. injection Hadd as <- <-.
  eexists. split; [exact Hrep'|]. simpl.
  eapply Forall_impl; [exact Hits|]. intros x. apply iter_ok_mono; [done| |].
  - intros c Hc. apply erase_Freed. rewrite Hq; [by rewrite Hc|]. congruence.
  - intros s l' c Hs Hc. right.
    destruct (decide (s = N.to_nat (h mod N.of_nat (ht_nentries m)))) as [->|Hne].
    + exists (l ++ [p]). rewrite list_lookup_insert_eq by (by eapply lookup_lt_Some).
      split; [done|]. apply elem_of_app. left. congruence.
    + exists l'. by rewrite list_lookup_insert_ne.
Qed.

Lemma iter_ok_remove m m' ls i l1 p l2 it :
  ls !! i = Some (l1 ++ p :: l2) →
  ht_nentries m' = ht_nentries m →
  ht_items m' !! p = Some Freed →
  (∀ q, q ≠ p → erase <$> ht_items m' !! q = erase <$> ht_items m !! q) →
  iter_ok m ls it → iter_ok m' (<[i := l1 ++ l2]> ls) it.
Proof.
  intros Hl Hn Hp Hq. apply iter_ok_mono; [done| |].
  - intros c Hc. destruct (decide (c = p)) as [->|]; [done|].
    apply erase_Freed. rewrite Hq by done. by rewrite Hc.
  - intros s l' c Hs Hc. destruct (decide (c = p)) as [->|Hcp]; [by left|]. right.
    destruct (decide (s = i)) as [->|Hne].
    + exists (l1 ++ l2). rewrite list_lookup_insert_eq by (by eapply lookup_lt_Some).
      split; [done|]. assert (l' = l1 ++ p :: l2) as -> by congruence.
      apply elem_of_app in Hc as [Hc|Hc]; [apply elem_of_app; by left|].
      apply elem_of_cons in Hc as [Hc|Hc]; [done|]. apply elem_of_app. by right.
    + exists l'. by rewrite list_lookup_insert_ne.
Qed.

Lemma inv_remove m its h m' r :
  inv (m, its) → ht_remove m h = Done (m', r) → inv (m', its).
Proof.
  intros (ls & Hrep & Hits) Hrm. simpl in *.
  pose proof (ht_remove_Done _ _ _ Hrm) as Hn.
  destruct (ht_remove_rep m ls h Hrep Hn) as (l & Hl & Hcase).
  destruct (chain_find (ht_items m) l h) as [[p itp]|].
  - destruct Hcase as (m2 & l1 & l2 & -> & Hrm' & Hrep' & Hn' & Hp & Hq).
    rewrite Hrm' in Hrm. injection Hrm as <- <-.
    eexists. split; [exact Hrep'|]. simpl.
    eapply Forall_impl; [exact Hits|]. intros x. by eapply iter_ok_remove.
  - rewrite Hcase in Hrm. injection Hrm as <- <-. by exists ls.
Qed.

Lemma inv_iter m its it :
  inv (m, its) → ht_iter m = Done it → inv (m, its ++ [it]).
Proof.
  intros (ls & Hrep & Hits) Hit. exists ls. split; [done|]. simpl in *.
  apply Forall_app. split; [done|]. apply Forall_singleton. by eapply ht_iter_ok.
Qed.

Lemma inv_next m its k it it' v :
  inv (m, its) → its !! k = Some it → ht_next m it = Done (it', v) →
  inv (m, <[k := it']> its).
Proof.
  intros (ls & Hrep & Hits) Hk Hnext. exists ls. split; [done|]. simpl in *.
  apply Forall_insert; [done|]. eapply ht_next_ok; [done| |done].
  by eapply (proj1 (Forall_lookup _ _) Hits).
Qed.

Lemma inv_remove_at_iter m its k it m' it' r :
  inv (m, its) → its !! k = Some it →
  ht_remove_at_iter m it = Done (m', it', r) →
  inv (m', <[k := it']> its).
Proof.
  intros (ls & Hrep & Hits) Hk Hrm. simpl in *.
  pool_iter Hits Hk Hit.
  destruct (htit_cursor it) as [c|] eqn:Hc.
  - destruct (ht_remove_at_iter_rep m ls it c Hrep Hit Hc)
      as [[_ Hab]|(l1 & l2 & m2 & Hl & Hrm' & Hrep' & Hn' & Hp & Hq)]; [congruence|].
    rewrite Hrm' in Hrm. injection Hrm as <- <- <-.
    eexists. split; [exact Hrep'|]. simpl.
    rewrite (list_insert_id its k it Hk).
    eapply Forall_impl; [exact Hits|]. intros x. by eapply iter_ok_remove.
  - unfold ht_remove_at_iter in Hrm. rewrite Hc in Hrm. injection Hrm as <- <- <-.
    exists ls. split; [done|]. simpl. by rewrite (list_insert_id its k it Hk).
Qed.

Lemma inv_step c c' : inv c → step c c' → inv c'.
Proof.
  intros Hinv Hstep. destruct Hstep.
  - by eapply inv_add.
  - by eapply inv_remove.
  - by eapply inv_iter.
  - by eapply inv_next.
  - by eapply inv_remove_at_iter.
Qed.

Lemma reachable_inv n c : reachable n c → inv c.
Proof.
  unfold reachable. revert c. apply rtc_ind_r.
  - exists (replicate n []). split; [apply rep_init|]. by constructor.
  - intros c c' _ Hstep Hinv. by eapply inv_step.
Qed.

Lemma step_nentries c c' : inv c → step c c' → ht_nentries c'.1 = ht_nentries c.1.
Proof.
  intros (ls & Hrep & Hits) Hstep.
  destruct Hstep as [m its h v p m' r Hp Hadd|m its h m' r Hrm| | |
                     m its k it m' it' r Hk Hrm]; simpl in *; try done.
  - pose proof (ht_add_Done _ _ _ _ _ Hadd) as Hn.
    destruct (ht_add_rep m ls h v p Hrep Hn Hp) as (l & Hl & Hcase).
    destruct (chain_find (ht_items m) l h).
    + congruence.
    + destruct Hcase as (m2 & it & Hadd' & _ & Hn' & _). congruence.
  - pose proof (ht_remove_Done _ _ _ Hrm) as Hn.
    destruct (ht_remove_rep m ls h Hrep Hn) as (l & Hl & Hcase).
    destruct (chain_find (ht_items m) l h) as [[p itp]|].
    + destruct Hcase as (m2 & l1 & l2 & _ & Hrm' & _ & Hn' & _). congruence.
    + congruence.
  - pool_iter Hits Hk Hit.
    destruct (htit_cursor it) as [c|] eqn:Hc.
    + destruct (ht_remove_at_iter_rep m ls it c Hrep Hit Hc)
        as [[_ Hab]|(l1 & l2 & m2 & Hl & Hrm' & Hrep' & Hn' & Hp & Hq)]; congruence.
    + unfold ht_remove_at_iter in Hrm. rewrite Hc in Hrm. congruence.
Qed.

Lemma reachable_nentries n c : reachable n c → ht_nentries c.1 = n.
Proof.
  unfold reachable. revert c. apply rtc_ind_r; [done|].
  intros c c' Hr Hstep IH. rewrite <- IH. apply step_nentries; [|done].
  by eapply reachable_inv.
Qed.

(** ** Programs are runs *)

Lemma exec_step c o c' : exec c o = Some c' → step c c'.
Proof.
  destruct c as [m its]. destruct o as [h v p|h| |k|k]; simpl.
  - destruct (ht_items m !! p) eqn:Hp; [done|].
    destruct (ht_add m h v p) as [[m' r]|] eqn:Hadd; [|done].
    intros [= <-]. by eapply step_add.
  - destruct (ht_remove m h) as [[m' r]|] eqn:Hrm; [|done].
    intros [= <-]. by eapply step_remove.
  - destruct (ht_iter m) as [it|] eqn:Hit; [|done].
    intros [= <-]. by eapply step_iter.
  - destruct (its !! k) as [it|] eqn:Hk; [|done].
    destruct (ht_next m it) as [[it' v]|] eqn:Hnext; [|done].
    intros [= <-]. by eapply step_next.
  - destruct (its !! k) as [it|] eqn:Hk; [|done].
    destruct (ht_remove_at_iter m it) as [[[m' it'] r]|] eqn:Hrm; [|done].
    intros [= <-]. by eapply step_remove_at_iter.
Qed.

Lemma run_reachable n c ops c' :
  reachable n c → run c ops = Some c' → reachable n c'.
Proof.
  revert c. induction ops as [|o ops IH]; intros c Hr; simpl.
  - by intros [= <-].
  - destruct (exec c o) as [c1|] eqn:Hex; [|done].
    apply IH. eapply rtc_r; [exact Hr|]. by eapply exec_step.
Qed.

Lemma table_after_reachable n ops c :
  run (ht_init n, []) ops = Some c → table_after n ops = c.1 ∧ reachable n c.
Proof.
  intros Hrun. unfold table_after. rewrite Hrun. split; [done|].
  eapply run_reachable; [apply rtc_refl|done].
Qed.

(** ** Lookups in a table that holds [ls] *)

Lemma resides_rep m ls i p :
  rep m ls → resides m i p ↔ ∃ l, ls !! i = Some l ∧ p ∈ l.
Proof.
  intros Hrep. split.
  - intros (e & He & Hlk).
    destruct (rep_lookup m ls i Hrep) as (e' & l & He' & Hl & Hc & _).
    { destruct Hrep as (<- & _). by eapply lookup_lt_Some. }
    assert (e' = e) as -> by congruence.
    exists l. split; [done|]. by eapply linked_in_chain.
  - intros (l & Hl & Hin).
    destruct (rep_lookup m ls i Hrep) as (e & l' & He & Hl' & Hc & _).
    { destruct Hrep as (_ & <- & _). by eapply lookup_lt_Some. }
    assert (l' = l) as -> by congruence.
    exists e. split; [done|]. by eapply in_chain_linked.
Qed.

(** A hash carried by a node of a chain is found, with that node's value. *)
Lemma ht_find_member m ls i l p it :
  rep m ls → ls !! i = Some l → p ∈ l → ht_items m !! p = Some (Live it) →
  ht_find m (hti_hash it) = Done (hti_data it).
Proof.
  intros Hrep Hl Hp Hit.
  assert (i < ht_nentries m) as Hi.
  { destruct Hrep as (_ & <- & _). by eapply lookup_lt_Some. }
  destruct (rep_lookup m ls i Hrep Hi) as (e & l' & He & Hl' & Hc & _ & Hslot & Hnd).
  assert (l' = l) as -> by congruence.
  destruct (ht_find_rep m ls (hti_hash it) Hrep) as (l' & Hl'' & ->); [lia|].
  rewrite (Hslot p (hti_hash it) Hp (hash_at_Live _ _ _ Hit)) in Hl''.
  assert (l' = l) as -> by congruence.
  rewrite (chain_find_self _ l p it); try done.
  intros q Hq. by eapply is_chain_hash_at.
Qed.

(** A hash no node of its chain carries gives [NULL]. *)
Lemma ht_find_none m ls h l :
  rep m ls → ht_nentries m ≠ 0 →
  ls !! N.to_nat (h mod N.of_nat (ht_nentries m)) = Some l →
  chain_find (ht_items m) l h = None →
  ht_find m h = Done NULL.
Proof.
  intros Hrep Hn Hl Hf.
  destruct (ht_find_rep m ls h Hrep Hn) as (l' & Hl' & ->).
  assert (l' = l) as -> by congruence. by rewrite Hf.
Qed.

(** [ht_add] of a hash that is there: no allocation, no change. *)
Lemma ht_add_dup m ls h v p l q itq :
  rep m ls → ht_nentries m ≠ 0 →
  ls !! N.to_nat (h mod N.of_nat (ht_nentries m)) = Some l →
  chain_find (ht_items m) l h = Some (q, itq) →
  ht_add m h v p = Done (m, RetErr EEXIST).
Proof.
  intros Hrep Hn Hl Hf.
  destruct (rep_scan m ls h Hrep Hn) as (i & e & l' & Hslot & Hbk & -> & He & Hl' & Hok & Hscan).
  assert (l' = l) as -> by congruence. unfold ht_add.
  rewrite (bind_Done _ _ _ Hslot), (bind_Done _ _ _ Hbk), (bind_Done _ _ _ Hscan).
  by rewrite Hf.
Qed.

(** What a successful [ht_add] leaves: the new node, last in its chain. *)
Lemma ht_add_ok m ls h v p m' :
  rep m ls → ht_items m !! p = None → ht_add m h v p = Done (m', Ret0) →
  ∃ l it,
    ls !! N.to_nat (h mod N.of_nat (ht_nentries m)) = Some l ∧
    chain_find (ht_items m) l h = None ∧
    rep m' (<[N.to_nat (h mod N.of_nat (ht_nentries m)) := l ++ [p]]> ls) ∧
    ht_nentries m' = ht_nentries m ∧
    ht_items m' !! p = Some (Live it) ∧ hti_hash it = h ∧ hti_data it = v ∧
    (∀ q, q ≠ p → erase <$> ht_items m' !! q = erase <$> ht_items m !! q).
Proof.
  intros Hrep Hp Hadd.
  pose proof (ht_add_Done _ _ _ _ _ Hadd) as Hn.
  destruct (ht_add_rep m ls h v p Hrep Hn Hp) as (l & Hl & Hcase).
  destruct (chain_find (ht_items m) l h) eqn:Hf; [congruence|].
  destruct Hcase as (m2 & it & Hadd' & ? & ? & ? & ? & ? & ?).
  assert (m2 = m') as -> by congruence.
  exists l, it. by split_and!.
Qed.

Lemma ht_add_ok_find m ls h v p m' :
  rep m ls → ht_items m !! p = None → ht_add m h v p = Done (m', Ret0) →
  ht_find m' h = Done v.
Proof.
  intros Hrep Hp Hadd.
  destruct (ht_add_ok m ls h v p m' Hrep Hp Hadd)
    as (l & it & Hl & Hf & Hrep' & Hn' & Hit & <- & <- & Hq).
  eapply (ht_find_member m' _ _ (l ++ [p]) p it Hrep'); [|by apply elem_of_app; right; left|done].
  apply list_lookup_insert_eq. by eapply lookup_lt_Some.
Qed.

(** What a successful [ht_remove] leaves: the node that carried the hash is
    freed and gone from its chain, where the hash no longer occurs. *)
Lemma ht_remove_ok m ls h m' :
  rep m ls → ht_remove m h = Done (m', Ret0) →
  ∃ l1 p l2 it,
    ls !! N.to_nat (h mod N.of_nat (ht_nentries m)) = Some (l1 ++ p :: l2) ∧
    ht_items m !! p = Some (Live it) ∧ hti_hash it = h ∧
    rep m' (<[N.to_nat (h mod N.of_nat (ht_nentries m)) := l1 ++ l2]> ls) ∧
    ht_nentries m' = ht_nentries m ∧
    ht_items m' !! p = Some Freed ∧
    (∀ q, q ≠ p → erase <$> ht_items m' !! q = erase <$> ht_items m !! q) ∧
    chain_find (ht_items m') (l1 ++ l2) h = None.
Proof.
  intros Hrep Hrm.
  pose proof (ht_remove_Done _ _ _ Hrm) as Hn.
  destruct (ht_remove_rep m ls h Hrep Hn) as (l & Hl & Hcase).
  destruct (chain_find (ht_items m) l h) as [[p itp]|] eqn:Hf; [|congruence].
  destruct Hcase as (m2 & l1 & l2 & -> & Hrm' & Hrep' & Hn' & Hp & Hq).
  assert (m2 = m') as -> by congruence.
  apply chain_find_Some in Hf as (Hin & Hitp & Hh).
  exists l1, p, l2, itp. split_and!; try done.
  apply chain_find_not_in.
  destruct (rep_lookup m ls _ Hrep (rep_slot_lt m h Hn)) as (e & l & He & Hl' & Hok).
  assert (l = l1 ++ p :: l2) as -> by congruence.
  destruct Hok as (Hc & _ & _ & Hnd).
  pose proof (hash_at_NoDup _ _ Hnd) as Hnd'.
  intros (q & Hq1 & Hq2)%list_elem_of_fmap.
  assert (q ≠ p) as Hqp.
  { intros ->. apply NoDup_app in Hnd' as (_ & Hnd12 & [Hpl2 _]%NoDup_cons).
    apply elem_of_app in Hq2 as [Hq2|Hq2]; [|done]. apply (Hnd12 _ Hq2). by left. }
  rewrite (same_payload_hash_at (ht_items m)) in Hq1 by (by apply Hq).
  assert (q ∈ l1 ++ p :: l2) as Hq3.
  { apply elem_of_app in Hq2 as [?|?]; apply elem_of_app; [by left|right; by right]. }
  apply list_elem_of_lookup_1 in Hq3 as [a Ha].
  apply list_elem_of_lookup_1 in Hin as [b Hb].
  assert (a = b); [|congruence].
  eapply (NoDup_lookup _ a b (Some h) Hnd).
  - rewrite list_lookup_fmap, Ha. simpl. by rewrite Hq1.
  - rewrite list_lookup_fmap, Hb. simpl. by rewrite (hash_at_Live _ _ _ Hitp), Hh.
Qed.

Lemma ht_remove_none m ls h l :
  rep m ls → ht_nentries m ≠ 0 →
  ls !! N.to_nat (h mod N.of_nat (ht_nentries m)) = Some l →
  chain_find (ht_items m) l h = None →
  ht_remove m h = Done (m, RetErr ENOENT).
Proof.
  intros Hrep Hn Hl Hf.
  destruct (ht_remove_rep m ls h Hrep Hn) as (l' & Hl' & Hcase).
  assert (l' = l) as -> by congruence. by rewrite Hf in Hcase.
Qed.

Lemma ht_remove_some m ls h l p it :
  rep m ls → ht_nentries m ≠ 0 →
  ls !! N.to_nat (h mod N.of_nat (ht_nentries m)) = Some l →
  chain_find (ht_items m) l h = Some (p, it) →
  ∃ m', ht_remove m h = Done (m', Ret0).
Proof.
  intros Hrep Hn Hl Hf.
  destruct (ht_remove_rep m ls h Hrep Hn) as (l' & Hl' & Hcase).
  assert (l' = l) as -> by congruence. rewrite Hf in Hcase.
  destruct Hcase as (m' & _ & _ & _ & Hrm & _). eauto.
Qed.

(** ** Every live node is in a chain *)

Lemma erase_Live (x y : option block) it :
  erase <$> x = erase <$> y → x = Some (Live it) → ∃ it', y = Some (Live it').
Proof. intros H ->. destruct y as [[it'|]|]; simpl in H; [eauto|done..]. Qed.

Lemma all_linked_update m m' ls ls' :
  rep m ls → rep m' ls' → all_linked m →
  (∀ q it', ht_items m' !! q = Some (Live it') →
     (∃ j l', ls' !! j = Some l' ∧ q ∈ l') ∨
     ((∃ it, ht_items m !! q = Some (Live it)) ∧
      ∀ j l, ls !! j = Some l → q ∈ l → ∃ l', ls' !! j = Some l' ∧ q ∈ l')) →
  all_linked m'.
Proof.
  intros Hrep Hrep' Hall Hcase q it' Hq.
  destruct (Hcase q it' Hq) as [(j & l' & Hl' & Hin)|[(it & Hit) Hmv]].
  - exists j. apply (resides_rep m' ls'); eauto.
  - destruct (Hall q it Hit) as (j & Hres).
    apply (resides_rep m ls) in Hres as (l & Hl & Hin); [|done].
    exists j. apply (resides_rep m' ls'); eauto.
Qed.

Lemma all_linked_remove m m' ls i l1 p l2 :
  rep m ls → rep m' (<[i := l1 ++ l2]> ls) → all_linked m →
  ls !! i = Some (l1 ++ p :: l2) →
  ht_items m' !! p = Some Freed →
  (∀ q, q ≠ p → erase <$> ht_items m' !! q = erase <$> ht_items m !! q) →
  all_linked m'.
Proof.
  intros Hrep Hrep' Hall Hl Hp Hq.
  eapply (all_linked_update m m'); try done.
  intros q it' Hit'. right.
  assert (q ≠ p) as Hqp by congruence.
  split; [by eapply erase_Live; [apply Hq|]|].
  intros j l Hj Hin. destruct (decide (j = i)) as [->|Hne].
  - exists (l1 ++ l2). rewrite list_lookup_insert_eq by (by eapply lookup_lt_Some).
    split; [done|]. assert (l = l1 ++ p :: l2) as -> by congruence.
    apply elem_of_app in Hin as [Hin|Hin]; [apply elem_of_app; by left|].
    apply elem_of_cons in Hin as [Hin|Hin]; [done|]. apply elem_of_app. by right.
  - exists l. by rewrite list_lookup_insert_ne.
Qed.

Lemma all_linked_step c c' : inv c → all_linked c.1 → step c c' → all_linked c'.1.
Proof.
  intros (ls & Hrep & Hits) Hall Hstep.
  destruct Hstep as [m its h v p m' r Hp Hadd|m its h m' r Hrm| | |
                     m its k it m' it' r Hk Hrm]; simpl in *; try done.
  - destruct r as [|e]; cycle 1.
    { pose proof (ht_add_Done _ _ _ _ _ Hadd) as Hn.
      destruct (ht_add_rep m ls h v p Hrep Hn Hp) as (l & Hl & Hcase).
      destruct (chain_find (ht_items m) l h).
      - rewrite Hcase in Hadd. by injection Hadd as <- _.
      - destruct Hcase as (m2 & it & Hadd' & _). congruence. }
    destruct (ht_add_ok m ls h v p m' Hrep Hp Hadd)
      as (l & it & Hl & Hf & Hrep' & Hn' & Hit & Hh & Hd & Hq).
    eapply (all_linked_update m m'); try done.
    intros q it' Hit'. destruct (decide (q = p)) as [->|Hqp].
    + left. eexists _, (l ++ [p]). split.
      * apply list_lookup_insert_eq. by eapply lookup_lt_Some.
      * apply elem_of_app. right. by left.
    + right. split; [by eapply erase_Live; [apply Hq|]|].
      intros j lj Hj Hin.
      destruct (decide (j = N.to_nat (h mod N.of_nat (ht_nentries m)))) as [->|Hne].
      * exists (l ++ [p]). rewrite list_lookup_insert_eq by (by eapply lookup_lt_Some).
        split; [done|]. apply elem_of_app. left. congruence.
      * exists lj. by rewrite list_lookup_insert_ne.
  - destruct r as [|e]; cycle 1.
    { pose proof (ht_remove_Done _ _ _ Hrm) as Hn.
      destruct (ht_remove_rep m ls h Hrep Hn) as (l & Hl & Hcase).
      destruct (chain_find (ht_items m) l h) as [[p itp]|].
      - destruct Hcase as (m2 & l1 & l2 & _ & Hrm' & _). congruence.
      - rewrite Hcase in Hrm. by injection Hrm as <- _. }
    destruct (ht_remove_ok m ls h m' Hrep Hrm)
      as (l1 & p & l2 & it & Hl & Hit & Hh & Hrep' & Hn' & Hp & Hq & _).
    by eapply (all_linked_remove m m' ls).
  - pool_iter Hits Hk Hit.
    destruct (htit_cursor it) as [c|] eqn:Hc.
    + destruct (ht_remove_at_iter_rep m ls it c Hrep Hit Hc)
        as [[_ Hab]|(l1 & l2 & m2 & Hl & Hrm' & Hrep' & Hn' & Hp & Hq)]; [congruence|].
      assert (m2 = m') as -> by congruence.
      by eapply (all_linked_remove m m' ls).
    + unfold ht_remove_at_iter in Hrm. rewrite Hc in Hrm. by injection Hrm as <- _ _.
Qed.

Lemma reachable_all_linked n c : reachable n c → all_linked c.1.
Proof.
  unfold reachable. revert c. apply rtc_ind_r.
  - intros p it. simpl. by rewrite lookup_empty.
  - intros c c' Hr Hstep IH. eapply all_linked_step; [|done..].
    by eapply reachable_inv.
Qed.

(** ** [ht_destroy] *)

Lemma store_same_payload (σ : gmap loc block) p it it' :
  σ !! p = Some (Live it) → hti_hash it' = hti_hash it → hti_data it' = hti_data it →
  same_payload σ (<[p := Live it']> σ).
Proof.
  intros Hp Hh Hd q. destruct (decide (q = p)) as [->|].
  - rewrite lookup_insert_eq, Hp. simpl. by rewrite Hh, Hd.
  - by rewrite lookup_insert_ne.
Qed.

Lemma store_link_same_payload m lp v m' :
  store_link m lp v = Done m' →
  same_payload (ht_items m) (ht_items m') ∧ ht_nentries m' = ht_nentries m.
Proof.
  destruct lp as [|i|p]; simpl; [done| |].
  - intros (e & _ & [= <-])%bind_Done_inv. split; [apply same_payload_refl|done].
  - intros (it & Hit%load_Done & [= <-])%bind_Done_inv. simpl.
    split; [|done]. by eapply store_same_payload.
Qed.

(** [TAILQ_REMOVE] changes link fields only: it frees nothing. *)
Lemma TAILQ_REMOVE_same_payload m i p m' :
  TAILQ_REMOVE m i p = Done m' →
  same_payload (ht_items m) (ht_items m') ∧ ht_nentries m' = ht_nentries m.
Proof.
  unfold TAILQ_REMOVE. intros (it & Hit & Hrest)%bind_Done_inv.
  apply bind_Done_inv in Hrest as (m1 & Hm1 & Hlink).
  apply store_link_same_payload in Hlink as [Hs2 Hn2].
  assert (same_payload (ht_items m) (ht_items m1) ∧ ht_nentries m1 = ht_nentries m)
    as [Hs1 Hn1].
  { destruct (tqe_next it) as [nx|].
    - apply bind_Done_inv in Hm1 as (itn & Hitn%load_Done & [= <-]). simpl.
      split; [|done]. by eapply store_same_payload.
    - apply bind_Done_inv in Hm1 as (e & _ & [= <-]).
      split; [apply same_payload_refl|done]. }
  split; [by eapply same_payload_trans|congruence].
Qed.

Lemma destroy_chain_same_payload k m i hi m' :
  destroy_chain k m i hi = Done m' →
  same_payload (ht_items m) (ht_items m') ∧ ht_nentries m' = ht_nentries m.
Proof.
  revert m hi. induction k as [|k IH]; intros m hi; simpl; [done|].
  intros (it & _ & Hrest)%bind_Done_inv.
  destruct (tqe_next it) as [nx|].
  - apply bind_Done_inv in Hrest as (m1 & [Hs1 Hn1]%TAILQ_REMOVE_same_payload & Hk).
    apply IH in Hk as [Hs2 Hn2].
    split; [by eapply same_payload_trans|congruence].
  - injection Hrest as <-. split; [apply same_payload_refl|done].
Qed.

Lemma destroy_slots_same_payload m0 idx acc m' :
  (∀ m, acc = Done m →
        same_payload (ht_items m0) (ht_items m) ∧ ht_nentries m = ht_nentries m0) →
  foldl destroy_slot acc idx = Done m' →
  same_payload (ht_items m0) (ht_items m') ∧ ht_nentries m' = ht_nentries m0.
Proof.
  revert acc. induction idx as [|i idx IH]; intros acc Hacc; simpl; [by apply Hacc|].
  apply IH. intros m2. unfold destroy_slot.
  intros (m1 & [Hs1 Hn1]%Hacc & Hrest)%bind_Done_inv.
  apply bind_Done_inv in Hrest as (he & _ & Hrest).
  destruct (tqh_first he) as [hi|].
  - apply destroy_chain_same_payload in Hrest as [Hs2 Hn2].
    split; [by eapply same_payload_trans|congruence].
  - by injection Hrest as <-.
Qed.

(** [ht_destroy] frees no node: every block that was live before the call
    is live after it, with its hash and value. *)
Lemma ht_destroy_same_payload h m σ' :
  ht_destroy h m = Done σ' → same_payload (ht_items m) σ'.
Proof.
  unfold ht_destroy. intros (m' & Hfold & Hfree)%bind_Done_inv.
  destruct h; [|done]. injection Hfree as <-.
  eapply (destroy_slots_same_payload m); [|exact Hfold].
  intros m1 [= <-]. split; [apply same_payload_refl|done].
Qed.

Lemma ht_destroy_leaks h m σ' p it :
  ht_destroy h m = Done σ' → ht_items m !! p = Some (Live it) →
  ∃ it', σ' !! p = Some (Live it') ∧ hti_hash it' = hti_hash it ∧
         hti_data it' = hti_data it.
Proof.
  intros Hd Hp. eapply same_payload_Live; [|done].
  by apply (ht_destroy_same_payload h).
Qed.

(** * The claims *)

Lemma sample_reachable : reachable 4 sample.
Proof.
  eapply (run_reachable 4 _ sample_ops); [apply rtc_refl|].
  vm_compute. reflexivity.
Qed.

Lemma reachable_rep n m its :
  reachable n (m, its) → ∃ ls, rep m ls ∧ Forall (iter_ok m ls) its.
Proof. intros Hr. by apply reachable_inv in Hr. Qed.

(** C5 (round trip).  In every table a program reaches, if [ht_add(h, hash,
    value)] returns 0, then [ht_find(h, hash)] on the table it leaves returns
    [value]. *)
Theorem add_then_find n m its h v p m' :
  reachable n (m, its) → ht_items m !! p = None →
  ht_add m h v p = Done (m', Ret0) →
  ht_find m' h = Done v.
Proof.
  intros (ls & Hrep & _)%reachable_rep Hp Hadd. by eapply ht_add_ok_find.
Qed.

Lemma add_then_find_witness :
  reachable 4 (sample.1, sample.2) ∧
  ht_items sample.1 !! 5%positive = None ∧
  ht_add sample.1 13 113 5 = Done (table_after 4 (sample_ops ++ [OpAdd 13 113 5]), Ret0) ∧
  ht_find (table_after 4 (sample_ops ++ [OpAdd 13 113 5])) 13 = Done 113%N.
Proof.
  assert (reachable 4 (sample.1, sample.2)) as Hr by exact sample_reachable.
  assert (ht_items sample.1 !! 5%positive = None) as Hp by (vm_compute; reflexivity).
  assert (ht_add sample.1 13 113 5 =
          Done (table_after 4 (sample_ops ++ [OpAdd 13 113 5]), Ret0)) as Hadd
    by (vm_compute; reflexivity).
  split_and!; [done..|].
  exact (add_then_find 4 _ _ 13%N 113%N 5%positive _ Hr Hp Hadd).
Defined.

(** C6 (uniqueness).  After [ht_add(h, hash, v)] returned 0, a second
    [ht_add(h, hash, v2)] returns -1 with [errno = EEXIST] and leaves the
    table as it was, and [ht_find(h, hash)] still returns [v]. *)
Theorem add_twice_duplicate n m its h v p m1 v2 p2 :
  reachable n (m, its) → ht_items m !! p = None →
  ht_add m h v p = Done (m1, Ret0) →
  ht_add m1 h v2 p2 = Done (m1, RetErr EEXIST) ∧ ht_find m1 h = Done v.
Proof.
  intros (ls & Hrep & _)%reachable_rep Hp Hadd.
  split; [|by eapply ht_add_ok_find].
  pose proof (ht_add_Done _ _ _ _ _ Hadd) as Hn.
  destruct (ht_add_ok m ls h v p m1 Hrep Hp Hadd)
    as (l & it & Hl & Hf & Hrep' & Hn' & Hit & Hh & Hd & Hq).
  pose proof Hrep' as (_ & _ & Hb).
  eapply (ht_add_dup m1 _ h v2 p2 (l ++ [p]) p it Hrep'); [congruence| |].
  - rewrite Hn'. apply list_lookup_insert_eq. by eapply lookup_lt_Some.
  - destruct (rep_lookup m1 _ (N.to_nat (h mod N.of_nat (ht_nentries m))) Hrep')
      as (e & l' & He & Hl' & Hc & _ & _ & Hnd).
    { rewrite Hn'. by apply rep_slot_lt. }
    rewrite list_lookup_insert_eq in Hl' by (by eapply lookup_lt_Some).
    injection Hl' as <-. rewrite <- Hh.
    apply chain_find_self; try done.
    + intros q Hq'. by eapply is_chain_hash_at.
    + apply elem_of_app. right. by left.
Qed.

Lemma add_twice_duplicate_witness :
  reachable 4 (sample.1, sample.2) ∧
  ht_items sample.1 !! 5%positive = None ∧
  ht_add sample.1 13 113 5 = Done (table_after 4 (sample_ops ++ [OpAdd 13 113 5]), Ret0) ∧
  ht_add (table_after 4 (sample_ops ++ [OpAdd 13 113 5])) 13 77 6 =
    Done (table_after 4 (sample_ops ++ [OpAdd 13 113 5]), RetErr EEXIST) ∧
  ht_find (table_after 4 (sample_ops ++ [OpAdd 13 113 5])) 13 = Done 113%N.
Proof.
  assert (reachable 4 (sample.1, sample.2)) as Hr by exact sample_reachable.
  assert (ht_items sample.1 !! 5%positive = None) as Hp by (vm_compute; reflexivity).
  assert (ht_add sample.1 13 113 5 =
          Done (table_after 4 (sample_ops ++ [OpAdd 13 113 5]), Ret0)) as Hadd
    by (vm_compute; reflexivity).
  split_and!; [done..| |];
    apply (add_twice_duplicate 4 _ _ 13%N 113%N 5%positive _ 77%N 6%positive Hr Hp Hadd).
Defined.

(** C7 (remove).  After [ht_add(h, hash, v)] returned 0, [ht_remove(h, hash)]
    returns 0; after it [ht_find(h, hash)] returns [NULL] and a second
    [ht_remove(h, hash)] returns -1 with [errno = ENOENT] and leaves the
    table as it was. *)
Theorem add_remove_find n m its h v p m1 :
  reachable n (m, its) → ht_items m !! p = None →
  ht_add m h v p = Done (m1, Ret0) →
  ∃ m2, ht_remove m1 h = Done (m2, Ret0) ∧
        ht_find m2 h = Done NULL ∧
        ht_remove m2 h = Done (m2, RetErr ENOENT).
Proof.
  intros (ls & Hrep & _)%reachable_rep Hp Hadd.
  pose proof (ht_add_Done _ _ _ _ _ Hadd) as Hn.
  destruct (ht_add_ok m ls h v p m1 Hrep Hp Hadd)
    as (l & it & Hl & Hf & Hrep1 & Hn1 & Hit & Hh & Hd & Hq).
  set (i := N.to_nat (h mod N.of_nat (ht_nentries m))) in *.
  assert (i < length ls) as Hi by (by eapply lookup_lt_Some).
  assert (chain_find (ht_items m1) (l ++ [p]) h = Some (p, it)) as Hf1.
  { destruct (rep_lookup m1 _ i Hrep1) as (e & l' & He & Hl' & Hc & _ & _ & Hnd).
    { rewrite Hn1. by apply rep_slot_lt. }
    rewrite list_lookup_insert_eq in Hl' by done. injection Hl' as <-.
    rewrite <- Hh. apply chain_find_self; try done.
    - intros q Hq'. by eapply is_chain_hash_at.
    - apply elem_of_app. right. by left. }
  destruct (ht_remove_some m1 _ h (l ++ [p]) p it Hrep1) as [m2 Hrm]; try done.
  { congruence. }
  { rewrite Hn1. by apply list_lookup_insert_eq. }
  exists m2. split; [done|].
  destruct (ht_remove_ok m1 _ h m2 Hrep1 Hrm)
    as (l1 & p' & l2 & it' & Hl2 & _ & _ & Hrep2 & Hn2 & _ & _ & Hf2).
  assert (ht_nentries m2 ≠ 0) as Hn2' by congruence.
  assert (<[N.to_nat (h mod N.of_nat (ht_nentries m1)) := l1 ++ l2]> (<[i := l ++ [p]]> ls)
            !! N.to_nat (h mod N.of_nat (ht_nentries m2)) = Some (l1 ++ l2)) as Hl3.
  { rewrite Hn2. apply list_lookup_insert_eq. rewrite length_insert, Hn1. done. }
  split.
  - by eapply ht_find_none.
  - by eapply ht_remove_none.
Qed.

Lemma add_remove_find_witness :
  reachable 4 (sample.1, sample.2) ∧
  ht_items sample.1 !! 5%positive = None ∧
  ht_add sample.1 13 113 5 = Done (table_after 4 (sample_ops ++ [OpAdd 13 113 5]), Ret0) ∧
  ∃ m2, ht_remove (table_after 4 (sample_ops ++ [OpAdd 13 113 5])) 13 = Done (m2, Ret0) ∧
        ht_find m2 13 = Done NULL ∧
        ht_remove m2 13 = Done (m2, RetErr ENOENT).
Proof.
  assert (reachable 4 (sample.1, sample.2)) as Hr by exact sample_reachable.
  assert (ht_items sample.1 !! 5%positive = None) as Hp by (vm_compute; reflexivity).
  assert (ht_add sample.1 13 113 5 =
          Done (table_after 4 (sample_ops ++ [OpAdd 13 113 5]), Ret0)) as Hadd
    by (vm_compute; reflexivity).
  split_and!; [done..|].
  exact (add_remove_find 4 _ _ 13%N 113%N 5%positive _ Hr Hp Hadd).
Defined.

Lemma absent_chain_find m ls h l :
  rep m ls → ht_nentries m ≠ 0 →
  ls !! N.to_nat (h mod N.of_nat (ht_nentries m)) = Some l →
  absent m h → chain_find (ht_items m) l h = None.
Proof.
  intros Hrep Hn Hl Habs.
  destruct (chain_find (ht_items m) l h) as [[q itq]|] eqn:Hf; [|done].
  apply chain_find_Some in Hf as (Hq & Hitq & Hh).
  exfalso. apply (Habs (hti_data itq)).
  exists (N.to_nat (h mod N.of_nat (ht_nentries m))), q, itq.
  split_and!; try done. apply (resides_rep m ls); [done|]. eauto.
Qed.

Lemma ht_find_stored m ls h v :
  rep m ls → stored m h v → ht_find m h = Done v.
Proof.
  intros Hrep (i & q & it & Hres & Hit & <- & <-).
  destruct (proj1 (resides_rep _ _ _ _ Hrep) Hres) as (l & Hl & Hq).
  by eapply ht_find_member.
Qed.

Lemma ht_find_absent m ls h :
  rep m ls → ht_nentries m ≠ 0 → absent m h → ht_find m h = Done NULL.
Proof.
  intros Hrep Hn Habs.
  destruct (rep_lookup m ls _ Hrep (rep_slot_lt m h Hn)) as (e & l & _ & Hl & _).
  eapply ht_find_none; try done. by eapply absent_chain_find.
Qed.

(** C9 (a stored [NULL]).  In a table a program reaches, [ht_add(h, hash,
    NULL)] of a hash that is not there returns 0 and leaves the hash stored
    with value [NULL].  For every hash stored with [NULL], [ht_find] returns
    [NULL], and that is what it returns for every hash that is not in the
    table. *)
Theorem null_value_looks_absent n m its :
  reachable n (m, its) → 0 < n →
  (∀ h p, ht_items m !! p = None → absent m h →
     ∃ m1, ht_add m h NULL p = Done (m1, Ret0) ∧ stored m1 h NULL ∧
           ht_find m1 h = Done NULL) ∧
  (∀ h, stored m h NULL → ht_find m h = Done NULL) ∧
  (∀ h, absent m h → ht_find m h = Done NULL).
Proof.
  intros Hr Hn.
  pose proof (reachable_nentries _ _ Hr) as Hnm. simpl in Hnm.
  apply reachable_rep in Hr as (ls & Hrep & _).
  assert (ht_nentries m ≠ 0) as Hn' by lia.
  split_and!.
  - intros h p Hp Habs.
    destruct (ht_add_rep m ls h NULL p Hrep Hn' Hp) as (l & Hl & Hcase).
    rewrite (absent_chain_find m ls h l) in Hcase by done.
    destruct Hcase as (m1 & it & Hadd & Hrep1 & Hn1 & Hit & Hh & Hd & Hq).
    exists m1. split_and!; [done| |].
    + exists (N.to_nat (h mod N.of_nat (ht_nentries m))), p, it.
      split_and!; try done. apply (resides_rep m1 _ _ _ Hrep1).
      exists (l ++ [p]). split.
      * apply list_lookup_insert_eq. by eapply lookup_lt_Some.
      * apply elem_of_app. right. by left.
    + exact (ht_add_ok_find m ls h NULL p m1 Hrep Hp Hadd).
  - intros h. by apply (ht_find_stored m ls).
  - intros h. by eapply ht_find_absent.
Qed.

Lemma null_value_looks_absent_witness :
  reachable 4 (sample.1, sample.2) ∧ 0 < 4 ∧
  (∀ h p, ht_items sample.1 !! p = None → absent sample.1 h →
     ∃ m1, ht_add sample.1 h NULL p = Done (m1, Ret0) ∧ stored m1 h NULL ∧
           ht_find m1 h = Done NULL) ∧
  (∀ h, stored sample.1 h NULL → ht_find sample.1 h = Done NULL) ∧
  (∀ h, absent sample.1 h → ht_find sample.1 h = Done NULL).
Proof.
  assert (reachable 4 (sample.1, sample.2)) as Hr by exact sample_reachable.
  assert (0 < 4) as Hn by lia.
  split_and!; [done..| | |]; apply (null_value_looks_absent 4 _ _ Hr Hn).
Defined.

Lemma sample2_reachable : reachable 4 sample2.
Proof.
  eapply (run_reachable 4 _ sample2_ops); [apply rtc_refl|].
  vm_compute. reflexivity.
Qed.

(** C10 (the cursor after a removal).  When [ht_remove_at_iter] returns 0 it
    has not touched the iterator: the cursor still is the node that was in
    the chain, and that node is now freed and in no chain of the table.  The
    next [ht_next] on the iterator reads that freed node. *)
Theorem remove_at_iter_leaves_dangling_cursor n m its k it m' it' :
  reachable n (m, its) → its !! k = Some it →
  ht_remove_at_iter m it = Done (m', it', Ret0) →
  it' = it ∧
  ∃ c, htit_cursor it' = Some c ∧
       resides m (htit_slot it) c ∧
       ht_items m' !! c = Some Freed ∧
       (∀ i, ¬ resides m' i c) ∧
       ht_next m' it' = Abort (UseAfterFree c).
Proof.
  intros (ls & Hrep & Hits)%reachable_rep Hk Hrm.
  pool_iter Hits Hk Hit.
  destruct (htit_cursor it) as [c|] eqn:Hc; cycle 1.
  { unfold ht_remove_at_iter in Hrm. rewrite Hc in Hrm. congruence. }
  destruct (ht_remove_at_iter_rep m ls it c Hrep Hit Hc)
    as [[_ Hab]|(l1 & l2 & m2 & Hl & Hrm' & Hrep' & Hn' & Hp & Hq)]; [congruence|].
  rewrite Hrm' in Hrm. injection Hrm as <- <-.
  split; [done|]. exists c. split_and!; try done.
  - apply (resides_rep m ls); [done|]. exists (l1 ++ c :: l2). split; [done|].
    apply elem_of_app. right. by left.
  - intros i (l & Hl' & Hin)%(resides_rep _ _ _ _ Hrep').
    destruct (rep_live _ _ _ _ _ Hrep' Hl' Hin). congruence.
  - destruct Hit as (Hle & Hend & _).
    rewrite ht_next_unfold by lia. rewrite Hn', Hc.
    rewrite decide_False.
    + unfold load. by rewrite Hp.
    + intros Heq. specialize (Hend Heq). congruence.
Qed.

Lemma remove_at_iter_leaves_dangling_cursor_witness :
  reachable 4 (sample2.1, sample2.2) ∧
  sample2.2 !! 0 = Some (mk_iter 0 (Some 2%positive)) ∧
  ht_remove_at_iter sample2.1 (mk_iter 0 (Some 2%positive)) =
    Done (table_after 4 (sample2_ops ++ [OpRemoveAtIter 0]),
          mk_iter 0 (Some 2%positive), Ret0) ∧
  mk_iter 0 (Some 2%positive) = mk_iter 0 (Some 2%positive) ∧
  ∃ c, htit_cursor (mk_iter 0 (Some 2%positive)) = Some c ∧
       resides sample2.1 (htit_slot (mk_iter 0 (Some 2%positive))) c ∧
       ht_items (table_after 4 (sample2_ops ++ [OpRemoveAtIter 0])) !! c = Some Freed ∧
       (∀ i, ¬ resides (table_after 4 (sample2_ops ++ [OpRemoveAtIter 0])) i c) ∧
       ht_next (table_after 4 (sample2_ops ++ [OpRemoveAtIter 0]))
               (mk_iter 0 (Some 2%positive)) = Abort (UseAfterFree c).
Proof.
  assert (reachable 4 (sample2.1, sample2.2)) as Hr by exact sample2_reachable.
  assert (sample2.2 !! 0 = Some (mk_iter 0 (Some 2%positive))) as Hk
    by (vm_compute; reflexivity).
  assert (ht_remove_at_iter sample2.1 (mk_iter 0 (Some 2%positive)) =
    Done (table_after 4 (sample2_ops ++ [OpRemoveAtIter 0]),
          mk_iter 0 (Some 2%positive), Ret0)) as Hrm by (vm_compute; reflexivity).
  split_and!; [done..| |];
    apply (remove_at_iter_leaves_dangling_cursor 4 _ _ 0 _ _ _ Hr Hk Hrm).
Defined.

(** C8, on the code.  The calls [ht_add(0)], [ht_add(4)], [ht_iter],
    [ht_next], [ht_remove_at_iter] leave the iterator with the freed node of
    hash 4 as its cursor.  The next [ht_add], of hash 1, gets the freed block
    again from the allocator, and the node of hash 1 goes into bucket 1.  A
    second [ht_remove_at_iter] on the iterator returns 0: it unlinks that
    node with the head of bucket 0, which leaves the tail pointer of bucket 0
    on the head of bucket 1.  [ht_add] of hash 8 then returns 0 and links its
    node into the chain of bucket 1, though 8 modulo 4 is 0; it is in no
    other chain, and [ht_find] of hash 8 returns [NULL].  A second [ht_add]
    of hash 8 returns 0 as well: the chain of bucket 1 holds two nodes of
    hash 8. *)
Theorem stale_cursor_breaks_invariants :
  run (ht_init 4, []) stale_ops = Some stale ∧
  reachable 4 stale ∧
  stale.2 = [mk_iter 0 (Some 2%positive)] ∧
  ht_items stale.1 !! 2%positive = Some Freed ∧
  ∃ m2 m3 m4 m5,
    ht_add stale.1 1 11 2 = Done (m2, Ret0) ∧
    ht_remove_at_iter m2 (mk_iter 0 (Some 2%positive))
      = Done (m3, mk_iter 0 (Some 2%positive), Ret0) ∧
    ht_add m3 8 18 3 = Done (m4, Ret0) ∧
    ht_nentries m4 = 4 ∧
    ht_find m4 8 = Done NULL ∧
    ht_items m4 !! 3%positive = Some (Live (mk_item 8%N 18%N None (LHead 1))) ∧
    N.to_nat (8%N mod N.of_nat (ht_nentries m4)) = 0 ∧
    resides m4 1 3%positive ∧ ¬ resides m4 0 3%positive ∧
    ht_add m4 8 28 4 = Done (m5, Ret0) ∧
    resides m5 1 3%positive ∧ resides m5 1 4%positive ∧
    hash_at (ht_items m5) 3%positive = Some 8%N ∧
    hash_at (ht_items m5) 4%positive = Some 8%N.
Proof.
  split_and!; try (vm_compute; reflexivity).
  { eapply (run_reachable 4 _ stale_ops); [apply rtc_refl|].
    vm_compute. reflexivity. }
  eexists _, _, _, _. split_and!; try (vm_compute; reflexivity).
  - eexists. split; [vm_compute; reflexivity|]. apply linked_here.
  - intros (e & He & Hl). vm_compute in He. injection He as <-.
    cbn [tqh_first] in Hl. inversion Hl as [|q it p Hq Hnx]; subst.
    vm_compute in Hq. injection Hq as <-. cbn [tqe_next] in Hnx. inversion Hnx.
  - eexists. split; [vm_compute; reflexivity|]. apply linked_here.
  - eexists. split; [vm_compute; reflexivity|].
    eapply linked_next; [vm_compute; reflexivity|]. apply linked_here.
Qed.

Lemma sample3_reachable : reachable 4 sample3.
Proof.
  eapply (run_reachable 4 _ sample3_ops); [apply rtc_refl|].
  vm_compute. reflexivity.
Qed.

(** C3, on the code.  Bucket 0 holds the hashes 0 and 4.  The iterator
    [ht_iter] makes has the first node of bucket 0 as its cursor, so the
    check [htit_cursor == NULL] of [ht_remove_at_iter] does not see that no
    [ht_next] has been called: the call does not return -1 with the table
    as it was, it returns 0 and removes the entry of hash 0. *)
Lemma fresh_iterator_removes_first_entry :
  reachable 4 (sample3.1, sample3.2) ∧
  ht_iter sample3.1 = Done (mk_iter 0 (Some 1%positive)) ∧
  sample3.2 = [mk_iter 0 (Some 1%positive)] ∧
  ht_find sample3.1 0 = Done 10%N ∧
  ht_remove_at_iter sample3.1 (mk_iter 0 (Some 1%positive)) ≠
    Done (sample3.1, mk_iter 0 (Some 1%positive), RetErr EINVAL) ∧
  ∃ m', ht_remove_at_iter sample3.1 (mk_iter 0 (Some 1%positive)) =
          Done (m', mk_iter 0 (Some 1%positive), Ret0) ∧
        ht_find m' 0 = Done NULL.
Proof.
  split; [exact sample3_reachable|].
  split_and!; try (vm_compute; reflexivity).
  - vm_compute. discriminate.
  - eexists. split; vm_compute; reflexivity.
Qed.

(** [ht_next] returns the stored value, so for an entry stored with [NULL]
    it returns [NULL] in the middle of a chain; the iterator is not at the
    end then, its cursor is a node, and [ht_remove_at_iter] returns 0.  Being
    at the end is [htit_slot = ht_nentries], not the [NULL] result. *)
Lemma null_value_is_not_the_end :
  ht_iter (table_after 4 [OpAdd 0 0 1; OpAdd 4 14 2]) = Done (mk_iter 0 (Some 1%positive)) ∧
  ht_next (table_after 4 [OpAdd 0 0 1; OpAdd 4 14 2]) (mk_iter 0 (Some 1%positive))
    = Done (mk_iter 0 (Some 2%positive), NULL) ∧
  ∃ m', ht_remove_at_iter (table_after 4 [OpAdd 0 0 1; OpAdd 4 14 2])
                          (mk_iter 0 (Some 2%positive))
          = Done (m', mk_iter 0 (Some 2%positive), Ret0).
Proof.
  split_and!; try (vm_compute; reflexivity).
  eexists. vm_compute. reflexivity.
Qed.

(** C1, on the code.  Four hashes in buckets 1 and 2: all four are found,
    and a whole iteration returns nothing, because bucket 0 is empty and
    [ht_next] never loads the head of another bucket.  With three hashes in
    bucket 0 and one in bucket 1 the iteration returns the first two values
    only: the last node of bucket 0 is dropped, and bucket 1 is not
    visited. *)
Theorem iteration_misses_entries :
  (ht_find (table_after 4 [OpAdd 1 11 1; OpAdd 5 15 2; OpAdd 9 19 3; OpAdd 2 12 4]) <$>
     [1; 5; 9; 2]%N) = [Done 11; Done 15; Done 19; Done 12]%N ∧
  full_iteration (table_after 4 [OpAdd 1 11 1; OpAdd 5 15 2; OpAdd 9 19 3; OpAdd 2 12 4])
    = Done [] ∧
  (ht_find (table_after 4 [OpAdd 0 10 1; OpAdd 4 14 2; OpAdd 8 18 3; OpAdd 1 11 4]) <$>
     [0; 4; 8; 1]%N) = [Done 10; Done 14; Done 18; Done 11]%N ∧
  full_iteration (table_after 4 [OpAdd 0 10 1; OpAdd 4 14 2; OpAdd 8 18 3; OpAdd 1 11 4])
    = Done [10; 14]%N.
Proof. split_and!; vm_compute; reflexivity. Qed.

(** C2, on the code.  Bucket 0 holds the hashes 0 and 4.  [ht_next] returns
    the value of hash 0 and leaves the cursor on the node of hash 4;
    [ht_remove_at_iter] then returns 0 and removes that node: hash 4 is
    gone, hash 0, the entry [ht_next] returned, is still there. *)
Theorem remove_at_iter_removes_next_entry :
  ht_iter (table_after 4 [OpAdd 0 10 1; OpAdd 4 14 2]) = Done (mk_iter 0 (Some 1%positive)) ∧
  ht_next (table_after 4 [OpAdd 0 10 1; OpAdd 4 14 2]) (mk_iter 0 (Some 1%positive))
    = Done (mk_iter 0 (Some 2%positive), 10%N) ∧
  ∃ m', ht_remove_at_iter (table_after 4 [OpAdd 0 10 1; OpAdd 4 14 2])
                          (mk_iter 0 (Some 2%positive))
          = Done (m', mk_iter 0 (Some 2%positive), Ret0) ∧
        ht_find m' 0 = Done 10%N ∧
        ht_find m' 4 = Done NULL.
Proof.
  split_and!; try (vm_compute; reflexivity).
  eexists. split_and!; vm_compute; reflexivity.
Qed.

(** C4, on the code.  Four buckets, eight entries, two in every bucket, the
    [struct ht] itself a block from [malloc]: eight node blocks are allocated
    before [ht_destroy], and the same eight are allocated after it.
    [ht_destroy] unlinks all nodes but the first of every chain and frees
    none. *)
Theorem destroy_frees_no_node :
  live_count (ht_items (table_after 4
     [OpAdd 0 10 1; OpAdd 1 11 2; OpAdd 2 12 3; OpAdd 3 13 4;
      OpAdd 4 14 5; OpAdd 5 15 6; OpAdd 6 16 7; OpAdd 7 17 8])) = 8 ∧
  ∃ σ', ht_destroy Malloced (table_after 4
     [OpAdd 0 10 1; OpAdd 1 11 2; OpAdd 2 12 3; OpAdd 3 13 4;
      OpAdd 4 14 5; OpAdd 5 15 6; OpAdd 6 16 7; OpAdd 7 17 8]) = Done σ' ∧
        live_count σ' = 8 ∧
        dom σ' = dom (ht_items (table_after 4
     [OpAdd 0 10 1; OpAdd 1 11 2; OpAdd 2 12 3; OpAdd 3 13 4;
      OpAdd 4 14 5; OpAdd 5 15 6; OpAdd 6 16 7; OpAdd 7 17 8])).
Proof.
  split; [vm_compute; reflexivity|].
  eexists. split_and!; vm_compute; reflexivity.
Qed.

(** * More on the functions *)

(** ** What is stored *)

Lemma stored_rep m ls h v :
  rep m ls →
  stored m h v ↔
  ∃ i l p it, ls !! i = Some l ∧ p ∈ l ∧ ht_items m !! p = Some (Live it) ∧
              hti_hash it = h ∧ hti_data it = v.
Proof.
  intros Hrep. split.
  - intros (i & p & it & Hres & Hit & Hh & Hd).
    apply (resides_rep m ls) in Hres as (l & Hl & Hin); [|done].
    by exists i, l, p, it.
  - intros (i & l & p & it & Hl & Hin & Hit & Hh & Hd).
    exists i, p, it. split_and!; try done. apply (resides_rep m ls); eauto.
Qed.

(** In a table that holds [ls], a hash is found in the chain of its slot or
    nowhere. *)
Lemma stored_chain_find m ls h v :
  rep m ls → ht_nentries m ≠ 0 →
  stored m h v ↔
  ∃ l p it, ls !! N.to_nat (h mod N.of_nat (ht_nentries m)) = Some l ∧
            chain_find (ht_items m) l h = Some (p, it) ∧ hti_data it = v.
Proof.
  intros Hrep Hn. split.
  - intros (i & l & p & it & Hl & Hin & Hit & Hh & Hd)%(stored_rep m ls); [|done].
    assert (i < ht_nentries m) as Hi.
    { destruct Hrep as (_ & <- & _). by eapply lookup_lt_Some. }
    destruct (rep_lookup m ls i Hrep Hi) as (e & l' & He & Hl' & Hc & _ & Hslot & Hnd).
    assert (l' = l) as -> by congruence.
    exists l, p, it. split_and!; [|subst h|done].
    + rewrite (Hslot p h Hin); [done|]. by rewrite (hash_at_Live _ _ _ Hit), Hh.
    + apply chain_find_self; try done. intros q Hq. by eapply is_chain_hash_at.
  - intros (l & p & it & Hl & (Hin & Hit & Hh)%chain_find_Some & Hd).
    apply (stored_rep m ls); [done|].
    by exists (N.to_nat (h mod N.of_nat (ht_nentries m))), l, p, it.
Qed.

Lemma stored_or_absent m ls h :
  rep m ls → ht_nentries m ≠ 0 → absent m h ∨ ∃ v, stored m h v.
Proof.
  intros Hrep Hn.
  destruct (rep_lookup m ls _ Hrep (rep_slot_lt m h Hn)) as (e & l & _ & Hl & _).
  destruct (chain_find (ht_items m) l h) as [[p it]|] eqn:Hf.
  - right. exists (hti_data it). apply (stored_chain_find m ls); [done..|].
    by exists l, p, it.
  - left. intros v (l' & p & it & Hl' & Hf' & _)%(stored_chain_find m ls); [|done..].
    congruence.
Qed.

Lemma stored_functional m ls h v v' :
  rep m ls → stored m h v → stored m h v' → v = v'.
Proof.
  intros Hrep Hs Hs'.
  assert (ht_nentries m ≠ 0) as Hn.
  { destruct Hs as (i & p & it & (e & He & _) & _).
    destruct Hrep as (<- & _). apply lookup_lt_Some in He. lia. }
  apply (stored_chain_find m ls) in Hs as (l & p & it & Hl & Hf & Hd); [|done..].
  apply (stored_chain_find m ls) in Hs' as (l' & p' & it' & Hl' & Hf' & Hd'); [|done..].
  congruence.
Qed.

Lemma erase_payload (x y : option block) it :
  erase <$> x = erase <$> y → x = Some (Live it) →
  ∃ it', y = Some (Live it') ∧ hti_hash it' = hti_hash it ∧ hti_data it' = hti_data it.
Proof.
  intros H ->. destruct y as [[it'|]|]; simpl in H; [|done..].
  exists it'. split; [done|]. by injection H as -> ->.
Qed.

(** Two nodes of a table with the same hash are one node. *)
Lemma rep_hash_inj m ls i j li lj p q itp itq :
  rep m ls → ls !! i = Some li → ls !! j = Some lj → p ∈ li → q ∈ lj →
  ht_items m !! p = Some (Live itp) → ht_items m !! q = Some (Live itq) →
  hti_hash itp = hti_hash itq → p = q.
Proof.
  intros Hrep Hi Hj Hp Hq Hitp Hitq Hh.
  assert (i < ht_nentries m) as Hilt.
  { destruct Hrep as (_ & <- & _). by eapply lookup_lt_Some. }
  assert (j < ht_nentries m) as Hjlt.
  { destruct Hrep as (_ & <- & _). by eapply lookup_lt_Some. }
  destruct (rep_lookup m ls i Hrep Hilt) as (ei & li' & _ & Hi' & _ & _ & Hsi & Hnd).
  destruct (rep_lookup m ls j Hrep Hjlt) as (ej & lj' & _ & Hj' & _ & _ & Hsj & _).
  assert (li' = li) as -> by congruence. assert (lj' = lj) as -> by congruence.
  assert (i = j) as <-.
  { rewrite <- (Hsi p _ Hp (hash_at_Live _ _ _ Hitp)).
    rewrite <- (Hsj q _ Hq (hash_at_Live _ _ _ Hitq)). by rewrite Hh. }
  assert (lj = li) as -> by congruence.
  apply list_elem_of_lookup_1 in Hp as [a Ha].
  apply list_elem_of_lookup_1 in Hq as [b Hb].
  assert (a = b); [|congruence].
  eapply (NoDup_lookup _ a b (Some (hti_hash itp)) Hnd).
  - rewrite list_lookup_fmap, Ha. simpl. by rewrite (hash_at_Live _ _ _ Hitp).
  - rewrite list_lookup_fmap, Hb. simpl. by rewrite (hash_at_Live _ _ _ Hitq), Hh.
Qed.

(** What is stored after a node has been appended to its chain. *)
Lemma stored_append m m' ls i l p it :
  rep m ls → rep m' (<[i := l ++ [p]]> ls) → ls !! i = Some l →
  ht_items m !! p = None → ht_items m' !! p = Some (Live it) →
  (∀ q, q ≠ p → erase <$> ht_items m' !! q = erase <$> ht_items m !! q) →
  ∀ h' v', stored m' h' v' ↔ stored m h' v' ∨ (h' = hti_hash it ∧ v' = hti_data it).
Proof.
  intros Hrep Hrep' Hl Hp Hit Hq h' v'.
  assert (i < length ls) as Hi by (by eapply lookup_lt_Some).
  rewrite (stored_rep m' _ h' v' Hrep'), (stored_rep m ls h' v' Hrep). split.
  - intros (j & l' & q & itq & Hl' & Hin & Hitq & Hh & Hd).
    destruct (decide (q = p)) as [->|Hqp].
    { right. assert (itq = it) as -> by congruence. done. }
    left. destruct (erase_payload _ _ _ (Hq q Hqp) Hitq) as (it0 & Hit0 & Hh0 & Hd0).
    destruct (decide (j = i)) as [->|Hne].
    + rewrite list_lookup_insert_eq in Hl' by done. injection Hl' as <-.
      exists i, l, q, it0. split_and!; try congruence.
      apply elem_of_app in Hin as [Hin|Hin]; [done|].
      by apply list_elem_of_singleton in Hin.
    + rewrite list_lookup_insert_ne in Hl' by done.
      exists j, l', q, it0. split_and!; congruence.
  - intros [(j & l' & q & itq & Hl' & Hin & Hitq & Hh & Hd)|[-> ->]].
    + assert (q ≠ p) as Hqp by congruence.
      destruct (erase_payload _ _ _ (eq_sym (Hq q Hqp)) Hitq)
        as (it0 & Hit0 & Hh0 & Hd0).
      destruct (decide (j = i)) as [->|Hne].
      * exists i, (l ++ [p]), q, it0. rewrite list_lookup_insert_eq by done.
        split_and!; try congruence. apply elem_of_app. left. congruence.
      * exists j, l', q, it0. rewrite list_lookup_insert_ne by done.
        split_and!; congruence.
    + exists i, (l ++ [p]), p, it. rewrite list_lookup_insert_eq by done.
      split_and!; try done. apply elem_of_app. right. by left.
Qed.

(** What is stored after a node has been unlinked from its chain and
    freed. *)
Lemma stored_unlink m m' ls i l1 p l2 itp :
  rep m ls → rep m' (<[i := l1 ++ l2]> ls) → ls !! i = Some (l1 ++ p :: l2) →
  ht_items m !! p = Some (Live itp) → ht_items m' !! p = Some Freed →
  (∀ q, q ≠ p → erase <$> ht_items m' !! q = erase <$> ht_items m !! q) →
  ∀ h' v', stored m' h' v' ↔ stored m h' v' ∧ h' ≠ hti_hash itp.
Proof.
  intros Hrep Hrep' Hl Hp Hp' Hq h' v'.
  assert (i < length ls) as Hi by (by eapply lookup_lt_Some).
  assert (p ∈ l1 ++ p :: l2) as Hpin by (apply elem_of_app; right; by left).
  rewrite (stored_rep m' _ h' v' Hrep'), (stored_rep m ls h' v' Hrep). split.
  - intros (j & l' & q & itq & Hl' & Hin & Hitq & Hh & Hd).
    assert (q ≠ p) as Hqp by congruence.
    destruct (erase_payload _ _ _ (Hq q Hqp) Hitq) as (it0 & Hit0 & Hh0 & Hd0).
    assert (∃ l0, ls !! j = Some l0 ∧ q ∈ l0) as (l0 & Hl0 & Hin0).
    { destruct (decide (j = i)) as [->|Hne].
      - rewrite list_lookup_insert_eq in Hl' by done. injection Hl' as <-.
        exists (l1 ++ p :: l2). split; [done|].
        apply elem_of_app in Hin as [?|?]; apply elem_of_app; [by left|right; by right].
      - rewrite list_lookup_insert_ne in Hl' by done. eauto. }
    split.
    + exists j, l0, q, it0. split_and!; congruence.
    + intros Heq. apply Hqp.
      eapply (rep_hash_inj m ls j i l0 _ q p it0 itp); try done. congruence.
  - intros [(j & l0 & q & itq & Hl0 & Hin & Hitq & Hh & Hd) Hne].
    assert (q ≠ p) as Hqp by congruence.
    destruct (erase_payload _ _ _ (eq_sym (Hq q Hqp)) Hitq) as (it0 & Hit0 & Hh0 & Hd0).
    destruct (decide (j = i)) as [->|Hji].
    + exists i, (l1 ++ l2), q, it0. rewrite list_lookup_insert_eq by done.
      split_and!; try congruence.
      assert (l0 = l1 ++ p :: l2) as -> by congruence.
      apply elem_of_app in Hin as [Hin|Hin]; [apply elem_of_app; by left|].
      apply elem_of_cons in Hin as [Hin|Hin]; [done|]. apply elem_of_app. by right.
    + exists j, l0, q, it0. rewrite list_lookup_insert_ne by done.
      split_and!; congruence.
Qed.

Lemma stored_add m ls h v p m' :
  rep m ls → ht_items m !! p = None → ht_add m h v p = Done (m', Ret0) →
  absent m h ∧
  ∀ h' v', stored m' h' v' ↔ stored m h' v' ∨ (h' = h ∧ v' = v).
Proof.
  intros Hrep Hp Hadd.
  pose proof (ht_add_Done _ _ _ _ _ Hadd) as Hn.
  destruct (ht_add_ok m ls h v p m' Hrep Hp Hadd)
    as (l & it & Hl & Hf & Hrep' & Hn' & Hit & <- & <- & Hq).
  split.
  - intros v0 (l' & q & itq & Hl' & Hf' & _)%(stored_chain_find m ls); [|done..].
    congruence.
  - by eapply stored_append.
Qed.

Lemma stored_remove m ls h m' :
  rep m ls → ht_remove m h = Done (m', Ret0) →
  (∃ v, stored m h v) ∧
  ∀ h' v', stored m' h' v' ↔ stored m h' v' ∧ h' ≠ h.
Proof.
  intros Hrep Hrm.
  pose proof (ht_remove_Done _ _ _ Hrm) as Hn.
  destruct (ht_remove_ok m ls h m' Hrep Hrm)
    as (l1 & p & l2 & it & Hl & Hit & <- & Hrep' & Hn' & Hp & Hq & _).
  split.
  - exists (hti_data it). apply (stored_rep m ls); [done|].
    exists (N.to_nat (hti_hash it mod N.of_nat (ht_nentries m))), (l1 ++ p :: l2), p, it.
    split_and!; try done. apply elem_of_app. right. by left.
  - by eapply stored_unlink.
Qed.

Lemma reachable_nonzero n m its : reachable n (m, its) → 0 < n → ht_nentries m ≠ 0.
Proof. intros Hr Hn. pose proof (reachable_nentries _ _ Hr) as H. simpl in H. lia. Qed.

(** [ht_add] of a hash that is not stored goes through. *)
Lemma ht_add_absent m ls h v p :
  rep m ls → ht_nentries m ≠ 0 → ht_items m !! p = None → absent m h →
  ∃ m', ht_add m h v p = Done (m', Ret0).
Proof.
  intros Hrep Hn Hp Habs.
  destruct (ht_add_rep m ls h v p Hrep Hn Hp) as (l & Hl & Hcase).
  rewrite (absent_chain_find m ls h l) in Hcase by done.
  destruct Hcase as (m' & it & Hadd & _). eauto.
Qed.

(** [ht_remove] of a hash that is stored goes through. *)
Lemma ht_remove_stored m ls h v0 :
  rep m ls → ht_nentries m ≠ 0 → stored m h v0 →
  ∃ m', ht_remove m h = Done (m', Ret0).
Proof.
  intros Hrep Hn (l & q & itq & Hl & Hf & _)%(stored_chain_find m ls); [|done..].
  by eapply ht_remove_some.
Qed.

(** X1.  [ht_find] returns the value stored under the hash, and there is at
    most one; for a hash that is not stored it returns [NULL]; a result other
    than [NULL] is a stored value. *)
Theorem find_spec n m its h :
  reachable n (m, its) → 0 < n →
  (∀ v, stored m h v → ht_find m h = Done v) ∧
  (∀ v v', stored m h v → stored m h v' → v = v') ∧
  (absent m h → ht_find m h = Done NULL) ∧
  (∀ v, ht_find m h = Done v → v ≠ NULL → stored m h v).
Proof.
  intros Hr Hn. pose proof (reachable_nonzero _ _ _ Hr Hn) as Hn'.
  apply reachable_rep in Hr as (ls & Hrep & _). split_and!.
  - intros v. by apply (ht_find_stored m ls).
  - intros v v'. by apply (stored_functional m ls).
  - by apply (ht_find_absent m ls).
  - intros v Hf Hv. destruct (stored_or_absent m ls h Hrep Hn') as [Habs|[v0 Hs]].
    + rewrite (ht_find_absent m ls h Hrep Hn' Habs) in Hf. congruence.
    + rewrite (ht_find_stored m ls h v0 Hrep Hs) in Hf. congruence.
Qed.

Lemma find_spec_witness :
  reachable 4 (sample.1, sample.2) ∧ 0 < 4 ∧
  (∀ v, stored sample.1 5 v → ht_find sample.1 5 = Done v) ∧
  (∀ v v', stored sample.1 5 v → stored sample.1 5 v' → v = v') ∧
  (absent sample.1 5 → ht_find sample.1 5 = Done NULL) ∧
  (∀ v, ht_find sample.1 5 = Done v → v ≠ NULL → stored sample.1 5 v).
Proof.
  assert (reachable 4 (sample.1, sample.2)) as Hr by exact sample_reachable.
  assert (0 < 4) as Hn by lia.
  split_and!; [done..| | | |]; apply (find_spec 4 _ _ 5%N Hr Hn).
Defined.

(** X2.  [ht_add] of a hash that is not stored returns 0 and adds exactly the
    pair (hash, value): everything else that is stored stays, nothing else
    comes.  [ht_add] of a hash that is stored returns -1 with
    [errno = EEXIST] and the table as it was. *)
Theorem add_spec n m its h v p :
  reachable n (m, its) → 0 < n → ht_items m !! p = None →
  (absent m h →
     ∃ m', ht_add m h v p = Done (m', Ret0) ∧
           ∀ h' v', stored m' h' v' ↔ stored m h' v' ∨ (h' = h ∧ v' = v)) ∧
  (∀ v0, stored m h v0 → ht_add m h v p = Done (m, RetErr EEXIST)).
Proof.
  intros Hr Hn Hp. pose proof (reachable_nonzero _ _ _ Hr Hn) as Hn'.
  apply reachable_rep in Hr as (ls & Hrep & _). split.
  - intros Habs.
    destruct (ht_add_absent m ls h v p Hrep Hn' Hp Habs) as [m' Hadd].
    exists m'. split; [done|]. by apply (stored_add m ls h v p m').
  - intros v0 (l & q & itq & Hl & Hf & _)%(stored_chain_find m ls); [|done..].
    by eapply ht_add_dup.
Qed.

Lemma add_spec_witness :
  reachable 4 (sample.1, sample.2) ∧ 0 < 4 ∧ ht_items sample.1 !! 5%positive = None ∧
  (absent sample.1 13 →
     ∃ m', ht_add sample.1 13 113 5 = Done (m', Ret0) ∧
           ∀ h' v', stored m' h' v' ↔ stored sample.1 h' v' ∨ (h' = 13%N ∧ v' = 113%N)) ∧
  (∀ v0, stored sample.1 13 v0 →
     ht_add sample.1 13 113 5 = Done (sample.1, RetErr EEXIST)).
Proof.
  assert (reachable 4 (sample.1, sample.2)) as Hr by exact sample_reachable.
  assert (0 < 4) as Hn by lia.
  assert (ht_items sample.1 !! 5%positive = None) as Hp by (vm_compute; reflexivity).
  split_and!; [done..| |]; apply (add_spec 4 _ _ 13%N 113%N 5%positive Hr Hn Hp).
Defined.

(** X3.  [ht_remove] of a hash that is stored returns 0 and removes exactly
    that hash: every other stored pair stays.  [ht_remove] of a hash that is
    not stored returns -1 with [errno = ENOENT] and the table as it was. *)
Theorem remove_spec n m its h :
  reachable n (m, its) → 0 < n →
  (∀ v0, stored m h v0 →
     ∃ m', ht_remove m h = Done (m', Ret0) ∧
           ∀ h' v', stored m' h' v' ↔ stored m h' v' ∧ h' ≠ h) ∧
  (absent m h → ht_remove m h = Done (m, RetErr ENOENT)).
Proof.
  intros Hr Hn. pose proof (reachable_nonzero _ _ _ Hr Hn) as Hn'.
  apply reachable_rep in Hr as (ls & Hrep & _). split.
  - intros v0 Hs.
    destruct (ht_remove_stored m ls h v0 Hrep Hn' Hs) as [m' Hrm].
    exists m'. split; [done|]. by apply (stored_remove m ls h m').
  - intros Habs.
    destruct (rep_lookup m ls _ Hrep (rep_slot_lt m h Hn')) as (e & l & _ & Hl & _).
    eapply ht_remove_none; try done. by eapply absent_chain_find.
Qed.

Lemma remove_spec_witness :
  reachable 4 (sample.1, sample.2) ∧ 0 < 4 ∧
  (∀ v0, stored sample.1 5 v0 →
     ∃ m', ht_remove sample.1 5 = Done (m', Ret0) ∧
           ∀ h' v', stored m' h' v' ↔ stored sample.1 h' v' ∧ h' ≠ 5%N) ∧
  (absent sample.1 5 → ht_remove sample.1 5 = Done (sample.1, RetErr ENOENT)).
Proof.
  assert (reachable 4 (sample.1, sample.2)) as Hr by exact sample_reachable.
  assert (0 < 4) as Hn by lia.
  split_and!; [done..| |]; apply (remove_spec 4 _ _ 5%N Hr Hn).
Defined.

(** X4.  [ht_add] and then [ht_remove] of the same hash leave stored what
    was stored before. *)
Theorem add_remove_restores n m its h v p m1 :
  reachable n (m, its) → ht_items m !! p = None →
  ht_add m h v p = Done (m1, Ret0) →
  ∃ m2, ht_remove m1 h = Done (m2, Ret0) ∧
        ∀ h' v', stored m2 h' v' ↔ stored m h' v'.
Proof.
  intros Hr Hp Hadd.
  assert (reachable n (m1, its)) as Hr1.
  { eapply rtc_r; [exact Hr|]. by eapply step_add. }
  pose proof (ht_add_Done _ _ _ _ _ Hadd) as Hn.
  pose proof (reachable_nentries _ _ Hr) as Hnm.
  pose proof (reachable_nentries _ _ Hr1) as Hnm1. simpl in Hnm, Hnm1.
  apply reachable_rep in Hr as (ls & Hrep & _).
  apply reachable_rep in Hr1 as (ls1 & Hrep1 & _).
  destruct (stored_add m ls h v p m1 Hrep Hp Hadd) as [Habs Hs1].
  destruct (ht_remove_stored m1 ls1 h v Hrep1) as [m2 Hrm]; [congruence| |].
  { apply Hs1. by right. }
  exists m2. split; [done|].
  destruct (stored_remove m1 ls1 h m2 Hrep1 Hrm) as [_ Hs2].
  intros h' v'. rewrite Hs2, Hs1. split.
  - intros [[?|[? _]] ?]; done.
  - intros Hs. split; [by left|]. intros ->. by apply (Habs v').
Qed.

Lemma add_remove_restores_witness :
  reachable 4 (sample.1, sample.2) ∧
  ht_items sample.1 !! 5%positive = None ∧
  ht_add sample.1 13 113 5 = Done (table_after 4 (sample_ops ++ [OpAdd 13 113 5]), Ret0) ∧
  ∃ m2, ht_remove (table_after 4 (sample_ops ++ [OpAdd 13 113 5])) 13 = Done (m2, Ret0) ∧
        ∀ h' v', stored m2 h' v' ↔ stored sample.1 h' v'.
Proof.
  assert (reachable 4 (sample.1, sample.2)) as Hr by exact sample_reachable.
  assert (ht_items sample.1 !! 5%positive = None) as Hp by (vm_compute; reflexivity).
  assert (ht_add sample.1 13 113 5 =
          Done (table_after 4 (sample_ops ++ [OpAdd 13 113 5]), Ret0)) as Hadd
    by (vm_compute; reflexivity).
  split_and!; [done..|].
  exact (add_remove_restores 4 _ _ 13%N 113%N 5%positive _ Hr Hp Hadd).
Defined.

(** X5.  [ht_remove] and then [ht_add] of the same hash replace the value:
    the [ht_add] returns 0, the hash is stored with the new value and every
    other stored pair is as before. *)
Theorem remove_add_updates n m its h v p m1 :
  reachable n (m, its) → ht_remove m h = Done (m1, Ret0) →
  ht_items m1 !! p = None →
  ∃ m2, ht_add m1 h v p = Done (m2, Ret0) ∧
        ht_find m2 h = Done v ∧
        ∀ h' v', stored m2 h' v' ↔ (stored m h' v' ∧ h' ≠ h) ∨ (h' = h ∧ v' = v).
Proof.
  intros Hr Hrm Hp.
  assert (reachable n (m1, its)) as Hr1.
  { eapply rtc_r; [exact Hr|]. by eapply step_remove. }
  pose proof (ht_remove_Done _ _ _ Hrm) as Hn0.
  assert (0 < n) as Hn.
  { pose proof (reachable_nentries _ _ Hr) as H. simpl in H. lia. }
  pose proof (reachable_nonzero _ _ _ Hr1 Hn) as Hn1.
  apply reachable_rep in Hr as (ls & Hrep & _).
  apply reachable_rep in Hr1 as (ls1 & Hrep1 & _).
  destruct (stored_remove m ls h m1 Hrep Hrm) as [_ Hs1].
  assert (absent m1 h) as Habs.
  { intros v0 Hs. apply Hs1 in Hs as [_ Hne]. done. }
  destruct (ht_add_absent m1 ls1 h v p Hrep1 Hn1 Hp Habs) as [m2 Hadd2].
  destruct (stored_add m1 ls1 h v p m2 Hrep1 Hp Hadd2) as [_ Hs2].
  exists m2. split; [done|]. split.
  - by eapply (ht_add_ok_find m1 ls1).
  - intros h' v'. by rewrite Hs2, Hs1.
Qed.

Lemma remove_add_updates_witness :
  reachable 4 (sample.1, sample.2) ∧
  ht_remove sample.1 5 = Done (table_after 4 (sample_ops ++ [OpRemove 5]), Ret0) ∧
  ht_items (table_after 4 (sample_ops ++ [OpRemove 5])) !! 5%positive = None ∧
  ∃ m2, ht_add (table_after 4 (sample_ops ++ [OpRemove 5])) 5 55 5 = Done (m2, Ret0) ∧
        ht_find m2 5 = Done 55%N ∧
        ∀ h' v', stored m2 h' v' ↔ (stored sample.1 h' v' ∧ h' ≠ 5%N) ∨ (h' = 5%N ∧ v' = 55%N).
Proof.
  assert (reachable 4 (sample.1, sample.2)) as Hr by exact sample_reachable.
  assert (ht_remove sample.1 5 = Done (table_after 4 (sample_ops ++ [OpRemove 5]), Ret0))
    as Hrm by (vm_compute; reflexivity).
  assert (ht_items (table_after 4 (sample_ops ++ [OpRemove 5])) !! 5%positive = None)
    as Hp by (vm_compute; reflexivity).
  split_and!; [done..|].
  exact (remove_add_updates 4 _ _ 5%N 55%N 5%positive _ Hr Hrm Hp).
Defined.

(** X6.  On a table a program reaches, [ht_find], [ht_add], [ht_remove] and
    [ht_iter] return: no walk leaves the live nodes, none runs in a circle,
    no bucket index is out of bounds. *)
Theorem table_calls_return n m its :
  reachable n (m, its) → 0 < n →
  (∀ h, ∃ v, ht_find m h = Done v) ∧
  (∀ h v p, ht_items m !! p = None → ∃ m' r, ht_add m h v p = Done (m', r)) ∧
  (∀ h, ∃ m' r, ht_remove m h = Done (m', r)) ∧
  (∃ it, ht_iter m = Done it).
Proof.
  intros Hr Hn. pose proof (reachable_nonzero _ _ _ Hr Hn) as Hn'.
  apply reachable_rep in Hr as (ls & Hrep & _). split_and!.
  - intros h. destruct (ht_find_rep m ls h Hrep Hn') as (l & _ & ->). eauto.
  - intros h v p Hp. destruct (ht_add_rep m ls h v p Hrep Hn' Hp) as (l & _ & Hcase).
    destruct (chain_find (ht_items m) l h); [eauto|].
    destruct Hcase as (m' & it & Hadd & _). eauto.
  - intros h. destruct (ht_remove_rep m ls h Hrep Hn') as (l & _ & Hcase).
    destruct (chain_find (ht_items m) l h) as [[q itq]|]; [|eauto].
    destruct Hcase as (m' & l1 & l2 & _ & Hrm & _). eauto.
  - destruct (rep_lookup m ls 0 Hrep) as (e & l & He & _); [lia|].
    exists (mk_iter 0 (tqh_first e)). unfold ht_iter.
    by rewrite (bind_Done _ _ e) by (by apply bucket_Done).
Qed.

Lemma table_calls_return_witness :
  reachable 4 (sample.1, sample.2) ∧ 0 < 4 ∧
  (∀ h, ∃ v, ht_find sample.1 h = Done v) ∧
  (∀ h v p, ht_items sample.1 !! p = None → ∃ m' r, ht_add sample.1 h v p = Done (m', r)) ∧
  (∀ h, ∃ m' r, ht_remove sample.1 h = Done (m', r)) ∧
  (∃ it, ht_iter sample.1 = Done it).
Proof.
  assert (reachable 4 (sample.1, sample.2)) as Hr by exact sample_reachable.
  assert (0 < 4) as Hn by lia.
  split_and!; [done..| | | |]; apply (table_calls_return 4 _ _ Hr Hn).
Defined.

(** X7.  The one fault of the iterator functions: on an iterator of the
    pool, [ht_next] and [ht_remove_at_iter] return, unless the cursor is a
    node that has been freed since; then they read that freed node. *)
Theorem iterator_faults_only_on_freed_cursor n m its k it :
  reachable n (m, its) → its !! k = Some it →
  ((∃ it' v, ht_next m it = Done (it', v)) ∨
   (∃ c, htit_cursor it = Some c ∧ ht_items m !! c = Some Freed ∧
         ht_next m it = Abort (UseAfterFree c))) ∧
  ((∃ m' r, ht_remove_at_iter m it = Done (m', it, r)) ∨
   (∃ c, htit_cursor it = Some c ∧ ht_items m !! c = Some Freed ∧
         ht_remove_at_iter m it = Abort (UseAfterFree c))).
Proof.
  intros (ls & Hrep & Hits)%reachable_rep Hk. pool_iter Hits Hk Hit. split.
  - pose proof Hit as (Hle & Hend & Hcur).
    rewrite ht_next_unfold by done.
    destruct (decide (htit_slot it = ht_nentries m)); [left; eauto|].
    destruct (htit_cursor it) as [c|] eqn:Hc; [|left; eauto].
    destruct (Hcur c eq_refl) as [Hfreed|(l & Hl & Hin)].
    + right. exists c. split_and!; [done..|]. unfold load. by rewrite Hfreed.
    + left. destruct (rep_live _ _ _ _ _ Hrep Hl Hin) as [itc Hitc].
      rewrite (bind_Done _ _ itc) by (by apply load_Done).
      destruct (tqe_next itc); eauto.
  - destruct (htit_cursor it) as [c|] eqn:Hc.
    + destruct (ht_remove_at_iter_rep m ls it c Hrep Hit Hc)
        as [[Hfreed Hab]|(l1 & l2 & m' & _ & Hrm & _)].
      * right. by exists c.
      * left. eauto.
    + left. unfold ht_remove_at_iter. rewrite Hc. eauto.
Qed.

Lemma iterator_faults_only_on_freed_cursor_witness :
  reachable 4 (sample2.1, sample2.2) ∧
  sample2.2 !! 0 = Some (mk_iter 0 (Some 2%positive)) ∧
  ((∃ it' v, ht_next sample2.1 (mk_iter 0 (Some 2%positive)) = Done (it', v)) ∨
   (∃ c, htit_cursor (mk_iter 0 (Some 2%positive)) = Some c ∧
         ht_items sample2.1 !! c = Some Freed ∧
         ht_next sample2.1 (mk_iter 0 (Some 2%positive)) = Abort (UseAfterFree c))) ∧
  ((∃ m' r, ht_remove_at_iter sample2.1 (mk_iter 0 (Some 2%positive)) =
            Done (m', mk_iter 0 (Some 2%positive), r)) ∨
   (∃ c, htit_cursor (mk_iter 0 (Some 2%positive)) = Some c ∧
         ht_items sample2.1 !! c = Some Freed ∧
         ht_remove_at_iter sample2.1 (mk_iter 0 (Some 2%positive)) =
           Abort (UseAfterFree c))).
Proof.
  assert (reachable 4 (sample2.1, sample2.2)) as Hr by exact sample2_reachable.
  assert (sample2.2 !! 0 = Some (mk_iter 0 (Some 2%positive))) as Hk
    by (vm_compute; reflexivity).
  split_and!; [done..| |];
    apply (iterator_faults_only_on_freed_cursor 4 _ _ 0 _ Hr Hk).
Defined.

(** X8.  What [ht_next] returns.  Either it ends the iteration: the iterator
    is left at [htit_slot = ht_nentries] without a cursor and the result is
    [NULL].  Or the cursor was a node of the iterator's bucket that has a
    successor: the result is the value stored in the cursor node, and the
    iterator stays in its bucket with the successor as its cursor. *)
Theorem next_step n m its k it it' v :
  reachable n (m, its) → its !! k = Some it →
  ht_next m it = Done (it', v) →
  (htit_slot it' = ht_nentries m ∧ htit_cursor it' = None ∧ v = NULL) ∨
  (∃ c itc nx,
     htit_cursor it = Some c ∧ ht_items m !! c = Some (Live itc) ∧
     resides m (htit_slot it) c ∧
     tqe_next itc = Some nx ∧ resides m (htit_slot it) nx ∧
     v = hti_data itc ∧ stored m (hti_hash itc) v ∧
     it' = mk_iter (htit_slot it) (Some nx)).
Proof.
  intros (ls & Hrep & Hits)%reachable_rep Hk Hnext. pool_iter Hits Hk Hit.
  pose proof Hit as (Hle & Hend & Hcur).
  rewrite ht_next_unfold in Hnext by done.
  destruct (decide (htit_slot it = ht_nentries m)) as [Heq|Hne].
  { injection Hnext as <- <-. left. auto. }
  destruct (htit_cursor it) as [c|] eqn:Hc; [|injection Hnext as <- <-; by left].
  apply bind_Done_inv in Hnext as (itc & Hitc%load_Done & Hnext).
  destruct (tqe_next itc) as [nx|] eqn:Hnx; [|injection Hnext as <- <-; by left].
  injection Hnext as <- <-. right.
  destruct (Hcur c eq_refl) as [Hfreed|(l & Hl & Hin)]; [congruence|].
  assert (htit_slot it < ht_nentries m) as Hlt by lia.
  destruct (rep_lookup m ls _ Hrep Hlt) as (e & l' & He & Hl' & Hch & _).
  assert (l' = l) as -> by congruence.
  assert (resides m (htit_slot it) c) as Hres by (apply (resides_rep m ls); eauto).
  exists c, itc, nx. split_and!; try done.
  - apply (resides_rep m ls); [done|]. exists l. split; [done|].
    by eapply is_chain_next.
  - by exists (htit_slot it), c, itc.
Qed.

Lemma next_step_witness :
  reachable 4 (sample2.1, sample2.2) ∧
  sample2.2 !! 0 = Some (mk_iter 0 (Some 2%positive)) ∧
  ht_next sample2.1 (mk_iter 0 (Some 2%positive)) = Done (mk_iter 0 (Some 3%positive), 14%N) ∧
  ((htit_slot (mk_iter 0 (Some 3%positive)) = ht_nentries sample2.1 ∧
    htit_cursor (mk_iter 0 (Some 3%positive)) = None ∧ 14%N = NULL) ∨
   (∃ c itc nx,
      htit_cursor (mk_iter 0 (Some 2%positive)) = Some c ∧
      ht_items sample2.1 !! c = Some (Live itc) ∧
      resides sample2.1 (htit_slot (mk_iter 0 (Some 2%positive))) c ∧
      tqe_next itc = Some nx ∧
      resides sample2.1 (htit_slot (mk_iter 0 (Some 2%positive))) nx ∧
      14%N = hti_data itc ∧ stored sample2.1 (hti_hash itc) 14%N ∧
      mk_iter 0 (Some 3%positive) = mk_iter (htit_slot (mk_iter 0 (Some 2%positive))) (Some nx))).
Proof.
  assert (reachable 4 (sample2.1, sample2.2)) as Hr by exact sample2_reachable.
  assert (sample2.2 !! 0 = Some (mk_iter 0 (Some 2%positive))) as Hk
    by (vm_compute; reflexivity).
  assert (ht_next sample2.1 (mk_iter 0 (Some 2%positive)) =
          Done (mk_iter 0 (Some 3%positive), 14%N)) as Hnext by (vm_compute; reflexivity).
  split_and!; [done..|].
  exact (next_step 4 _ _ 0 _ _ _ Hr Hk Hnext).
Defined.

(** ** A whole iteration *)

Lemma data_at_Live σ p it : σ !! p = Some (Live it) → data_at σ p = hti_data it.
Proof. unfold data_at. by intros ->. Qed.

(** The caller's loop from a cursor inside the chain of slot [s]: it gets
    the values of the rest of the chain but the last, up to the first
    [NULL]. *)
Lemma drain_chain m ls s l :
  rep m ls → ls !! s = Some l →
  ∀ suf pre k, l = pre ++ suf → length suf < k →
    drain k m (mk_iter s (head suf)) =
      Done (until_null (data_at (ht_items m) <$> removelast suf)).
Proof.
  intros Hrep Hl.
  assert (s < ht_nentries m) as Hs.
  { destruct Hrep as (_ & <- & _). by eapply lookup_lt_Some. }
  destruct (rep_lookup m ls s Hrep Hs) as (e & l' & He & Hl' & Hc & _).
  assert (l' = l) as -> by congruence.
  induction suf as [|c rest IH]; intros pre k Hsplit Hk.
  - destruct k as [|k]; [simpl in Hk; lia|].
    assert (ht_next m (mk_iter s None) = Done (mk_iter (ht_nentries m) None, NULL)) as Hnx.
    { rewrite ht_next_unfold by (simpl; lia). simpl. by rewrite decide_False by lia. }
    cbn [drain head]. rewrite Hnx. reflexivity.
  - destruct k as [|k]; [simpl in Hk; lia|].
    assert (c ∈ l) as Hin by (subst l; apply elem_of_app; right; by left).
    destruct (is_chain_live _ _ _ _ _ Hc Hin) as [itc Hitc].
    subst l. destruct (is_chain_mid _ _ _ _ _ _ _ Hc Hitc) as [_ Hnx].
    assert (ht_next m (mk_iter s (Some c)) =
            match rest with
            | [] => Done (mk_iter (ht_nentries m) None, NULL)
            | r :: _ => Done (mk_iter s (Some r), hti_data itc)
            end) as Hnext.
    { rewrite ht_next_unfold by (simpl; lia). simpl.
      rewrite decide_False by lia.
      rewrite (bind_Done _ _ itc) by (by apply load_Done). rewrite Hnx.
      by destruct rest. }
    cbn [drain head]. rewrite Hnext.
    destruct rest as [|r rest]; [reflexivity|].
    change (removelast (c :: r :: rest)) with (c :: removelast (r :: rest)).
    rewrite fmap_cons. cbn [until_null]. rewrite (data_at_Live _ _ _ Hitc).
    cbn [mbind outcome_bind].
    destruct (decide (hti_data itc = NULL)); [done|].
    pose proof (IH (pre ++ [c]) k) as IH'. cbn [head] in IH'. rewrite IH'.
    + done.
    + by rewrite <- app_assoc.
    + simpl in *. lia.
Qed.

(** X9.  What a whole iteration returns, on every table a program reaches:
    the values of the chain of bucket 0, in chain order, without the last
    one, and only up to the first [NULL] among them.  Nothing of another
    bucket is returned. *)
Theorem full_iteration_spec n m its :
  reachable n (m, its) → 0 < n →
  ∃ e l, ht_entries m !! 0 = Some e ∧
         is_chain (ht_items m) (LHead 0) (tqh_first e) l ∧
         full_iteration m = Done (until_null (data_at (ht_items m) <$> removelast l)).
Proof.
  intros Hr Hn. pose proof (reachable_nonzero _ _ _ Hr Hn) as Hn'.
  apply reachable_rep in Hr as (ls & Hrep & _).
  destruct (rep_lookup m ls 0 Hrep) as (e & l & He & Hl & Hc & _); [lia|].
  exists e, l. split_and!; [done..|]. unfold full_iteration, ht_iter.
  rewrite (bind_Done _ _ e) by (by apply bucket_Done). cbn [mbind outcome_bind].
  rewrite (is_chain_first _ _ _ _ Hc).
  apply (drain_chain m ls 0 l Hrep Hl l []); [done|].
  by eapply rep_bucket_len.
Qed.

Lemma full_iteration_spec_witness :
  reachable 4 (sample2.1, sample2.2) ∧ 0 < 4 ∧
  ∃ e l, ht_entries sample2.1 !! 0 = Some e ∧
         is_chain (ht_items sample2.1) (LHead 0) (tqh_first e) l ∧
         full_iteration sample2.1 =
           Done (until_null (data_at (ht_items sample2.1) <$> removelast l)).
Proof.
  assert (reachable 4 (sample2.1, sample2.2)) as Hr by exact sample2_reachable.
  assert (0 < 4) as Hn by lia.
  split_and!; [done..|]. exact (full_iteration_spec 4 _ _ Hr Hn).
Defined.

(** ** Removal through an iterator *)

(** X10.  [ht_remove_at_iter] on an iterator whose cursor is a live node
    returns 0 and removes exactly the entry of that node: its hash is no
    longer stored, every other stored pair stays. *)
Theorem remove_at_iter_spec n m its k it c itc :
  reachable n (m, its) → its !! k = Some it →
  htit_cursor it = Some c → ht_items m !! c = Some (Live itc) →
  stored m (hti_hash itc) (hti_data itc) ∧
  ∃ m', ht_remove_at_iter m it = Done (m', it, Ret0) ∧
        ∀ h' v', stored m' h' v' ↔ stored m h' v' ∧ h' ≠ hti_hash itc.
Proof.
  intros (ls & Hrep & Hits)%reachable_rep Hk Hc Hitc. pool_iter Hits Hk Hit.
  destruct (ht_remove_at_iter_rep m ls it c Hrep Hit Hc)
    as [[Hfreed _]|(l1 & l2 & m' & Hl & Hrm & Hrep' & Hn' & Hp & Hq)]; [congruence|].
  split.
  - apply (stored_rep m ls); [done|].
    exists (htit_slot it), (l1 ++ c :: l2), c, itc. split_and!; try done.
    apply elem_of_app. right. by left.
  - exists m'. split; [done|]. by eapply stored_unlink.
Qed.

Lemma remove_at_iter_spec_witness :
  reachable 4 (sample2.1, sample2.2) ∧
  sample2.2 !! 0 = Some (mk_iter 0 (Some 2%positive)) ∧
  htit_cursor (mk_iter 0 (Some 2%positive)) = Some 2%positive ∧
  ht_items sample2.1 !! 2%positive = Some (Live (mk_item 4%N 14%N (Some 3%positive) (LNext 1%positive))) ∧
  stored sample2.1 4%N 14%N ∧
  ∃ m', ht_remove_at_iter sample2.1 (mk_iter 0 (Some 2%positive)) =
          Done (m', mk_iter 0 (Some 2%positive), Ret0) ∧
        ∀ h' v', stored m' h' v' ↔ stored sample2.1 h' v' ∧ h' ≠ 4%N.
Proof.
  assert (reachable 4 (sample2.1, sample2.2)) as Hr by exact sample2_reachable.
  assert (sample2.2 !! 0 = Some (mk_iter 0 (Some 2%positive))) as Hk
    by (vm_compute; reflexivity).
  assert (htit_cursor (mk_iter 0 (Some 2%positive)) = Some 2%positive) as Hc
    by reflexivity.
  assert (ht_items sample2.1 !! 2%positive =
          Some (Live (mk_item 4%N 14%N (Some 3%positive) (LNext 1%positive)))) as Hitc
    by (vm_compute; reflexivity).
  split_and!; [done..| |];
    apply (remove_at_iter_spec 4 _ _ 0 _ 2%positive _ Hr Hk Hc Hitc).
Defined.

(** X11.  A second [ht_remove_at_iter] on the same iterator, with no
    [ht_next] between, unlinks and frees the freed node again. *)
Theorem remove_at_iter_twice n m its k it m' it' :
  reachable n (m, its) → its !! k = Some it →
  ht_remove_at_iter m it = Done (m', it', Ret0) →
  ∃ c, htit_cursor it' = Some c ∧
       ht_remove_at_iter m' it' = Abort (UseAfterFree c).
Proof.
  intros (ls & Hrep & Hits)%reachable_rep Hk Hrm. pool_iter Hits Hk Hit.
  destruct (htit_cursor it) as [c|] eqn:Hc; cycle 1.
  { unfold ht_remove_at_iter in Hrm. rewrite Hc in Hrm. congruence. }
  destruct (ht_remove_at_iter_rep m ls it c Hrep Hit Hc)
    as [[_ Hab]|(l1 & l2 & m2 & _ & Hrm' & _ & _ & Hfreed & _)]; [congruence|].
  rewrite Hrm' in Hrm. injection Hrm as <- <-.
  exists c. split; [done|]. unfold ht_remove_at_iter. rewrite Hc.
  unfold TAILQ_REMOVE, load. by rewrite Hfreed.
Qed.

Lemma remove_at_iter_twice_witness :
  reachable 4 (sample2.1, sample2.2) ∧
  sample2.2 !! 0 = Some (mk_iter 0 (Some 2%positive)) ∧
  ht_remove_at_iter sample2.1 (mk_iter 0 (Some 2%positive)) =
    Done (table_after 4 (sample2_ops ++ [OpRemoveAtIter 0]),
          mk_iter 0 (Some 2%positive), Ret0) ∧
  ∃ c, htit_cursor (mk_iter 0 (Some 2%positive)) = Some c ∧
       ht_remove_at_iter (table_after 4 (sample2_ops ++ [OpRemoveAtIter 0]))
                         (mk_iter 0 (Some 2%positive)) = Abort (UseAfterFree c).
Proof.
  assert (reachable 4 (sample2.1, sample2.2)) as Hr by exact sample2_reachable.
  assert (sample2.2 !! 0 = Some (mk_iter 0 (Some 2%positive))) as Hk
    by (vm_compute; reflexivity).
  assert (ht_remove_at_iter sample2.1 (mk_iter 0 (Some 2%positive)) =
    Done (table_after 4 (sample2_ops ++ [OpRemoveAtIter 0]),
          mk_iter 0 (Some 2%positive), Ret0)) as Hrm by (vm_compute; reflexivity).
  split_and!; [done..|].
  exact (remove_at_iter_twice 4 _ _ 0 _ _ _ Hr Hk Hrm).
Defined.

(** X12.  [ht_remove] of the hash of the node an iterator's cursor is on
    frees that node under the iterator: the next [ht_next] and the next
    [ht_remove_at_iter] on the iterator read the freed node. *)
Theorem remove_under_cursor n m its k it c itc m' :
  reachable n (m, its) → its !! k = Some it →
  htit_cursor it = Some c → ht_items m !! c = Some (Live itc) →
  ht_remove m (hti_hash itc) = Done (m', Ret0) →
  ht_items m' !! c = Some Freed ∧
  ht_next m' it = Abort (UseAfterFree c) ∧
  ht_remove_at_iter m' it = Abort (UseAfterFree c).
Proof.
  intros (ls & Hrep & Hits)%reachable_rep Hk Hc Hitc Hrm. pool_iter Hits Hk Hit.
  pose proof Hit as (Hle & Hend & Hcur).
  destruct (Hcur c Hc) as [Hfreed|(l & Hl & Hin)]; [congruence|].
  destruct (ht_remove_ok m ls _ m' Hrep Hrm)
    as (l1 & p & l2 & itp & Hl' & Hitp & Hh & _ & Hn' & Hp & _).
  assert (p = c) as ->.
  { eapply (rep_hash_inj m ls _ _ _ _ p c itp itc Hrep Hl' Hl); try done.
    apply elem_of_app. right. by left. }
  split_and!; [done| |].
  - rewrite ht_next_unfold by lia. rewrite Hn', Hc.
    rewrite decide_False.
    + unfold load. by rewrite Hp.
    + intros Heq. specialize (Hend Heq). congruence.
  - unfold ht_remove_at_iter. rewrite Hc. unfold TAILQ_REMOVE, load. by rewrite Hp.
Qed.

Lemma remove_under_cursor_witness :
  reachable 4 (sample2.1, sample2.2) ∧
  sample2.2 !! 0 = Some (mk_iter 0 (Some 2%positive)) ∧
  htit_cursor (mk_iter 0 (Some 2%positive)) = Some 2%positive ∧
  ht_items sample2.1 !! 2%positive =
    Some (Live (mk_item 4%N 14%N (Some 3%positive) (LNext 1%positive))) ∧
  ht_remove sample2.1 4 = Done (table_after 4 (sample2_ops ++ [OpRemove 4]), Ret0) ∧
  ht_items (table_after 4 (sample2_ops ++ [OpRemove 4])) !! 2%positive = Some Freed ∧
  ht_next (table_after 4 (sample2_ops ++ [OpRemove 4])) (mk_iter 0 (Some 2%positive))
    = Abort (UseAfterFree 2%positive) ∧
  ht_remove_at_iter (table_after 4 (sample2_ops ++ [OpRemove 4])) (mk_iter 0 (Some 2%positive))
    = Abort (UseAfterFree 2%positive).
Proof.
  assert (reachable 4 (sample2.1, sample2.2)) as Hr by exact sample2_reachable.
  assert (sample2.2 !! 0 = Some (mk_iter 0 (Some 2%positive))) as Hk
    by (vm_compute; reflexivity).
  assert (htit_cursor (mk_iter 0 (Some 2%positive)) = Some 2%positive) as Hc
    by reflexivity.
  assert (ht_items sample2.1 !! 2%positive =
          Some (Live (mk_item 4%N 14%N (Some 3%positive) (LNext 1%positive)))) as Hitc
    by (vm_compute; reflexivity).
  assert (ht_remove sample2.1 4 = Done (table_after 4 (sample2_ops ++ [OpRemove 4]), Ret0))
    as Hrm by (vm_compute; reflexivity).
  split_and!; [done..| | |];
    apply (remove_under_cursor 4 _ _ 0 _ 2%positive _ _ Hr Hk Hc Hitc Hrm).
Defined.

(** ** [ht_destroy] returns *)

(** The inner loop of [ht_destroy], started on a live node [hi] whose
    successor pointer is the head of the rest of the chain: it unlinks the
    rest, node by node, and stops. *)
Lemma destroy_chain_rep i pre rest :
  ∀ k m ls hi ithi,
    rep m ls → ls !! i = Some (pre ++ rest) →
    ht_items m !! hi = Some (Live ithi) → tqe_next ithi = head rest →
    length rest < k →
    ∃ m', destroy_chain k m i hi = Done m' ∧ rep m' (<[i := pre]> ls) ∧
          ht_nentries m' = ht_nentries m.
Proof.
  induction rest as [|r rest IH]; intros k m ls hi ithi Hrep Hl Hhi Hnx Hk.
  - destruct k as [|k]; [simpl in Hk; lia|]. simpl.
    rewrite (bind_Done _ _ ithi) by (by apply load_Done). rewrite Hnx. simpl.
    exists m. split_and!; [done| |done].
    rewrite app_nil_r in Hl. by rewrite list_insert_id.
  - destruct k as [|k]; [simpl in Hk; lia|]. cbn [destroy_chain].
    rewrite (bind_Done _ _ ithi) by (by apply load_Done). rewrite Hnx. cbn [head].
    destruct (rep_lookup m ls i Hrep) as (e & l & He & Hl' & Hc & _).
    { destruct Hrep as (_ & <- & _). by eapply lookup_lt_Some. }
    assert (l = pre ++ r :: rest) as -> by congruence.
    assert (r ∈ pre ++ r :: rest) as Hrin by (apply elem_of_app; right; by left).
    destruct (is_chain_live _ _ _ _ _ Hc Hrin) as [itr Hitr].
    destruct (is_chain_mid _ _ _ _ _ _ _ Hc Hitr) as [_ Hrnx].
    destruct (remove_rep m ls i e pre r rest Hrep He Hl)
      as (m1 & Hrm & Hrep1 & _ & Hr1 & Hn1).
    rewrite (bind_Done _ _ _ Hrm).
    destruct (IH k m1 (<[i := pre ++ rest]> ls) r itr) as (m' & Hd & Hrep' & Hn'); try done.
    + apply list_lookup_insert_eq. by eapply lookup_lt_Some.
    + by rewrite Hr1.
    + simpl in Hk. lia.
    + exists m'. split_and!; [done| |congruence].
      by rewrite list_insert_insert_eq in Hrep'.
Qed.

Lemma destroy_slot_rep m ls i :
  rep m ls → i < ht_nentries m →
  ∃ m' ls', destroy_slot (Done m) i = Done m' ∧ rep m' ls' ∧
            ht_nentries m' = ht_nentries m.
Proof.
  intros Hrep Hi.
  destruct (rep_lookup m ls i Hrep Hi) as (e & l & He & Hl & Hc & _).
  unfold destroy_slot. cbn [mbind outcome_bind].
  rewrite (bind_Done _ _ e) by (by apply bucket_Done).
  rewrite (is_chain_first _ _ _ _ Hc).
  destruct l as [|a rest]; [by exists m, ls|]. cbn [head].
  assert (a ∈ a :: rest) as Hain by (by left).
  destruct (is_chain_live _ _ _ _ _ Hc Hain) as [ita Hita].
  destruct (is_chain_mid _ _ _ [] a rest ita Hc Hita) as [_ Hnx].
  destruct (destroy_chain_rep i [a] rest (fuel m) m ls a ita) as (m' & Hd & Hrep' & Hn');
    try done.
  - pose proof (rep_bucket_len m ls i e (a :: rest) Hrep He Hl) as Hlen.
    simpl in Hlen. lia.
  - by exists m', (<[i := [a]]> ls).
Qed.

Lemma destroy_slots_rep idx :
  ∀ m ls, rep m ls → Forall (λ i, i < ht_nentries m) idx →
    ∃ m' ls', foldl destroy_slot (Done m) idx = Done m' ∧ rep m' ls'.
Proof.
  induction idx as [|i idx IH]; intros m ls Hrep Hidx; cbn [foldl].
  - by exists m, ls.
  - apply Forall_cons in Hidx as [Hi Hidx].
    destruct (destroy_slot_rep m ls i Hrep Hi) as (m1 & ls1 & Hds & Hrep1 & Hn1).
    rewrite Hds. apply (IH m1 ls1 Hrep1). by rewrite Hn1.
Qed.

(** X13.  On every table a program reaches, the loops of [ht_destroy] run
    through without a fault.  If the [struct ht] is a block from [malloc],
    [ht_destroy] returns, and it has freed no node: every node block that was
    live before the call is live after it, with its hash and value.  If the
    [struct ht] is not a block from [malloc], the [free(h)] at the end is a
    call of [free] on a pointer [malloc] did not return. *)
Theorem destroy_returns_and_leaks n m its :
  reachable n (m, its) →
  (∃ σ', ht_destroy Malloced m = Done σ' ∧
         ∀ p it, ht_items m !! p = Some (Live it) →
                 ∃ it', σ' !! p = Some (Live it') ∧ hti_hash it' = hti_hash it ∧
                        hti_data it' = hti_data it) ∧
  ht_destroy Embedded m = Abort BadFree.
Proof.
  intros (ls & Hrep & _)%reachable_rep.
  destruct (destroy_slots_rep (seq 0 (ht_nentries m)) m ls Hrep) as (m' & ls' & Hfold & _).
  { apply Forall_forall. intros i Hi%elem_of_seq. lia. }
  assert (ht_destroy Malloced m = Done (ht_items m')) as Hd.
  { unfold ht_destroy. by rewrite Hfold. }
  split.
  - exists (ht_items m'). split; [done|]. intros p it.
    by apply (ht_destroy_leaks Malloced).
  - unfold ht_destroy. by rewrite Hfold.
Qed.

Lemma destroy_returns_and_leaks_witness :
  reachable 4 (sample2.1, sample2.2) ∧
  (∃ σ', ht_destroy Malloced sample2.1 = Done σ' ∧
         ∀ p it, ht_items sample2.1 !! p = Some (Live it) →
                 ∃ it', σ' !! p = Some (Live it') ∧ hti_hash it' = hti_hash it ∧
                        hti_data it' = hti_data it) ∧
  ht_destroy Embedded sample2.1 = Abort BadFree.
Proof.
  assert (reachable 4 (sample2.1, sample2.2)) as Hr by exact sample2_reachable.
  split; [done|]. exact (destroy_returns_and_leaks 4 _ _ Hr).
Defined.

(** ** [ht_init] *)

Lemma init_reachable n : reachable n (ht_init n, []).
Proof. apply rtc_refl. Qed.

Lemma init_absent n h : absent (ht_init n) h.
Proof. intros v (i & p & it & _ & Hit & _). simpl in Hit. by rewrite lookup_empty in Hit. Qed.

(** X14.  [ht_init] with a size other than 0 makes an empty table: no hash
    is stored, [ht_find] returns [NULL] and [ht_remove] returns -1 with
    [errno = ENOENT] for every hash, [ht_add] of any pair returns 0 and
    leaves exactly that pair stored, a whole iteration returns nothing, and
    [ht_destroy] returns with no node block left if the [struct ht] is a
    block from [malloc]; if it is not, [ht_destroy] ends in a [free] of a
    pointer [malloc] did not return. *)
Theorem init_empty n :
  0 < n →
  (∀ h, absent (ht_init n) h) ∧
  (∀ h, ht_find (ht_init n) h = Done NULL) ∧
  (∀ h, ht_remove (ht_init n) h = Done (ht_init n, RetErr ENOENT)) ∧
  (∀ h v p, ∃ m', ht_add (ht_init n) h v p = Done (m', Ret0) ∧
                  ∀ h' v', stored m' h' v' ↔ h' = h ∧ v' = v) ∧
  full_iteration (ht_init n) = Done [] ∧
  ht_destroy Malloced (ht_init n) = Done ∅ ∧
  ht_destroy Embedded (ht_init n) = Abort BadFree.
Proof.
  intros Hn. pose proof (rep_init n) as Hrep.
  assert (ht_nentries (ht_init n) ≠ 0) as Hn' by (simpl; lia).
  split_and!.
  - apply init_absent.
  - intros h. apply (ht_find_absent _ _ h Hrep Hn'), init_absent.
  - intros h.
    destruct (rep_lookup _ _ _ Hrep (rep_slot_lt (ht_init n) h Hn')) as (e & l & _ & Hl & _).
    eapply ht_remove_none; try done. eapply absent_chain_find; try done.
    apply init_absent.
  - intros h v p.
    assert (ht_items (ht_init n) !! p = None) as Hp by apply lookup_empty.
    destruct (ht_add_absent _ _ h v p Hrep Hn' Hp (init_absent n h)) as [m' Hadd].
    exists m'. split; [done|].
    destruct (stored_add _ _ h v p m' Hrep Hp Hadd) as [_ Hs].
    intros h' v'. rewrite Hs. split; [|by right].
    intros [Hst|?]; [|done]. by apply init_absent in Hst.
  - unfold full_iteration, ht_iter, bucket. simpl.
    destruct n as [|n]; [lia|]. simpl.
    rewrite ht_next_unfold by (simpl; lia). reflexivity.
  - destruct (destroy_slots_rep (seq 0 n) (ht_init n) _ Hrep) as (m' & ls' & Hfold & _).
    { apply Forall_forall. intros i Hi%elem_of_seq. simpl. lia. }
    assert (ht_destroy Malloced (ht_init n) = Done (ht_items m')) as Hd.
    { unfold ht_destroy. simpl ht_nentries. by rewrite Hfold. }
    rewrite Hd. f_equal. apply map_eq. intros q. rewrite lookup_empty.
    pose proof (ht_destroy_same_payload _ _ _ Hd q) as Hq. simpl in Hq.
    rewrite lookup_empty in Hq. by destruct (ht_items m' !! q).
  - destruct (destroy_slots_rep (seq 0 n) (ht_init n) _ Hrep) as (m' & ls' & Hfold & _).
    { apply Forall_forall. intros i Hi%elem_of_seq. simpl. lia. }
    unfold ht_destroy. simpl ht_nentries. by rewrite Hfold.
Qed.

Lemma init_empty_witness :
  0 < 4 ∧
  (∀ h, absent (ht_init 4) h) ∧
  (∀ h, ht_find (ht_init 4) h = Done NULL) ∧
  (∀ h, ht_remove (ht_init 4) h = Done (ht_init 4, RetErr ENOENT)) ∧
  (∀ h v p, ∃ m', ht_add (ht_init 4) h v p = Done (m', Ret0) ∧
                  ∀ h' v', stored m' h' v' ↔ h' = h ∧ v' = v) ∧
  full_iteration (ht_init 4) = Done [] ∧
  ht_destroy Malloced (ht_init 4) = Done ∅ ∧
  ht_destroy Embedded (ht_init 4) = Abort BadFree.
Proof.
  assert (0 < 4) as Hn by lia.
  split; [done|]. exact (init_empty 4 Hn).
Defined.

(** X15.  A table of size 0 cannot be used: [ht_find], [ht_add] and
    [ht_remove] compute [hash % 0], and [ht_iter] reads the bucket 0 that is
    not there. *)
Theorem zero_buckets_fault m h v p :
  ht_nentries m = 0 → ht_entries m = [] →
  ht_find m h = Abort DivByZero ∧
  ht_add m h v p = Abort DivByZero ∧
  ht_remove m h = Abort DivByZero ∧
  ht_iter m = Abort (OutOfBounds 0).
Proof.
  intros Hn He. unfold ht_find, ht_add, ht_remove, ht_iter, slot_of, bucket.
  rewrite Hn, He. done.
Qed.

Lemma zero_buckets_fault_witness :
  ht_nentries (ht_init 0) = 0 ∧ ht_entries (ht_init 0) = [] ∧
  ht_find (ht_init 0) 7 = Abort DivByZero ∧
  ht_add (ht_init 0) 7 70 1 = Abort DivByZero ∧
  ht_remove (ht_init 0) 7 = Abort DivByZero ∧
  ht_iter (ht_init 0) = Abort (OutOfBounds 0).
Proof.
  assert (ht_nentries (ht_init 0) = 0) as Hn by reflexivity.
  assert (ht_entries (ht_init 0) = []) as He by reflexivity.
  split_and!; [done..| | | |];
    apply (zero_buckets_fault (ht_init 0) 7%N 70%N 1%positive Hn He).
Defined.

(** ** Iterators across changes of the table *)

(** [ht_next] on an iterator whose cursor, if any, has not been freed. *)
Lemma ht_next_returns m ls it :
  rep m ls → iter_ok m ls it →
  (∀ c, htit_cursor it = Some c → ht_items m !! c ≠ Some Freed) →
  ∃ it' v, ht_next m it = Done (it', v).
Proof.
  intros Hrep (Hle & Hend & Hcur) Hlive.
  rewrite ht_next_unfold by done.
  destruct (decide (htit_slot it = ht_nentries m)); [eauto|].
  destruct (htit_cursor it) as [c|] eqn:Hc; [|eauto].
  destruct (Hcur c eq_refl) as [Hfreed|(l & Hl & Hin)]; [by destruct (Hlive c)|].
  destruct (rep_live _ _ _ _ _ Hrep Hl Hin) as [itc Hitc].
  rewrite (bind_Done _ _ itc) by (by apply load_Done).
  destruct (tqe_next itc); eauto.
Qed.

(** X16.  [ht_add] frees nothing, so it leaves every iterator usable: an
    iterator on which [ht_next] returned before the [ht_add] is one on which
    it returns after it. *)
Theorem add_keeps_iterators n m its k it h v p m' r :
  reachable n (m, its) → its !! k = Some it →
  (∀ c, htit_cursor it = Some c → ht_items m !! c ≠ Some Freed) →
  ht_items m !! p = None → ht_add m h v p = Done (m', r) →
  ∃ it' w, ht_next m' it = Done (it', w).
Proof.
  intros Hr Hk Hlive Hp Hadd.
  assert (reachable n (m', its)) as Hr'.
  { eapply rtc_r; [exact Hr|]. by eapply step_add. }
  apply reachable_rep in Hr as (ls & Hrep & Hits).
  apply reachable_rep in Hr' as (ls' & Hrep' & Hits').
  pool_iter Hits Hk Hit. pool_iter Hits' Hk Hit'.
  apply (ht_next_returns m' ls' it Hrep' Hit').
  intros c Hc Hfreed. destruct Hit as (_ & _ & Hcur).
  destruct (Hcur c Hc) as [?|(l & Hl & Hin)]; [by destruct (Hlive c)|].
  destruct (rep_live _ _ _ _ _ Hrep Hl Hin) as [itc Hitc].
  destruct r as [|e].
  - destruct (ht_add_ok m ls h v p m' Hrep Hp Hadd) as (_ & _ & _ & _ & _ & _ & _ & _ & _ & Hq).
    assert (c ≠ p) as Hcp by congruence.
    specialize (Hq c Hcp). rewrite Hfreed, Hitc in Hq. done.
  - pose proof (ht_add_Done _ _ _ _ _ Hadd) as Hn.
    destruct (ht_add_rep m ls h v p Hrep Hn Hp) as (l0 & _ & Hcase).
    destruct (chain_find (ht_items m) l0 h).
    + rewrite Hcase in Hadd. injection Hadd as <- _. congruence.
    + destruct Hcase as (m2 & i2 & Hadd' & _). congruence.
Qed.

Lemma add_keeps_iterators_witness :
  reachable 4 (sample2.1, sample2.2) ∧
  sample2.2 !! 0 = Some (mk_iter 0 (Some 2%positive)) ∧
  (∀ c, htit_cursor (mk_iter 0 (Some 2%positive)) = Some c →
        ht_items sample2.1 !! c ≠ Some Freed) ∧
  ht_items sample2.1 !! 5%positive = None ∧
  ht_add sample2.1 12 112 5 = Done (table_after 4 (sample2_ops ++ [OpAdd 12 112 5]), Ret0) ∧
  ∃ it' w, ht_next (table_after 4 (sample2_ops ++ [OpAdd 12 112 5]))
                   (mk_iter 0 (Some 2%positive)) = Done (it', w).
Proof.
  assert (reachable 4 (sample2.1, sample2.2)) as Hr by exact sample2_reachable.
  assert (sample2.2 !! 0 = Some (mk_iter 0 (Some 2%positive))) as Hk
    by (vm_compute; reflexivity).
  assert (∀ c, htit_cursor (mk_iter 0 (Some 2%positive)) = Some c →
               ht_items sample2.1 !! c ≠ Some Freed) as Hlive.
  { intros c [= <-]. vm_compute. discriminate. }
  assert (ht_items sample2.1 !! 5%positive = None) as Hp by (vm_compute; reflexivity).
  assert (ht_add sample2.1 12 112 5 =
          Done (table_after 4 (sample2_ops ++ [OpAdd 12 112 5]), Ret0)) as Hadd
    by (vm_compute; reflexivity).
  split_and!; [done..|].
  exact (add_keeps_iterators 4 _ _ 0 _ 12%N 112%N 5%positive _ _ Hr Hk Hlive Hp Hadd).
Defined.

(** X17.  [ht_remove] of a hash other than the one the cursor node carries
    leaves the iterator usable: [ht_next] returns on it after the
    [ht_remove]. *)
Theorem remove_keeps_other_iterators n m its k it c itc h m' r :
  reachable n (m, its) → its !! k = Some it →
  htit_cursor it = Some c → ht_items m !! c = Some (Live itc) →
  hti_hash itc ≠ h → ht_remove m h = Done (m', r) →
  ∃ it' w, ht_next m' it = Done (it', w).
Proof.
  intros Hr Hk Hc Hitc Hne Hrm.
  assert (reachable n (m', its)) as Hr'.
  { eapply rtc_r; [exact Hr|]. by eapply step_remove. }
  apply reachable_rep in Hr as (ls & Hrep & Hits).
  apply reachable_rep in Hr' as (ls' & Hrep' & Hits').
  pool_iter Hits' Hk Hit'.
  apply (ht_next_returns m' ls' it Hrep' Hit').
  intros c' Hc' Hfreed. assert (c' = c) as -> by congruence.
  destruct r as [|e].
  - destruct (ht_remove_ok m ls h m' Hrep Hrm)
      as (l1 & p & l2 & itp & _ & Hitp & Hh & _ & _ & _ & Hq & _).
    assert (c ≠ p) as Hcp by (intros ->; congruence).
    specialize (Hq c Hcp). rewrite Hfreed, Hitc in Hq. done.
  - pose proof (ht_remove_Done _ _ _ Hrm) as Hn.
    destruct (ht_remove_rep m ls h Hrep Hn) as (l0 & _ & Hcase).
    destruct (chain_find (ht_items m) l0 h) as [[q itq]|].
    + destruct Hcase as (m2 & l1 & l2 & _ & Hrm' & _). congruence.
    + rewrite Hcase in Hrm. injection Hrm as <- _. congruence.
Qed.

Lemma remove_keeps_other_iterators_witness :
  reachable 4 (sample2.1, sample2.2) ∧
  sample2.2 !! 0 = Some (mk_iter 0 (Some 2%positive)) ∧
  htit_cursor (mk_iter 0 (Some 2%positive)) = Some 2%positive ∧
  ht_items sample2.1 !! 2%positive =
    Some (Live (mk_item 4%N 14%N (Some 3%positive) (LNext 1%positive))) ∧
  hti_hash (mk_item 4%N 14%N (Some 3%positive) (LNext 1%positive)) ≠ 8%N ∧
  ht_remove sample2.1 8 = Done (table_after 4 (sample2_ops ++ [OpRemove 8]), Ret0) ∧
  ∃ it' w, ht_next (table_after 4 (sample2_ops ++ [OpRemove 8]))
                   (mk_iter 0 (Some 2%positive)) = Done (it', w).
Proof.
  assert (reachable 4 (sample2.1, sample2.2)) as Hr by exact sample2_reachable.
  assert (sample2.2 !! 0 = Some (mk_iter 0 (Some 2%positive))) as Hk
    by (vm_compute; reflexivity).
  assert (htit_cursor (mk_iter 0 (Some 2%positive)) = Some 2%positive) as Hc
    by reflexivity.
  assert (ht_items sample2.1 !! 2%positive =
          Some (Live (mk_item 4%N 14%N (Some 3%positive) (LNext 1%positive)))) as Hitc
    by (vm_compute; reflexivity).
  assert (hti_hash (mk_item 4%N 14%N (Some 3%positive) (LNext 1%positive)) ≠ 8%N) as Hne
    by (vm_compute; discriminate).
  assert (ht_remove sample2.1 8 = Done (table_after 4 (sample2_ops ++ [OpRemove 8]), Ret0))
    as Hrm by (vm_compute; reflexivity).
  split_and!; [done..|].
  exact (remove_keeps_other_iterators 4 _ _ 0 _ 2%positive _ 8%N _ _ Hr Hk Hc Hitc Hne Hrm).
Defined.

(** ** Order in a chain *)

(** X18.  [ht_add] puts the new node at the end of the chain of its
    bucket, the one at index hash modulo the number of buckets, and leaves
    the order of the other nodes, and the other chains, as they were. *)
Theorem add_appends n m its h v p m' :
  reachable n (m, its) → ht_items m !! p = None →
  ht_add m h v p = Done (m', Ret0) →
  ∃ i, i = N.to_nat (h mod N.of_nat n) ∧ slot_of m h = Done i ∧
    ∀ j, j < ht_nentries m →
      ∃ e e' l, ht_entries m !! j = Some e ∧ ht_entries m' !! j = Some e' ∧
                is_chain (ht_items m) (LHead j) (tqh_first e) l ∧
                is_chain (ht_items m') (LHead j) (tqh_first e')
                         (if decide (j = i) then l ++ [p] else l).
Proof.
  intros Hr Hp Hadd. pose proof (reachable_nentries _ _ Hr) as Hsz. simpl in Hsz.
  apply reachable_rep in Hr as (ls & Hrep & _).
  pose proof (ht_add_Done _ _ _ _ _ Hadd) as Hn.
  destruct (ht_add_ok m ls h v p m' Hrep Hp Hadd)
    as (l & it & Hl & Hf & Hrep' & Hn' & _).
  exists (N.to_nat (h mod N.of_nat (ht_nentries m))). split; [by rewrite Hsz|]. split.
  { unfold slot_of. by rewrite decide_False. }
  intros j Hj.
  destruct (rep_lookup m ls j Hrep Hj) as (e & lj & He & Hlj & Hc & _).
  destruct (rep_lookup m' _ j Hrep') as (e' & lj' & He' & Hlj' & Hc' & _); [congruence|].
  exists e, e', lj. split_and!; [done..|]. case_decide as Hji.
  - subst j. rewrite list_lookup_insert_eq in Hlj' by (by eapply lookup_lt_Some).
    injection Hlj' as <-. congruence.
  - rewrite list_lookup_insert_ne in Hlj' by done. congruence.
Qed.

Lemma add_appends_witness :
  reachable 4 (sample.1, sample.2) ∧
  ht_items sample.1 !! 5%positive = None ∧
  ht_add sample.1 13 113 5 = Done (table_after 4 (sample_ops ++ [OpAdd 13 113 5]), Ret0) ∧
  ∃ i, i = N.to_nat (13%N mod N.of_nat 4) ∧ slot_of sample.1 13 = Done i ∧
    ∀ j, j < ht_nentries sample.1 →
      ∃ e e' l, ht_entries sample.1 !! j = Some e ∧
                ht_entries (table_after 4 (sample_ops ++ [OpAdd 13 113 5])) !! j = Some e' ∧
                is_chain (ht_items sample.1) (LHead j) (tqh_first e) l ∧
                is_chain (ht_items (table_after 4 (sample_ops ++ [OpAdd 13 113 5])))
                         (LHead j) (tqh_first e')
                         (if decide (j = i) then l ++ [5%positive] else l).
Proof.
  assert (reachable 4 (sample.1, sample.2)) as Hr by exact sample_reachable.
  assert (ht_items sample.1 !! 5%positive = None) as Hp by (vm_compute; reflexivity).
  assert (ht_add sample.1 13 113 5 =
          Done (table_after 4 (sample_ops ++ [OpAdd 13 113 5]), Ret0)) as Hadd
    by (vm_compute; reflexivity).
  split_and!; [done..|].
  exact (add_appends 4 _ _ 13%N 113%N 5%positive _ Hr Hp Hadd).
Defined.

(** X19.  [ht_remove] takes one node out of the chain of its bucket, the
    one at index hash modulo the number of buckets: the node that carries the
    hash.  It leaves the order of the other nodes, and the other chains, as
    they were. *)
Theorem remove_keeps_order n m its h m' :
  reachable n (m, its) → ht_remove m h = Done (m', Ret0) →
  ∃ i l1 p l2 itp,
    i = N.to_nat (h mod N.of_nat n) ∧ slot_of m h = Done i ∧
    ht_items m !! p = Some (Live itp) ∧ hti_hash itp = h ∧
    ht_items m' !! p = Some Freed ∧
    ∀ j, j < ht_nentries m →
      ∃ e e' l, ht_entries m !! j = Some e ∧ ht_entries m' !! j = Some e' ∧
                is_chain (ht_items m) (LHead j) (tqh_first e) l ∧
                (j = i → l = l1 ++ p :: l2) ∧
                is_chain (ht_items m') (LHead j) (tqh_first e')
                         (if decide (j = i) then l1 ++ l2 else l).
Proof.
  intros Hr Hrm. pose proof (reachable_nentries _ _ Hr) as Hsz. simpl in Hsz.
  apply reachable_rep in Hr as (ls & Hrep & _).
  pose proof (ht_remove_Done _ _ _ Hrm) as Hn.
  destruct (ht_remove_ok m ls h m' Hrep Hrm)
    as (l1 & p & l2 & itp & Hl & Hitp & Hh & Hrep' & Hn' & Hp & _).
  exists (N.to_nat (h mod N.of_nat (ht_nentries m))), l1, p, l2, itp.
  split_and!; try done.
  { by rewrite Hsz. }
  { unfold slot_of. by rewrite decide_False. }
  intros j Hj.
  destruct (rep_lookup m ls j Hrep Hj) as (e & lj & He & Hlj & Hc & _).
  destruct (rep_lookup m' _ j Hrep') as (e' & lj' & He' & Hlj' & Hc' & _); [congruence|].
  exists e, e', lj. split_and!; [done..| |].
  - intros ->. congruence.
  - case_decide as Hji.
    + subst j. rewrite list_lookup_insert_eq in Hlj' by (by eapply lookup_lt_Some).
      injection Hlj' as <-. congruence.
    + rewrite list_lookup_insert_ne in Hlj' by done. congruence.
Qed.

Lemma remove_keeps_order_witness :
  reachable 4 (sample2.1, sample2.2) ∧
  ht_remove sample2.1 4 = Done (table_after 4 (sample2_ops ++ [OpRemove 4]), Ret0) ∧
  ∃ i l1 p l2 itp,
    i = N.to_nat (4%N mod N.of_nat 4) ∧ slot_of sample2.1 4 = Done i ∧
    ht_items sample2.1 !! p = Some (Live itp) ∧ hti_hash itp = 4%N ∧
    ht_items (table_after 4 (sample2_ops ++ [OpRemove 4])) !! p = Some Freed ∧
    ∀ j, j < ht_nentries sample2.1 →
      ∃ e e' l, ht_entries sample2.1 !! j = Some e ∧
                ht_entries (table_after 4 (sample2_ops ++ [OpRemove 4])) !! j = Some e' ∧
                is_chain (ht_items sample2.1) (LHead j) (tqh_first e) l ∧
                (j = i → l = l1 ++ p :: l2) ∧
                is_chain (ht_items (table_after 4 (sample2_ops ++ [OpRemove 4])))
                         (LHead j) (tqh_first e')
                         (if decide (j = i) then l1 ++ l2 else l).
Proof.
  assert (reachable 4 (sample2.1, sample2.2)) as Hr by exact sample2_reachable.
  assert (ht_remove sample2.1 4 = Done (table_after 4 (sample2_ops ++ [OpRemove 4]), Ret0))
    as Hrm by (vm_compute; reflexivity).
  split_and!; [done..|].
  exact (remove_keeps_order 4 _ _ 4%N _ Hr Hrm).
Defined.

(** ** [ht_remove_at_iter] without a cursor *)

(** X20.  When [ht_remove_at_iter] returns -1.  It does so, with
    [errno = EINVAL] and table and iterator as they were, on an iterator
    without a cursor: one just made by [ht_iter] on a table whose bucket 0 is
    empty, and one at the end of the table ([htit_slot = ht_nentries]), which
    is where [ht_next] leaves an iterator when it reports that nothing is
    left, and where it keeps returning [NULL].  Whenever [ht_remove_at_iter]
    returns -1, the error is [EINVAL] and nothing has changed. *)
Theorem remove_at_iter_invalid n m its :
  reachable n (m, its) →
  (∀ it, ht_iter m = Done it → (∀ p, ¬ resides m 0 p) →
     ht_remove_at_iter m it = Done (m, it, RetErr EINVAL)) ∧
  (∀ k it, its !! k = Some it → htit_slot it = ht_nentries m →
     ht_next m it = Done (it, NULL) ∧
     ht_remove_at_iter m it = Done (m, it, RetErr EINVAL)) ∧
  (∀ k it it' v, its !! k = Some it → ht_next m it = Done (it', v) →
     htit_slot it' = ht_nentries m →
     v = NULL ∧ ht_remove_at_iter m it' = Done (m, it', RetErr EINVAL)) ∧
  (∀ it m' it' e, ht_remove_at_iter m it = Done (m', it', RetErr e) →
     e = EINVAL ∧ m' = m ∧ it' = it).
Proof.
  intros (ls & Hrep & Hits)%reachable_rep. split_and!.
  - intros it Hit Hempty. unfold ht_iter in Hit.
    apply bind_Done_inv in Hit as (e & He%bucket_Done & [= <-]).
    unfold ht_remove_at_iter. simpl.
    destruct (tqh_first e) as [c|] eqn:Hc; [|done].
    exfalso. apply (Hempty c). exists e. split; [done|]. rewrite Hc. constructor.
  - intros k it Hk Hend. pool_iter Hits Hk Hit.
    destruct Hit as (Hle & Hnone & _). split.
    + rewrite ht_next_unfold by done. by rewrite decide_True.
    + unfold ht_remove_at_iter. by rewrite (Hnone Hend).
  - intros k it it' v Hk Hnext Hend. pool_iter Hits Hk Hit.
    pose proof (ht_next_ok m ls it it' v Hrep Hit Hnext) as (_ & Hnone & _).
    split.
    + destruct Hit as (Hle & _ & _). rewrite ht_next_unfold in Hnext by done.
      destruct (decide (htit_slot it = ht_nentries m)); [congruence|].
      destruct (htit_cursor it) as [c|]; [|congruence].
      apply bind_Done_inv in Hnext as (item & _ & Hnext).
      destruct (tqe_next item); [|congruence].
      injection Hnext as <- _. simpl in Hend. congruence.
    + unfold ht_remove_at_iter. by rewrite (Hnone Hend).
  - intros it m' it' e Hrm. unfold ht_remove_at_iter in Hrm.
    destruct (htit_cursor it) as [c|]; [|by injection Hrm as <- <- <-].
    apply bind_Done_inv in Hrm as (m1 & _ & Hrm).
    apply bind_Done_inv in Hrm as (m2 & _ & Hrm). congruence.
Qed.

Lemma remove_at_iter_invalid_witness :
  reachable 4 (sample.1, sample.2) ∧
  (∀ it, ht_iter sample.1 = Done it → (∀ p, ¬ resides sample.1 0 p) →
     ht_remove_at_iter sample.1 it = Done (sample.1, it, RetErr EINVAL)) ∧
  (∀ k it, sample.2 !! k = Some it → htit_slot it = ht_nentries sample.1 →
     ht_next sample.1 it = Done (it, NULL) ∧
     ht_remove_at_iter sample.1 it = Done (sample.1, it, RetErr EINVAL)) ∧
  (∀ k it it' v, sample.2 !! k = Some it → ht_next sample.1 it = Done (it', v) →
     htit_slot it' = ht_nentries sample.1 →
     v = NULL ∧ ht_remove_at_iter sample.1 it' = Done (sample.1, it', RetErr EINVAL)) ∧
  (∀ it m' it' e, ht_remove_at_iter sample.1 it = Done (m', it', RetErr e) →
     e = EINVAL ∧ m' = sample.1 ∧ it' = it).
Proof.
  assert (reachable 4 (sample.1, sample.2)) as Hr by exact sample_reachable.
  split; [done|]. exact (remove_at_iter_invalid 4 _ _ Hr).
Defined.

(** ** The invariants of the representation *)

(** X21.  Along every run from [ht_init(h, n)] in which each call of
    [ht_add], [ht_remove], [ht_iter], [ht_next] and [ht_remove_at_iter]
    returns without a fault and the allocator hands out no address twice:
    the table keeps its [n] buckets; every live node is in a chain; a node of
    chain [i] is live and [i] is its hash modulo [n], which is the bucket
    [ht_find], [ht_add] and [ht_remove] look in; so no node is in two chains;
    two nodes of one chain with the same hash are the same node; and every
    chain is a well-linked list without repetition. *)
Theorem reachable_invariants n m its :
  reachable n (m, its) →
  ht_nentries m = n ∧
  (∀ p it, ht_items m !! p = Some (Live it) → ∃ i, resides m i p) ∧
  (∀ i p, resides m i p →
     ∃ it, ht_items m !! p = Some (Live it) ∧
           i = N.to_nat (hti_hash it mod N.of_nat n) ∧
           slot_of m (hti_hash it) = Done i) ∧
  (∀ i j p, resides m i p → resides m j p → i = j) ∧
  (∀ i p q itp itq,
     resides m i p → resides m i q →
     ht_items m !! p = Some (Live itp) → ht_items m !! q = Some (Live itq) →
     hti_hash itp = hti_hash itq → p = q) ∧
  (∀ i, i < ht_nentries m →
     ∃ e l, ht_entries m !! i = Some e ∧
            is_chain (ht_items m) (LHead i) (tqh_first e) l ∧ NoDup l).
Proof.
  intros Hr. pose proof (reachable_all_linked _ _ Hr) as Hall.
  pose proof (reachable_nentries _ _ Hr) as Hn. simpl in Hn.
  apply reachable_rep in Hr as (ls & Hrep & _).
  split_and!.
  - exact Hn.
  - exact Hall.
  - intros i p (l & Hl & Hin)%(resides_rep _ _ _ _ Hrep).
    destruct (rep_live _ _ _ _ _ Hrep Hl Hin) as [it Hit]. exists it. split; [done|].
    assert (i < ht_nentries m) as Hi.
    { destruct Hrep as (_ & <- & _). by eapply lookup_lt_Some. }
    destruct (rep_lookup m ls i Hrep Hi) as (e & l' & He & Hl' & _ & _ & Hslot & _).
    assert (l' = l) as -> by congruence.
    assert (N.to_nat (hti_hash it mod N.of_nat (ht_nentries m)) = i) as Hidx.
    { apply (Hslot p); [done|]. by apply hash_at_Live. }
    split.
    + by rewrite <- Hn.
    + unfold slot_of. rewrite decide_False by lia. by f_equal.
  - intros i j p (li & Hli & Hpi)%(resides_rep _ _ _ _ Hrep)
                 (lj & Hlj & Hpj)%(resides_rep _ _ _ _ Hrep).
    by eapply (rep_disjoint m ls).
  - intros i p q itp itq (l & Hl & Hp)%(resides_rep _ _ _ _ Hrep)
                         (l' & Hl' & Hq)%(resides_rep _ _ _ _ Hrep) Hitp Hitq Hh.
    assert (l' = l) as -> by congruence.
    assert (i < ht_nentries m) as Hi.
    { destruct Hrep as (_ & <- & _). by eapply lookup_lt_Some. }
    destruct (rep_lookup m ls i Hrep Hi) as (e & l' & He & Hl'' & _ & _ & _ & Hnd).
    assert (l' = l) as -> by congruence.
    apply list_elem_of_lookup_1 in Hp as [a Ha].
    apply list_elem_of_lookup_1 in Hq as [b Hb].
    assert (a = b); [|congruence].
    eapply (NoDup_lookup _ a b (Some (hti_hash itp)) Hnd).
    + rewrite list_lookup_fmap, Ha. simpl. by rewrite (hash_at_Live _ _ _ Hitp).
    + rewrite list_lookup_fmap, Hb. simpl. by rewrite (hash_at_Live _ _ _ Hitq), Hh.
  - intros i Hi.
    destruct (rep_lookup m ls i Hrep Hi) as (e & l & He & Hl & Hc & _ & _ & Hnd).
    exists e, l. split_and!; [done..|]. by eapply hash_at_NoDup.
Qed.

Lemma reachable_invariants_witness :
  reachable 4 (sample2.1, sample2.2) ∧
  ht_nentries sample2.1 = 4 ∧
  (∀ p it, ht_items sample2.1 !! p = Some (Live it) → ∃ i, resides sample2.1 i p) ∧
  (∀ i p, resides sample2.1 i p →
     ∃ it, ht_items sample2.1 !! p = Some (Live it) ∧
           i = N.to_nat (hti_hash it mod N.of_nat 4) ∧
           slot_of sample2.1 (hti_hash it) = Done i) ∧
  (∀ i j p, resides sample2.1 i p → resides sample2.1 j p → i = j) ∧
  (∀ i p q itp itq,
     resides sample2.1 i p → resides sample2.1 i q →
     ht_items sample2.1 !! p = Some (Live itp) →
     ht_items sample2.1 !! q = Some (Live itq) →
     hti_hash itp = hti_hash itq → p = q) ∧
  (∀ i, i < ht_nentries sample2.1 →
     ∃ e l, ht_entries sample2.1 !! i = Some e ∧
            is_chain (ht_items sample2.1) (LHead i) (tqh_first e) l ∧ NoDup l).
Proof.
  assert (reachable 4 (sample2.1, sample2.2)) as Hr by exact sample2_reachable.
  split; [done|]. exact (reachable_invariants 4 _ _ Hr).
Defined.
